(** * generate-sidecar-tool: reachability policy from a service topology

    A shallow embedding of the transformation pipeline of the tool
    (buildGraph, parseNamespace, bridgedModeMeta, directModeAnnotations,
    generateDirectModeSidecars, generateBridgedModeTrafficSettings and
    generateSettings) and of the normalisation of the server address in
    PreRunE, together with the properties its specification states about
    them and further properties read off the code.

    Conventions of the embedding:
    - Go strings are [string]; slices are lists; Go maps keyed by strings
      are [gmap string _];
    - a Go function that may dereference a nil pointer or index a slice out
      of range returns a [Res], whose [Panic] constructor stands for the
      run-time panic; a returned [error] is [Fail];
    - the [APIClient] collaborator is a pair of state-passing functions over
      an arbitrary client state; every collaborator call is also recorded
      in a trace, so that "no request is issued" is a statement about the
      trace;
    - [debug] and the diagnostic written to standard error have no effect
      on the results and are left out. *)

From stdpp Require Import gmap strings list fin_maps.
From Stdlib Require Import Ascii Permutation.

Open Scope string_scope.
Open Scope list_scope.
Open Scope nat_scope.

(** ** Results of fallible code *)

Inductive PanicKind := IndexOutOfRange | NilDereference.

Definition error := string.

Inductive Res (A : Type) : Type :=
| Val (a : A)
| Fail (e : error)
| Panic (p : PanicKind).
Arguments Val {A} a.
Arguments Fail {A} e.
Arguments Panic {A} p.

Definition res_bind {A B} (m : Res A) (k : A → Res B) : Res B :=
  match m with
  | Val a => k a
  | Fail e => Fail e
  | Panic p => Panic p
  end.

Declare Scope res_scope.
Delimit Scope res_scope with res.
Notation "'let*' x ':=' m 'in' k" := (res_bind m (λ x, k))
  (at level 10, x name, m at level 200, k at level 200,
   format "'[v' 'let*'  x  :=  m  'in'  '/' k ']'") : res_scope.
Open Scope res_scope.

Definition valOf {A} (r : Res A) : option A :=
  match r with
  | Val a => Some a
  | _ => None
  end.

(** Whether a run returned a value (with the final state of the world). *)
Definition succeeds {A W} (r : Res A * W) : bool :=
  match r.1 with
  | Val _ => true
  | _ => false
  end.

(** [for _, x := range l { s = body x s }] with early exit. *)
Fixpoint forRes {A S} (body : A → S → Res S) (l : list A) (s : S) : Res S :=
  match l with
  | [] => Val s
  | x :: l' => let* s' := body x s in forRes body l' s'
  end.

(** [s[i]] on a slice: out of range panics. *)
Definition index {A} (l : list A) (i : nat) : Res A :=
  match l !! i with
  | Some x => Val x
  | None => Panic IndexOutOfRange
  end.

(** [slices.Contains] *)
Definition Contains (l : list string) (x : string) : bool :=
  bool_decide (x ∈ l).

(** ** strings.Split(s, "/") *)

Definition slash : Ascii.ascii := "/"%char.

Fixpoint Split (s : string) : list string :=
  match s with
  | EmptyString => [""]
  | String c s' =>
      if Ascii.eqb c slash then "" :: Split s'
      else match Split s' with
           | [] => [String c ""]
           | p :: ps => String c p :: ps
           end
  end.

Fixpoint no_slash (s : string) : bool :=
  match s with
  | EmptyString => true
  | String c s' => negb (Ascii.eqb c slash) && no_slash s'
  end.

(** The index values taken by [for i := 0; i < n; i += 2]. *)
Definition stride2 (n : nat) : list nat :=
  (λ k, 2 * k) <$> seq 0 (Nat.div2 (n + 1)).

(** ** API model (api_model.go) and the records of the generator *)

Record Node := { node_ID : string; node_AggregationKey : string }.

Record TopCall := { call_ID : string; call_Source : string; call_Target : string }.

Record TopologyResponse := { Nodes : list Node; Calls : list TopCall }.

Record Metric := { AggregationKey : string }.

Record ServiceDeployment := { dep_FQN : string; dep_Source : string }.

Record Service := {
  svc_FQN : string;
  DisplayName : string;
  Metrics : list Metric;
  CanonicalName : string;
  SpiffeIds : list string;
  ServiceDeployments : list ServiceDeployment
}.

(** typesv2.ObjectMeta, restricted to the fields the tool reads or writes. *)
Record ObjectMeta := {
  Name : string;
  Namespace : string;
  Organization : string;
  Tenant : string;
  Workspace : string;
  Group : string;
  Labels : gmap string string;
  Annotations : gmap string string
}.

Definition emptyMeta : ObjectMeta :=
  {| Name := ""; Namespace := ""; Organization := ""; Tenant := "";
     Workspace := ""; Group := ""; Labels := ∅; Annotations := ∅ |}.

Definition setOrganization (v : string) (m : ObjectMeta) : ObjectMeta :=
  {| Name := Name m; Namespace := Namespace m; Organization := v;
     Tenant := Tenant m; Workspace := Workspace m; Group := Group m;
     Labels := Labels m; Annotations := Annotations m |}.
Definition setTenant (v : string) (m : ObjectMeta) : ObjectMeta :=
  {| Name := Name m; Namespace := Namespace m; Organization := Organization m;
     Tenant := v; Workspace := Workspace m; Group := Group m;
     Labels := Labels m; Annotations := Annotations m |}.
Definition setWorkspace (v : string) (m : ObjectMeta) : ObjectMeta :=
  {| Name := Name m; Namespace := Namespace m; Organization := Organization m;
     Tenant := Tenant m; Workspace := v; Group := Group m;
     Labels := Labels m; Annotations := Annotations m |}.
Definition setGroup (v : string) (m : ObjectMeta) : ObjectMeta :=
  {| Name := Name m; Namespace := Namespace m; Organization := Organization m;
     Tenant := Tenant m; Workspace := Workspace m; Group := v;
     Labels := Labels m; Annotations := Annotations m |}.

Record TrafficGroup := {
  ConfigMode : string;
  tg_FQN : string;
  tg_Metadata : ObjectMeta
}.

(** ** The FQN decomposer *)

(** Body of the loop of [bridgedModeMeta]: [fqnParts[i]] selects the field,
    [fqnParts[i+1]] is read only under a recognised key. *)
Definition bridgedModeMeta_body (fqnParts : list string) (i : nat)
    (meta : ObjectMeta) : Res ObjectMeta :=
  let* key := index fqnParts i in
  if String.eqb key "organizations" then
    let* v := index fqnParts (i + 1) in Val (setOrganization v meta)
  else if String.eqb key "tenants" then
    let* v := index fqnParts (i + 1) in Val (setTenant v meta)
  else if String.eqb key "workspaces" then
    let* v := index fqnParts (i + 1) in Val (setWorkspace v meta)
  else if String.eqb key "trafficgroups" then
    let* v := index fqnParts (i + 1) in Val (setGroup v meta)
  else Val meta.

Definition bridgedModeMeta (fqn : string) : Res ObjectMeta :=
  let fqnParts := Split fqn in
  forRes (bridgedModeMeta_body fqnParts) (stride2 (length fqnParts)) emptyMeta.

Definition directModeAnnotations_body (fqnParts : list string) (i : nat)
    (annotations : gmap string string) : Res (gmap string string) :=
  let* key := index fqnParts i in
  if String.eqb key "organizations" then
    let* v := index fqnParts (i + 1) in
    Val (<["tsb.tetrate.io/organization" := v]> annotations)
  else if String.eqb key "tenants" then
    let* v := index fqnParts (i + 1) in
    Val (<["tsb.tetrate.io/tenant" := v]> annotations)
  else if String.eqb key "workspaces" then
    let* v := index fqnParts (i + 1) in
    Val (<["tsb.tetrate.io/workspace" := v]> annotations)
  else if String.eqb key "trafficgroups" then
    let* v := index fqnParts (i + 1) in
    Val (<["tsb.tetrate.io/trafficGroup" := v]> annotations)
  else Val annotations.

Definition directModeAnnotations (fqn : string) : Res (gmap string string) :=
  let fqnParts := Split fqn in
  forRes (directModeAnnotations_body fqnParts) (stride2 (length fqnParts)) ∅.

(** ** The namespace resolver *)

Definition parseNamespace_body (fqnParts : list string) (i : nat)
    (results : list string) : Res (list string) :=
  let* key := index fqnParts i in
  if String.eqb key "namespaces" then
    let* v := index fqnParts (i + 1) in Val (results ++ [v])
  else Val results.

Definition parseNamespace_dep (dep : ServiceDeployment)
    (results : list string) : Res (list string) :=
  let fqnParts := Split (dep_FQN dep) in
  forRes (parseNamespace_body fqnParts) (stride2 (length fqnParts)) results.

Definition parseNamespace (service : Service) : Res (list string) :=
  forRes parseNamespace_dep (ServiceDeployments service) [].

(** ** Call graph *)

Record Call := {
  SourceService : Service;
  SourceNamespaces : list string;
  SourceTrafficGroup : option TrafficGroup;
  TargetService : Service;
  TargetNamespaces : list string
}.

Record Graph := { graph_Calls : list Call }.

(** ** Policy objects *)

Record IstioEgressListener := { Hosts : list string }.

Record SidecarSpec := { Egress : list IstioEgressListener }.

(** v1.ObjectMeta of the Kubernetes API, restricted to the fields used. *)
Record K8sObjectMeta := {
  k8s_Name : string;
  k8s_Namespace : string;
  k8s_Labels : gmap string string;
  k8s_Annotations : gmap string string
}.

Record Sidecar := { sc_ObjectMeta : K8sObjectMeta; sc_Spec : SidecarSpec }.

Inductive ReachabilityMode := UNSET | CLUSTER | NAMESPACE | WORKSPACE | GROUP | CUSTOM.

Record ReachabilitySettings := { Mode : ReachabilityMode; rs_Hosts : list string }.

Record TrafficSetting := {
  Reachability : option ReachabilitySettings;
  Fqn : string
}.

(** The nil-safe getters generated for protobuf messages. *)
Definition GetReachability (t : option TrafficSetting) : option ReachabilitySettings :=
  match t with
  | Some t => Reachability t
  | None => None
  end.

Definition GetHosts (r : option ReachabilitySettings) : list string :=
  match r with
  | Some r => rs_Hosts r
  | None => []
  end.

Definition baseHosts : list string := ["istio-system/*"; "xcp-multicluster/*"].

(** [destNs + "/*"] *)
Definition hostOf (destNs : string) : string := String.app destNs "/*".

(** ** Direct mode: generateDirectModeSidecars *)

(** [if _, ok := seenNs[ns]; !ok { seenNs[ns] = make([]string, 0) }] *)
Definition ensureSeen (ns : string) (seenNs : gmap string (list string))
    : gmap string (list string) :=
  match seenNs !! ns with
  | Some _ => seenNs
  | None => <[ns := []]> seenNs
  end.

(** [seenNs[ns]]: a missing key reads as the nil slice. *)
Definition seenOf (seenNs : gmap string (list string)) (ns : string) : list string :=
  default [] (seenNs !! ns).

Definition newSidecar (ns : string) (annotations : gmap string string) : Sidecar :=
  {| sc_ObjectMeta := {| k8s_Name := "reachability-sidecar";
                         k8s_Namespace := ns;
                         k8s_Labels := ∅;
                         k8s_Annotations := annotations |};
     sc_Spec := {| Egress := [ {| Hosts := baseHosts |} ] |} |}.

Definition ensureSidecar (ns : string) (annotations : gmap string string)
    (sidecars : gmap string Sidecar) : gmap string Sidecar :=
  match sidecars !! ns with
  | Some _ => sidecars
  | None => <[ns := newSidecar ns annotations]> sidecars
  end.

(** [s.Spec.Egress[0].Hosts = append(s.Spec.Egress[0].Hosts, h)] through
    the pointer [s = sidecars[ns]]. *)
Definition appendEgressHost (s : option Sidecar) (h : string) : Res Sidecar :=
  match s with
  | None => Panic NilDereference
  | Some s =>
      match Egress (sc_Spec s) with
      | [] => Panic IndexOutOfRange
      | l :: ls =>
          Val {| sc_ObjectMeta := sc_ObjectMeta s;
                 sc_Spec := {| Egress := {| Hosts := Hosts l ++ [h] |} :: ls |} |}
      end
  end.

Definition DirectState : Type := gmap string (list string) * gmap string Sidecar.

(** Body of the inner loop, for one destination namespace. *)
Definition directDest (ns destNs : string) (st : DirectState) : Res DirectState :=
  let '(seenNs, sidecars) := st in
  if Contains (seenOf seenNs ns) destNs then Val st
  else
    let seenNs := <[ns := seenOf seenNs ns ++ [destNs]]> seenNs in
    let* s := appendEgressHost (sidecars !! ns) (hostOf destNs) in
    Val (seenNs, <[ns := s]> sidecars).

(** Body of the outer loop, for one source namespace. *)
Definition directNs (call : Call) (annotations : gmap string string)
    (ns : string) (st : DirectState) : Res DirectState :=
  let '(seenNs, sidecars) := st in
  let seenNs := ensureSeen ns seenNs in
  let sidecars := ensureSidecar ns annotations sidecars in
  forRes (directDest ns) (TargetNamespaces call) (seenNs, sidecars).

Definition generateDirectModeSidecars (call : Call)
    (seenNs : gmap string (list string)) (sidecars : gmap string Sidecar)
    (annotations : gmap string string) : Res DirectState :=
  forRes (directNs call annotations) (SourceNamespaces call) (seenNs, sidecars).

(** ** Bridged mode: the part of generateBridgedModeTrafficSettings that
    does not talk to the client *)

Definition BridgedState : Type := gmap string (list string) * gmap string TrafficSetting.

Definition setHosts (hosts : list string) (t : TrafficSetting) (r : ReachabilitySettings)
    : TrafficSetting :=
  {| Reachability := Some {| Mode := Mode r; rs_Hosts := hosts |}; Fqn := Fqn t |}.

(** [t.Reachability.Hosts = hosts] through the pointer [t = trafficSettings[fqn]]. *)
Definition assignHosts (t : option TrafficSetting) (hosts : list string) : Res TrafficSetting :=
  match t with
  | None => Panic NilDereference
  | Some t =>
      match Reachability t with
      | None => Panic NilDereference
      | Some r => Val (setHosts hosts t r)
      end
  end.

(** Body of the inner loop, for one destination namespace.  The
    reachability mode is only inspected to write a debug message. *)
Definition bridgedDest (fqn ns destNs : string) (st : BridgedState) : Res BridgedState :=
  let '(seenNs, trafficSettings) := st in
  if Contains (seenOf seenNs ns) destNs then Val st
  else
    let seenNs := <[ns := seenOf seenNs ns ++ [destNs]]> seenNs in
    let hosts := GetHosts (GetReachability (trafficSettings !! fqn)) in
    if negb (Contains hosts (hostOf destNs)) then
      let* t := assignHosts (trafficSettings !! fqn) (hosts ++ [hostOf destNs]) in
      Val (seenNs, <[fqn := t]> trafficSettings)
    else Val (seenNs, trafficSettings).

(** The TrafficSetting synthesised when the group has none. *)
Definition newTrafficSetting (fqnOfMeta : string) : TrafficSetting :=
  {| Reachability := Some {| Mode := UNSET; rs_Hosts := baseHosts |};
     Fqn := fqnOfMeta |}.

(** Dereference of a pointer. *)
Definition deref {A} (p : option A) : Res A :=
  match p with
  | Some a => Val a
  | None => Panic NilDereference
  end.

(** ** Output objects *)

Definition IstioNetworkingBeta1API : string := "networking.istio.io/v1beta1".
Definition IstioSidecarKind : string := "Sidecar".
Definition TrafficAPI : string := "traffic.tsb.tetrate.io/v2".
Definition TrafficSettingKind : string := "TrafficSetting".

(** The message handed to [anypb.New]. *)
Inductive Message :=
| MsgSidecar (spec : SidecarSpec)
| MsgTrafficSetting (t : TrafficSetting).

Record Object (Any : Type) := {
  Metadata : option ObjectMeta;
  ApiVersion : string;
  Kind : string;
  Spec : Any
}.
Arguments Metadata {Any} o.
Arguments ApiVersion {Any} o.
Arguments Kind {Any} o.
Arguments Spec {Any} o.

(** The calls made to the collaborator, in order. *)
Inductive Event :=
| EvLookupTrafficGroup (service : Service)
| EvGetTrafficSettings (groupFQN : string).

(** The four maps that [generateSettings] accumulates over the calls. *)
Record GenState := {
  sidecars : gmap string Sidecar;
  trafficSettings : gmap string TrafficSetting;
  trafficMeta : gmap string ObjectMeta;
  seenNs : gmap string (list string)
}.

Definition initState : GenState :=
  {| sidecars := ∅; trafficSettings := ∅; trafficMeta := ∅; seenNs := ∅ |}.

(** ** Reading host lists *)

(** [s.Spec.Egress[0].Hosts], the only egress listener the tool writes. *)
Definition sidecarHosts (s : Sidecar) : list string :=
  match Egress (sc_Spec s) with
  | l :: _ => Hosts l
  | [] => []
  end.

Definition egressHosts (sidecars : gmap string Sidecar) (ns : string) : list string :=
  match sidecars !! ns with
  | Some s => sidecarHosts s
  | None => []
  end.

Definition reachabilityHosts (trafficSettings : gmap string TrafficSetting)
    (fqn : string) : list string :=
  GetHosts (GetReachability (trafficSettings !! fqn)).


(** The FQN of a traffic group, as the specification writes it. *)
Definition groupFQN (O T W G : string) : string :=
  String.app "organizations/" (String.app O
    (String.app "/tenants/" (String.app T
      (String.app "/workspaces/" (String.app W
        (String.app "/trafficgroups/" G)))))).

(** ** The two decompositions of one FQN *)

(** An annotation map and a metadata record that hold the same four
    values: a field that was never set is the empty string on one side and
    a missing annotation on the other. *)
Definition sameDecomposition (meta : ObjectMeta) (annotations : gmap string string)
    : Prop :=
  Organization meta = default "" (annotations !! "tsb.tetrate.io/organization")
  ∧ Tenant meta = default "" (annotations !! "tsb.tetrate.io/tenant")
  ∧ Workspace meta = default "" (annotations !! "tsb.tetrate.io/workspace")
  ∧ Group meta = default "" (annotations !! "tsb.tetrate.io/trafficGroup")
  ∧ Name meta = "" ∧ Namespace meta = ""
  ∧ Labels meta = ∅ ∧ Annotations meta = ∅.

(** Two results that end the same way, none with an error: both values,
    related by [R], or the same panic. *)
Definition resRel {A B} (R : A → B → Prop) (r1 : Res A) (r2 : Res B) : Prop :=
  match r1, r2 with
  | Val a, Val b => R a b
  | Panic p1, Panic p2 => p1 = p2
  | _, _ => False
  end.

(** ** The server address (PreRunE) *)

(** [strings.HasPrefix] and [strings.TrimPrefix]. *)
Definition HasPrefix (s prefix : string) : bool := String.prefix prefix s.

Definition TrimPrefix (s prefix : string) : string :=
  if HasPrefix s prefix
  then String.substring (String.length prefix) (String.length s - String.length prefix) s
  else s.

(** What [PreRunE] does to [cfg.server]: the error it returns, or the
    address the client is built with. *)
Definition PreRunE_server (server : string) : Res string :=
  if String.eqb server "" then
    Fail "server address (-s or --server) can't be empty, need an address like 'tsb.yourcorp.com' or an IP like '127.0.1.10'"
  else Val (TrimPrefix (TrimPrefix server "https://") "http://").

(** ** A small topology and a few collaborators, used to run the pipeline

    Two services, [svcA] deployed in namespace [ns-a] and [svcB] in
    [ns-b]; nodes [n1] and [n2] carry their aggregation keys. *)

Definition demo_svcA : Service :=
  {| svc_FQN := "organizations/tetrate/services/a"; DisplayName := "a";
     Metrics := [ {| AggregationKey := "svcA" |} ];
     CanonicalName := "a"; SpiffeIds := [];
     ServiceDeployments :=
       [ {| dep_FQN := "organizations/tetrate/clusters/c1/namespaces/ns-a/services/a";
            dep_Source := "" |} ] |}.

Definition demo_svcB : Service :=
  {| svc_FQN := "organizations/tetrate/services/b"; DisplayName := "b";
     Metrics := [ {| AggregationKey := "svcB" |} ];
     CanonicalName := "b"; SpiffeIds := [];
     ServiceDeployments :=
       [ {| dep_FQN := "organizations/tetrate/clusters/c1/namespaces/ns-b/services/b";
            dep_Source := "" |} ] |}.

(** A service whose deployment FQN ends in the key [namespaces]. *)
Definition demo_svcOdd : Service :=
  {| svc_FQN := "organizations/tetrate/services/odd"; DisplayName := "odd";
     Metrics := []; CanonicalName := "odd"; SpiffeIds := [];
     ServiceDeployments := [ {| dep_FQN := "namespaces"; dep_Source := "" |} ] |}.

Definition demo_services : list Service := [demo_svcA; demo_svcB].

Definition demo_nodes : list Node :=
  [ {| node_ID := "n1"; node_AggregationKey := "svcA" |};
    {| node_ID := "n2"; node_AggregationKey := "svcB" |} ].

Definition demo_edge : TopCall :=
  {| call_ID := "e1"; call_Source := "n1"; call_Target := "n2" |}.

(** An edge from a node the topology does not list. *)
Definition demo_edge_unknown : TopCall :=
  {| call_ID := "e0"; call_Source := "n9"; call_Target := "n2" |}.

Definition demo_group (mode fqn : string) : TrafficGroup :=
  {| ConfigMode := mode; tg_FQN := fqn; tg_Metadata := emptyMeta |}.

Definition demo_g1 : string := groupFQN "tetrate" "t1" "w1" "g1".
Definition demo_g2 : string := groupFQN "tetrate" "t1" "w1" "g2".

Definition demo_call (mode fqn : string) (sources targets : list string) : Call :=
  {| SourceService := demo_svcA; SourceNamespaces := sources;
     SourceTrafficGroup := Some (demo_group mode fqn);
     TargetService := demo_svcB; TargetNamespaces := targets |}.

(** Collaborators over a client without state. *)
Definition demo_lookup_direct (service : Service) (st : unit)
    : (error + option TrafficGroup) * unit :=
  (inr (Some (demo_group "DIRECT" demo_g1)), st).

Definition demo_lookup_fails (service : Service) (st : unit)
    : (error + option TrafficGroup) * unit :=
  (inl "lookup failed", st).

(** A collaborator that counts its calls and fails from the second on. *)
Definition demo_lookup_second_fails (service : Service) (st : nat)
    : (error + option TrafficGroup) * nat :=
  (if Nat.eqb st 0 then inr (Some (demo_group "DIRECT" demo_g1))
   else inl "lookup failed", S st).

Definition demo_settings_none (groupFQN : string) (st : unit)
    : (error + option TrafficSetting) * unit :=
  (inr None, st).

(** A collaborator whose stored setting lists [ns-b/*] twice. *)
Definition demo_settings_twice (groupFQN : string) (st : unit)
    : (error + option TrafficSetting) * unit :=
  (inr (Some {| Reachability :=
                  Some {| Mode := CUSTOM; rs_Hosts := ["ns-b/*"; "ns-b/*"] |};
                Fqn := groupFQN |}), st).

Definition demo_FromMeta (meta : ObjectMeta) : string :=
  groupFQN (Organization meta) (Tenant meta) (Workspace meta) (Group meta).

Definition demo_anypbNew (m : Message) : error + Message := inr m.

Definition demo_rangeMap (A : Type) (m : gmap string A) : list (string * A) :=
  map_to_list m.

(** A collaborator whose fetch of traffic settings fails. *)
Definition demo_settings_fails (groupFQN : string) (st : unit)
    : (error + option TrafficSetting) * unit :=
  (inl "fetch failed", st).

(** A collaborator whose stored setting has no reachability block. *)
Definition demo_settings_bare (groupFQN : string) (st : unit)
    : (error + option TrafficSetting) * unit :=
  (inr (Some {| Reachability := None; Fqn := groupFQN |}), st).

(** A collaborator without stored settings, over the counting client. *)
Definition demo_settings_counting (groupFQN : string) (st : nat)
    : (error + option TrafficSetting) * nat :=
  (inr None, S st).

(** ** The pipeline over an arbitrary APIClient *)

Section Pipeline.
Context {St Any : Type}.

(** The two APIClient methods the core uses, as state-passing functions
    on the state of the collaborator; [inl] is a non-nil [error]. *)
Variable LookupTrafficGroup : Service → St → (error + option TrafficGroup) * St.
Variable GetTrafficSettings : string → St → (error + option TrafficSetting) * St.
(** [fqn.Tctl{}.FromMeta(api.TrafficAPI, api.TrafficSettingKind, meta)] *)
Variable FromMeta : ObjectMeta → string.
Variable anypbNew : Message → error + Any.
(** The order in which [range] visits a Go map is unspecified: any
    enumeration of the entries. *)
Variable rangeMap : ∀ A, gmap string A → list (string * A).
Hypothesis rangeMap_perm : ∀ A (m : gmap string A), rangeMap A m ≡ₚ map_to_list m.

Record World := { client : St; trace : list Event }.

Definition M (A : Type) : Type := World → Res A * World.

Definition ret {A} (a : A) : M A := λ w, (Val a, w).

Definition bind {A B} (m : M A) (k : A → M B) : M B := λ w,
  match m w with
  | (Val a, w') => k a w'
  | (Fail e, w') => (Fail e, w')
  | (Panic p, w') => (Panic p, w')
  end.

Definition lift {A} (r : Res A) : M A := λ w, (r, w).

Notation "'let!' x ':=' m 'in' k" := (bind m (λ x, k))
  (at level 10, x name, m at level 200, k at level 200).

Fixpoint forM {A S} (body : A → S → M S) (l : list A) (s : S) : M S :=
  match l with
  | [] => ret s
  | x :: l' => let! s' := body x s in forM body l' s'
  end.

Definition callLookupTrafficGroup (service : Service)
    : World → (error + option TrafficGroup) * World := λ w,
  let '(r, st') := LookupTrafficGroup service (client w) in
  (r, {| client := st'; trace := trace w ++ [EvLookupTrafficGroup service] |}).

Definition callGetTrafficSettings (groupFQN : string) : M (option TrafficSetting) := λ w,
  let '(r, st') := GetTrafficSettings groupFQN (client w) in
  (match r with inl err => Fail err | inr settings => Val settings end,
   {| client := st'; trace := trace w ++ [EvGetTrafficSettings groupFQN] |}).

(** *** generateBridgedModeTrafficSettings *)

(** [if _, ok := trafficSettings[fqn]; !ok { ... }] *)
Definition ensureTrafficSetting (fqn : string) (meta : ObjectMeta)
    (trafficSettings : gmap string TrafficSetting) : M (gmap string TrafficSetting) :=
  match trafficSettings !! fqn with
  | Some _ => ret trafficSettings
  | None =>
      let! settings := callGetTrafficSettings fqn in
      let settings :=
        match settings with
        | Some t => t
        | None => newTrafficSetting (FromMeta meta)
        end in
      ret (<[fqn := settings]> trafficSettings)
  end.

Definition bridgedNs (call : Call) (meta : ObjectMeta) (ns : string)
    (st : BridgedState) : M BridgedState :=
  let '(seenNs, trafficSettings) := st in
  let seenNs := ensureSeen ns seenNs in
  let! tg := lift (deref (SourceTrafficGroup call)) in
  let! trafficSettings := ensureTrafficSetting (tg_FQN tg) meta trafficSettings in
  lift (forRes (bridgedDest (tg_FQN tg) ns) (TargetNamespaces call)
          (seenNs, trafficSettings)).

Definition generateBridgedModeTrafficSettings (call : Call)
    (seenNs : gmap string (list string))
    (trafficSettings : gmap string TrafficSetting) (meta : ObjectMeta)
    : M BridgedState :=
  forM (bridgedNs call meta) (SourceNamespaces call) (seenNs, trafficSettings).

(** *** generateSettings *)

(** Body of the loop over [graph.Calls]. *)
Definition processCall (call : Call) (g : GenState) : M GenState :=
  match SourceTrafficGroup call with
  | None => ret g
  | Some tg =>
      if String.eqb (ConfigMode tg) "DIRECT" then
        let! annotations := lift (directModeAnnotations (tg_FQN tg)) in
        let! st := lift (generateDirectModeSidecars call (seenNs g) (sidecars g)
                           annotations) in
        ret {| sidecars := st.2; trafficSettings := trafficSettings g;
               trafficMeta := trafficMeta g; seenNs := st.1 |}
      else
        let! meta := lift (bridgedModeMeta (tg_FQN tg)) in
        let trafficMeta := <[tg_FQN tg := meta]> (trafficMeta g) in
        let! st := generateBridgedModeTrafficSettings call (seenNs g)
                     (trafficSettings g) meta in
        ret {| sidecars := sidecars g; trafficSettings := st.2;
               trafficMeta := trafficMeta; seenNs := st.1 |}
  end.

Definition processCalls (calls : list Call) (g : GenState) : M GenState :=
  forM processCall calls g.

Definition anypb (m : Message) : Res Any :=
  match anypbNew m with
  | inl err => Fail (String.app "creating anypb: " err)
  | inr any => Val any
  end.

Definition sidecarObject (s : Sidecar) : Res (Object Any) :=
  let* any := anypb (MsgSidecar (sc_Spec s)) in
  Val {| Metadata :=
           Some {| Name := k8s_Name (sc_ObjectMeta s);
                   Namespace := k8s_Namespace (sc_ObjectMeta s);
                   Organization := ""; Tenant := ""; Workspace := ""; Group := "";
                   Labels := k8s_Labels (sc_ObjectMeta s);
                   Annotations := k8s_Annotations (sc_ObjectMeta s) |};
         ApiVersion := IstioNetworkingBeta1API;
         Kind := IstioSidecarKind;
         Spec := any |}.

Definition trafficSettingObject (trafficMeta : gmap string ObjectMeta)
    (t : TrafficSetting) : Res (Object Any) :=
  let* any := anypb (MsgTrafficSetting t) in
  Val {| Metadata := trafficMeta !! Fqn t;
         ApiVersion := TrafficAPI;
         Kind := TrafficSettingKind;
         Spec := any |}.

Definition sidecarObjects (sidecars : gmap string Sidecar)
    (results : list (Object Any)) : Res (list (Object Any)) :=
  forRes (λ (e : string * Sidecar) results,
            let* o := sidecarObject e.2 in Val (results ++ [o]))
         (rangeMap _ sidecars) results.

Definition trafficSettingObjects (trafficSettings : gmap string TrafficSetting)
    (trafficMeta : gmap string ObjectMeta)
    (results : list (Object Any)) : Res (list (Object Any)) :=
  forRes (λ (e : string * TrafficSetting) results,
            let* o := trafficSettingObject trafficMeta e.2 in Val (results ++ [o]))
         (rangeMap _ trafficSettings) results.

(** The two loops that turn the accumulated maps into the result list. *)
Definition emit (g : GenState) : Res (list (Object Any)) :=
  let* results := sidecarObjects (sidecars g) [] in
  trafficSettingObjects (trafficSettings g) (trafficMeta g) results.

(** [graph] is a pointer: [buildGraph] may have returned nil. *)
Definition generateSettings (graph : option Graph) : M (list (Object Any)) :=
  let! graph := lift (deref graph) in
  let! g := processCalls (graph_Calls graph) initState in
  lift (emit g).

(** *** buildGraph *)

Definition servicesByTopKey (services : list Service) : gmap string Service :=
  foldl (λ m svc,
           foldl (λ m metric, <[AggregationKey metric := svc]> m) m (Metrics svc))
        ∅ services.

Definition idToTopKey (nodes : list Node) : gmap string string :=
  foldl (λ m node, <[node_ID node := node_AggregationKey node]> m) ∅ nodes.

Definition servicesByID (byTopKey : gmap string Service)
    (idToKey : gmap string string) : gmap string Service :=
  foldl (λ m (e : string * string),
           match byTopKey !! e.2 with
           | Some svc => <[e.1 := svc]> m
           | None => m
           end)
        ∅ (rangeMap _ idToKey).

(** The loop over [top.Calls]; [calls] is [graph.Calls] so far.  The
    result is the returned pointer: [None] is [return nil]. *)
Fixpoint buildGraph_loop (byID : gmap string Service) (edges : list TopCall)
    (calls : list Call) : M (option Graph) :=
  match edges with
  | [] => ret (Some {| graph_Calls := calls |})
  | traffic :: edges' =>
      match byID !! call_Source traffic with
      | None => buildGraph_loop byID edges' calls
      | Some source =>
          match byID !! call_Target traffic with
          | None => buildGraph_loop byID edges' calls
          | Some target =>
              let! srcNamespaces := lift (parseNamespace source) in
              let! targetNamespaces := lift (parseNamespace target) in
              λ w,
                match callLookupTrafficGroup source w with
                | (inl err, w') => (Val None, w')
                | (inr tg, w') =>
                    buildGraph_loop byID edges'
                      (calls ++ [ {| SourceService := source;
                                     SourceNamespaces := srcNamespaces;
                                     SourceTrafficGroup := tg;
                                     TargetService := target;
                                     TargetNamespaces := targetNamespaces |} ])
                      w'
                end
          end
      end
  end.

Definition buildGraph (top : TopologyResponse) (services : list Service)
    : M (option Graph) :=
  let byID := servicesByID (servicesByTopKey services) (idToTopKey (Nodes top)) in
  buildGraph_loop byID (Calls top) [].

(** The part of [RunE] between the two fetches and the printing. *)
Definition runPipeline (top : TopologyResponse) (services : list Service)
    : M (list (Object Any)) :=
  let! callers := buildGraph top services in
  generateSettings callers.


(** *** The generation loop as a sequence of elementary updates

    Every change that [generateSettings] makes to the seen map, to the
    Sidecars and to the TrafficSettings is one of the five updates below.
    [mode] says which branch of the switch performs it and, for the
    bridged branch, for which group FQN; [allowed ns d] holds of the
    pairs of a source and a destination namespace the calls at hand can
    merge. *)

Definition Acc : Type :=
  gmap string (list string) * gmap string Sidecar * gmap string TrafficSetting.

Definition acc (g : GenState) : Acc := (seenNs g, sidecars g, trafficSettings g).

Inductive Branch := Direct | Bridged (fqn : string).

(** What [ensureTrafficSetting] may store for a group: the synthesised
    default, or a setting the collaborator returned for it. *)
Definition provided (fqn : string) (t : TrafficSetting) : Prop :=
  (∃ meta, t = newTrafficSetting (FromMeta meta))
  ∨ (∃ st st', GetTrafficSettings fqn st = (inr (Some t), st')).

Inductive step (mode : Branch) (allowed : string → string → Prop) : Acc → Acc → Prop :=
| step_ensureSeen ns seen scs ts :
    step mode allowed (seen, scs, ts) (ensureSeen ns seen, scs, ts)
| step_ensureSidecar ns annotations seen scs ts :
    mode = Direct →
    step mode allowed (seen, scs, ts) (seen, ensureSidecar ns annotations scs, ts)
| step_directDest ns d seen scs ts seen' scs' :
    mode = Direct → allowed ns d →
    directDest ns d (seen, scs) = Val (seen', scs') →
    step mode allowed (seen, scs, ts) (seen', scs', ts)
| step_newSetting fqn t seen scs ts :
    mode = Bridged fqn → ts !! fqn = None → provided fqn t →
    step mode allowed (seen, scs, ts) (seen, scs, <[fqn := t]> ts)
| step_bridgedDest fqn ns d seen scs ts seen' ts' :
    mode = Bridged fqn → allowed ns d →
    bridgedDest fqn ns d (seen, ts) = Val (seen', ts') →
    step mode allowed (seen, scs, ts) (seen', scs, ts').

Definition anystep (allowed : string → string → Prop) (a a' : Acc) : Prop :=
  ∃ mode, step mode allowed a a'.

(** The pairs a list of calls can merge: those of its governed calls. *)
Definition pairOf (calls : list Call) (ns d : string) : Prop :=
  ∃ call tg, call ∈ calls ∧ SourceTrafficGroup call = Some tg
             ∧ ns ∈ SourceNamespaces call ∧ d ∈ TargetNamespaces call.

(** *** Invariants of the elementary updates *)

Definition seenIn (a : Acc) (s d : string) : Prop := d ∈ seenOf a.1.1 s.



(** While a "DIRECT" call is processed: whatever it has marked seen for
    [s] is in the Sidecar of [s]. *)
Definition DirectMerged (s d : string) (a : Acc) : Prop :=
  match a.1.2 !! s with
  | Some sc => d ∈ seenOf a.1.1 s → hostOf d ∈ sidecarHosts sc
  | None => d ∉ seenOf a.1.1 s
  end.



(** *** Reading the service index off the input lists *)

(** The services that expose an aggregation key, in list order. *)
Definition exposing (key : string) (services : list Service) : list Service :=
  filter (λ svc, key ∈ AggregationKey <$> Metrics svc) services.

(** The topology nodes that carry an identifier, in list order. *)
Definition nodesWithID (id : string) (nodes : list Node) : list Node :=
  filter (λ node, node_ID node = id) nodes.

(** The two services a call edge resolves to, when both ends resolve. *)
Definition resolveEdge (byID : gmap string Service) (e : TopCall)
    : option (Service * Service) :=
  match byID !! call_Source e, byID !! call_Target e with
  | Some source, Some target => Some (source, target)
  | _, _ => None
  end.

(** Since the world [w0], the requests issued are fetches, one for each
    group that has a TrafficSetting in [ts] and no other. *)
Definition FetchedOnce (w0 : World) (ts : gmap string TrafficSetting) (w : World)
    : Prop :=
  ∃ fqns, trace w = trace w0 ++ (EvGetTrafficSettings <$> fqns)
          ∧ NoDup fqns
          ∧ ∀ f, f ∈ fqns ↔ is_Some (ts !! f).

(** *** Shape and growth of the accumulated objects *)

(** The Sidecar stored for namespace [ns]: the fixed name, that namespace,
    no label, and one egress listener whose hosts begin with the base hosts. *)
Definition SidecarShape (ns : string) (sc : Sidecar) : Prop :=
  k8s_Name (sc_ObjectMeta sc) = "reachability-sidecar"
  ∧ k8s_Namespace (sc_ObjectMeta sc) = ns
  ∧ k8s_Labels (sc_ObjectMeta sc) = ∅
  ∧ ∃ merged, Egress (sc_Spec sc) = [ {| Hosts := baseHosts ++ merged |} ].

Definition Shaped (scs : gmap string Sidecar) : Prop :=
  ∀ ns sc, scs !! ns = Some sc → SidecarShape ns sc.

(** [sc'] is [sc] with hosts appended to its first listener. *)
Definition extendsSidecar (sc sc' : Sidecar) : Prop :=
  sc_ObjectMeta sc' = sc_ObjectMeta sc
  ∧ tail (Egress (sc_Spec sc')) = tail (Egress (sc_Spec sc))
  ∧ ∃ more, sidecarHosts sc' = sidecarHosts sc ++ more.

(** [t'] is [t] with hosts appended to its reachability list. *)
Definition extendsSetting (t t' : TrafficSetting) : Prop :=
  Fqn t' = Fqn t
  ∧ Mode <$> Reachability t' = Mode <$> Reachability t
  ∧ ∃ more, GetHosts (Reachability t') = GetHosts (Reachability t) ++ more.

(** Every object of [a] is still in [a'], extended. *)
Definition Grows (a a' : Acc) : Prop :=
  (∀ ns sc, a.1.2 !! ns = Some sc →
     ∃ sc', a'.1.2 !! ns = Some sc' ∧ extendsSidecar sc sc')
  ∧ (∀ fqn t, a.2 !! fqn = Some t →
       ∃ t', a'.2 !! fqn = Some t' ∧ extendsSetting t t').

(** Every host of [a] is a base host, a host of a setting the collaborator
    returned, or the host of a destination of an allowed pair. *)
Definition Justified (allowed : string → string → Prop) (a : Acc) : Prop :=
  (∀ s h, h ∈ egressHosts a.1.2 s →
     h ∈ baseHosts ∨ ∃ d, h = hostOf d ∧ allowed s d)
  ∧ (∀ fqn h, h ∈ reachabilityHosts a.2 fqn →
       h ∈ baseHosts
       ∨ (∃ st st' t, GetTrafficSettings fqn st = (inr (Some t), st')
                      ∧ h ∈ GetHosts (Reachability t))
       ∨ ∃ s d, h = hostOf d ∧ allowed s d).

(** *** Which calls create which objects *)

(** A Call creates a Sidecar for [ns]: it is governed by a group in
    "DIRECT" mode and [ns] is one of its source namespaces. *)
Definition makesSidecar (ns : string) (call : Call) : Prop :=
  ∃ tg, SourceTrafficGroup call = Some tg ∧ ConfigMode tg = "DIRECT"
        ∧ ns ∈ SourceNamespaces call.

(** A Call is governed by the group [fqn] in a mode other than "DIRECT". *)
Definition bridgedBy (fqn : string) (call : Call) : Prop :=
  ∃ tg, SourceTrafficGroup call = Some tg ∧ ConfigMode tg ≠ "DIRECT"
        ∧ tg_FQN tg = fqn.

(** A Call creates a TrafficSetting for the group [fqn]: it is governed by
    that group in another mode and has a source namespace. *)
Definition makesSetting (fqn : string) (call : Call) : Prop :=
  bridgedBy fqn call ∧ SourceNamespaces call ≠ [].

(** *** Reading the result list *)

(** The namespaces of the objects of the Sidecar kind, in result order. *)
Definition sidecarNamespaces (results : list (Object Any)) : list string :=
  omap (λ o, if decide (Kind o = IstioSidecarKind)
             then Namespace <$> Metadata o else None) results.

(** * Properties *)

(** ** Strings *)

Lemma Split_app (a b : string) :
  no_slash a = true → Split (String.app a (String slash b)) = a :: Split b.
Proof.
  induction a as [|c a IH]; simpl; intros Ha.
  - reflexivity.
  - apply andb_prop in Ha as [Hc Ha].
    apply negb_true_iff in Hc. rewrite Hc, (IH Ha). reflexivity.
Qed.

Lemma Split_no_slash (a : string) : no_slash a = true → Split a = [a].
Proof.
  induction a as [|c a IH]; simpl; intros Ha.
  - reflexivity.
  - apply andb_prop in Ha as [Hc Ha].
    apply negb_true_iff in Hc. rewrite Hc, (IH Ha). reflexivity.
Qed.

Lemma groupFQN_Split (O T W G : string) :
  no_slash O = true → no_slash T = true → no_slash W = true → no_slash G = true →
  Split (groupFQN O T W G) =
    ["organizations"; O; "tenants"; T; "workspaces"; W; "trafficgroups"; G].
Proof.
  intros HO HT HW HG. unfold groupFQN.
  change (String.app "organizations/" ?X)
    with (String.app "organizations" (String slash X)).
  rewrite Split_app by reflexivity.
  change (String.app "/tenants/" ?X)
    with (String slash (String.app "tenants" (String slash X))).
  rewrite Split_app by assumption. rewrite Split_app by reflexivity.
  change (String.app "/workspaces/" ?X)
    with (String slash (String.app "workspaces" (String slash X))).
  rewrite Split_app by assumption. rewrite Split_app by reflexivity.
  change (String.app "/trafficgroups/" ?X)
    with (String slash (String.app "trafficgroups" (String slash X))).
  rewrite Split_app by assumption. rewrite Split_app by reflexivity.
  rewrite Split_no_slash by assumption. reflexivity.
Qed.



(** ** Results and loops *)

Lemma res_bind_Val {A B} (m : Res A) (k : A → Res B) (b : B) :
  res_bind m k = Val b → ∃ a, m = Val a ∧ k a = Val b.
Proof. destruct m; simpl; intros; try discriminate; eauto. Qed.

Lemma forRes_app {A S} (body : A → S → Res S) (l1 l2 : list A) (s : S) :
  forRes body (l1 ++ l2) s = let* s' := forRes body l1 s in forRes body l2 s'.
Proof.
  revert s. induction l1 as [|x l1 IH]; intros s; simpl; [reflexivity|].
  destruct (body x s); simpl; auto.
Qed.

(** A property kept by every successful iteration is kept by the loop. *)
Lemma forRes_inv {A S} (I : S → Prop) (body : A → S → Res S) (l : list A) :
  (∀ x s s', x ∈ l → I s → body x s = Val s' → I s') →
  ∀ s s', I s → forRes body l s = Val s' → I s'.
Proof.
  induction l as [|x l IH]; intros Hbody s s' Hs H; simpl in H.
  - congruence.
  - apply res_bind_Val in H as (s1 & H1 & H2).
    eapply IH; [| |exact H2].
    + intros y t t' Hy. apply Hbody. by right.
    + eapply Hbody; [by left|exact Hs|exact H1].
Qed.

(** ** The FQN decomposer on well-formed group FQNs *)

Lemma bridgedModeMeta_groupFQN (O T W G : string) :
  no_slash O = true → no_slash T = true → no_slash W = true → no_slash G = true →
  bridgedModeMeta (groupFQN O T W G) =
    Val {| Name := ""; Namespace := ""; Organization := O; Tenant := T;
           Workspace := W; Group := G; Labels := ∅; Annotations := ∅ |}.
Proof.
  intros HO HT HW HG. unfold bridgedModeMeta.
  rewrite groupFQN_Split by assumption. reflexivity.
Qed.

Lemma directModeAnnotations_groupFQN (O T W G : string) :
  no_slash O = true → no_slash T = true → no_slash W = true → no_slash G = true →
  directModeAnnotations (groupFQN O T W G) =
    Val (<["tsb.tetrate.io/trafficGroup" := G]>
          (<["tsb.tetrate.io/workspace" := W]>
            (<["tsb.tetrate.io/tenant" := T]>
              (<["tsb.tetrate.io/organization" := O]> ∅)))).
Proof.
  intros HO HT HW HG. unfold directModeAnnotations.
  rewrite groupFQN_Split by assumption. reflexivity.
Qed.

Lemma succeeds_Val {A W} (r : Res A * W) :
  succeeds r = true → ∃ a w, r = (Val a, w).
Proof. destruct r as [[a|e|p] w]; [by eexists _, _|discriminate..]. Qed.

(** ** The client monad *)

Lemma bind_Val {A B} (m : M A) (k : A → M B) (w w' : World) (b : B) :
  bind m k w = (Val b, w') →
  ∃ a w1, m w = (Val a, w1) ∧ k a w1 = (Val b, w').
Proof.
  unfold bind. destruct (m w) as [[a|e|p] w1]; intros H; try discriminate; eauto.
Qed.

Lemma lift_Val {A} (r : Res A) (w w' : World) (a : A) :
  lift r w = (Val a, w') → r = Val a ∧ w' = w.
Proof. unfold lift. intros [= -> ->]. done. Qed.

Lemma ret_Val {A} (a a' : A) (w w' : World) :
  ret a w = (Val a', w') → a' = a ∧ w' = w.
Proof. unfold ret. intros [= -> ->]. done. Qed.

Lemma forM_app {A S} (body : A → S → M S) (l1 l2 : list A) (s : S) (w : World) :
  forM body (l1 ++ l2) s w = bind (forM body l1 s) (forM body l2) w.
Proof.
  revert s w. induction l1 as [|x l1 IH]; intros s w; simpl.
  - reflexivity.
  - unfold bind. destruct (body x s w) as [[s1|e|p] w1] eqn:Hx; auto.
Qed.

Lemma forM_inv {A S} (I : S → Prop) (body : A → S → M S) (l : list A) :
  (∀ x s w s' w', x ∈ l → I s → body x s w = (Val s', w') → I s') →
  ∀ s w s' w', I s → forM body l s w = (Val s', w') → I s'.
Proof.
  induction l as [|x l IH]; intros Hbody s w s' w' Hs H; simpl in H.
  - apply ret_Val in H as [-> _]. exact Hs.
  - apply bind_Val in H as (s1 & w1 & H1 & H2).
    eapply IH; [| |exact H2].
    + intros y t u t' u' Hy. apply Hbody. by right.
    + eapply Hbody; [by left|exact Hs|exact H1].
Qed.

(** ** The service index *)

Lemma servicesByID_fold (byTopKey : gmap string Service)
    (l : list (string * string)) (acc : gmap string Service) (id : string) :
  NoDup l.*1 →
  foldl (λ m (e : string * string),
           match byTopKey !! e.2 with
           | Some svc => <[e.1 := svc]> m
           | None => m
           end) acc l !! id
  = match (list_to_map l : gmap string string) !! id with
    | Some key =>
        match byTopKey !! key with
        | Some svc => Some svc
        | None => acc !! id
        end
    | None => acc !! id
    end.
Proof.
  revert acc. induction l as [|[k v] l IH]; intros acc Hnd; simpl.
  - by rewrite lookup_empty.
  - apply NoDup_cons in Hnd as [Hk Hnd]. rewrite (IH _ Hnd).
    destruct (decide (k = id)) as [->|Hne].
    + rewrite lookup_insert_eq.
      rewrite (not_elem_of_list_to_map_1 _ _ Hk).
      destruct (byTopKey !! v); [by rewrite lookup_insert_eq|done].
    + rewrite lookup_insert_ne by done.
      destruct (byTopKey !! v); [by rewrite lookup_insert_ne|done].
Qed.

(** The composed index sends a node identifier to the service that owns
    the node's aggregation key, whatever the order of the map walk. *)
Lemma servicesByID_lookup (byTopKey : gmap string Service)
    (idToKey : gmap string string) (id : string) :
  servicesByID byTopKey idToKey !! id
  = match idToKey !! id with
    | Some key => byTopKey !! key
    | None => None
    end.
Proof.
  unfold servicesByID.
  assert (Hnd : NoDup (rangeMap _ idToKey).*1).
  { rewrite (rangeMap_perm _ idToKey). apply NoDup_fst_map_to_list. }
  rewrite servicesByID_fold by exact Hnd.
  rewrite (list_to_map_proper _ (map_to_list idToKey) Hnd (rangeMap_perm _ idToKey)).
  rewrite list_to_map_to_list, lookup_empty.
  destruct (idToKey !! id) as [key|]; [|done]. by destruct (byTopKey !! key).
Qed.

(** ** The call graph builder *)

Lemma buildGraph_loop_skip (byID : gmap string Service) (e : TopCall)
    (edges : list TopCall) (calls : list Call) (w : World) :
  byID !! call_Source e = None ∨ byID !! call_Target e = None →
  buildGraph_loop byID (e :: edges) calls w = buildGraph_loop byID edges calls w.
Proof.
  intros [H|H]; simpl; rewrite H; [done|].
  by destruct (byID !! call_Source e).
Qed.

Lemma buildGraph_loop_tail (byID : gmap string Service) (pre l1 l2 : list TopCall) :
  (∀ calls w, buildGraph_loop byID l1 calls w = buildGraph_loop byID l2 calls w) →
  ∀ calls w,
    buildGraph_loop byID (pre ++ l1) calls w = buildGraph_loop byID (pre ++ l2) calls w.
Proof.
  intros Htl. induction pre as [|t pre IH]; intros calls w; simpl; [apply Htl|].
  destruct (byID !! call_Source t) as [source|]; [|apply IH].
  destruct (byID !! call_Target t) as [target|]; [|apply IH].
  unfold bind, lift.
  destruct (parseNamespace source); [|done..].
  destruct (parseNamespace target); [|done..].
  destruct (callLookupTrafficGroup source w) as [[err|tg] w1]; [done|apply IH].
Qed.

(** Edges after a prefix that was built without abort continue from the
    Calls and the client state the prefix left. *)
Lemma buildGraph_loop_app (byID : gmap string Service) (pre rest : list TopCall)
    (calls : list Call) (w w1 : World) (g1 : Graph) :
  buildGraph_loop byID pre calls w = (Val (Some g1), w1) →
  buildGraph_loop byID (pre ++ rest) calls w
  = buildGraph_loop byID rest (graph_Calls g1) w1.
Proof.
  revert calls w. induction pre as [|t pre IH]; intros calls w; simpl.
  - intros H. apply ret_Val in H as [[= ->] ->]. reflexivity.
  - destruct (byID !! call_Source t) as [source|]; [|apply IH].
    destruct (byID !! call_Target t) as [target|]; [|apply IH].
    unfold bind, lift.
    destruct (parseNamespace source); [|done..].
    destruct (parseNamespace target); [|done..].
    destruct (callLookupTrafficGroup source w) as [[err|tg] w2]; [done|apply IH].
Qed.

(** The Calls added by the loop are the resolved edges, in order, with the
    namespaces parsed from their services and one lookup each. *)
Lemma buildGraph_loop_shape (byID : gmap string Service) (edges : list TopCall) :
  ∀ calls w g w',
    buildGraph_loop byID edges calls w = (Val (Some g), w') →
    ∃ new,
      graph_Calls g = calls ++ new
      ∧ (λ c, (SourceService c, TargetService c)) <$> new = omap (resolveEdge byID) edges
      ∧ trace w' = trace w ++ ((λ c, EvLookupTrafficGroup (SourceService c)) <$> new)
      ∧ Forall (λ c, parseNamespace (SourceService c) = Val (SourceNamespaces c)
                     ∧ parseNamespace (TargetService c) = Val (TargetNamespaces c)) new.
Proof.
  induction edges as [|e edges IH]; intros calls w g w' H; simpl in H.
  - apply ret_Val in H as [[= ->] ->]. exists []. simpl.
    by rewrite !app_nil_r.
  - unfold resolveEdge at 1. cbn [omap list_omap]. fold (resolveEdge byID).
    destruct (byID !! call_Source e) as [source|] eqn:Hs; [|by apply IH].
    destruct (byID !! call_Target e) as [target|] eqn:Ht; [|by apply IH].
    unfold bind, lift in H.
    destruct (parseNamespace source) as [srcNs|?|?] eqn:Hsn; [|done..].
    destruct (parseNamespace target) as [tgtNs|?|?] eqn:Htn; [|done..].
    unfold callLookupTrafficGroup in H.
    destruct (LookupTrafficGroup source (client w)) as [[err|tg] st1]; [done|].
    apply IH in H as (new & Hg & Hends & Htr & Hns).
    eexists (_ :: new). rewrite Hg, <- app_assoc. split; [done|].
    cbn [fmap list_fmap]. simpl in Htr. rewrite <- app_assoc in Htr.
    split; [by rewrite <- Hends|]. split; [exact Htr|].
    constructor; [by simpl|done].
Qed.

(** C8 (unresolved-edge skip).  A call edge whose source or target node
    identifier is absent from the composed service index contributes no
    Call and does not abort the build: the build of a topology that
    contains the edge equals, in result and in collaborator calls, the
    build of the topology without it; on its own the edge yields the empty
    graph and no lookup.  The remaining edges are still processed: when
    the build returns a graph, its Calls are exactly the resolved edges
    among the other edges, before and after the skipped one, in order and
    with one lookup each; and an edge that follows the skipped one
    directly, resolves at both ends and is looked up without error adds
    its Call to those of the edges before the skipped one. *)
Theorem C8_unresolved_edge_skipped (nodes : list Node) (pre post : list TopCall)
    (e : TopCall) (services : list Service) (w : World) :
  servicesByID (servicesByTopKey services) (idToTopKey nodes) !! call_Source e = None
  ∨ servicesByID (servicesByTopKey services) (idToTopKey nodes) !! call_Target e = None →
  buildGraph {| Nodes := nodes; Calls := pre ++ e :: post |} services w
  = buildGraph {| Nodes := nodes; Calls := pre ++ post |} services w
  ∧ buildGraph {| Nodes := nodes; Calls := [e] |} services w
    = (Val (Some {| graph_Calls := [] |}), w)
  ∧ (∀ g w',
       buildGraph {| Nodes := nodes; Calls := pre ++ e :: post |} services w
       = (Val (Some g), w') →
       (λ c, (SourceService c, TargetService c)) <$> graph_Calls g
       = omap (resolveEdge (servicesByID (servicesByTopKey services) (idToTopKey nodes)))
              (pre ++ post)
       ∧ trace w'
         = trace w ++ ((λ c, EvLookupTrafficGroup (SourceService c)) <$> graph_Calls g))
  ∧ (∀ g1 w1 e' source target srcNamespaces targetNamespaces tg st',
       buildGraph {| Nodes := nodes; Calls := pre |} services w = (Val (Some g1), w1) →
       servicesByID (servicesByTopKey services) (idToTopKey nodes) !! call_Source e'
         = Some source →
       servicesByID (servicesByTopKey services) (idToTopKey nodes) !! call_Target e'
         = Some target →
       parseNamespace source = Val srcNamespaces →
       parseNamespace target = Val targetNamespaces →
       LookupTrafficGroup source (client w1) = (inr tg, st') →
       buildGraph {| Nodes := nodes; Calls := pre ++ e :: [e'] |} services w
       = (Val (Some {| graph_Calls :=
                         graph_Calls g1 ++
                         [ {| SourceService := source; SourceNamespaces := srcNamespaces;
                              SourceTrafficGroup := tg; TargetService := target;
                              TargetNamespaces := targetNamespaces |} ] |}),
          {| client := st'; trace := trace w1 ++ [EvLookupTrafficGroup source] |})).
Proof.
  intros He. unfold buildGraph; simpl Nodes; simpl Calls.
  assert (∀ rest calls w0,
            buildGraph_loop (servicesByID (servicesByTopKey services) (idToTopKey nodes))
              (pre ++ e :: rest) calls w0
            = buildGraph_loop (servicesByID (servicesByTopKey services) (idToTopKey nodes))
                (pre ++ rest) calls w0) as Hskip.
  { intros rest. apply buildGraph_loop_tail. intros calls w0.
    by apply buildGraph_loop_skip. }
  split; [apply Hskip|]. split; [by rewrite buildGraph_loop_skip|]. split.
  - intros g w' H. rewrite Hskip in H.
    apply buildGraph_loop_shape in H as (new & Hg & Hends & Htr & _).
    simpl in Hg. by rewrite Hg.
  - intros g1 w1 e' source target srcNamespaces targetNamespaces tg st'
      Hpre Hs Ht Hsn Htn Hlk.
    rewrite Hskip, (buildGraph_loop_app _ _ _ _ _ _ _ Hpre). simpl.
    rewrite Hs, Ht. unfold bind, lift. rewrite Hsn, Htn.
    unfold callLookupTrafficGroup. rewrite Hlk. reflexivity.
Qed.

(** C1 (traffic-group lookup failure), as the code has it.  When the
    edges before [e] were built without abort, both ends of [e] resolve,
    their namespaces parse, and the lookup for the source service of [e]
    returns an error, then [buildGraph] stops right after that lookup (no
    later edge is looked at, whatever [post] is), drops the Calls
    accumulated so far and returns the nil graph.  The error value is not
    part of the result: the failure does not propagate to the caller as an
    error, which is where the code departs from C1. *)
Theorem C1_lookup_error_returns_nil (nodes : list Node) (pre post : list TopCall)
    (e : TopCall) (services : list Service) (w w1 : World) (g1 : Graph)
    (source target : Service) (srcNamespaces targetNamespaces : list string)
    (err : error) (st' : St) :
  buildGraph {| Nodes := nodes; Calls := pre |} services w = (Val (Some g1), w1) →
  servicesByID (servicesByTopKey services) (idToTopKey nodes) !! call_Source e
    = Some source →
  servicesByID (servicesByTopKey services) (idToTopKey nodes) !! call_Target e
    = Some target →
  parseNamespace source = Val srcNamespaces →
  parseNamespace target = Val targetNamespaces →
  LookupTrafficGroup source (client w1) = (inl err, st') →
  buildGraph {| Nodes := nodes; Calls := pre ++ e :: post |} services w
  = (Val None,
     {| client := st'; trace := trace w1 ++ [EvLookupTrafficGroup source] |}).
Proof.
  unfold buildGraph; simpl Nodes; simpl Calls.
  intros Hpre Hs Ht Hsn Htn Hlk.
  rewrite (buildGraph_loop_app _ _ _ _ _ _ _ Hpre). simpl.
  rewrite Hs, Ht. unfold bind, lift. rewrite Hsn, Htn.
  unfold callLookupTrafficGroup. rewrite Hlk. reflexivity.
Qed.

(** ** Emission of the output objects *)

Lemma sidecarObjects_kinds (l : list (string * Sidecar)) (acc r : list (Object Any)) :
  forRes (λ (e : string * Sidecar) results,
            let* o := sidecarObject e.2 in Val (results ++ [o])) l acc = Val r →
  ∃ new, r = acc ++ new ∧ Forall (λ o, Kind o = IstioSidecarKind) new
         ∧ length new = length l.
Proof.
  revert acc. induction l as [|[k s] l IH]; intros acc H; simpl in H.
  - injection H as <-. exists []. by rewrite app_nil_r.
  - apply res_bind_Val in H as (acc1 & H1 & H2).
    apply res_bind_Val in H1 as (o & Ho & [= <-]).
    apply IH in H2 as (new & -> & Hnew & Hlen).
    exists (o :: new). rewrite <- app_assoc. split; [done|]. split; [|simpl; lia].
    constructor; [|done].
    unfold sidecarObject in Ho. apply res_bind_Val in Ho as (any & _ & [= <-]). done.
Qed.

Lemma trafficSettingObjects_kinds (meta : gmap string ObjectMeta)
    (l : list (string * TrafficSetting)) (acc r : list (Object Any)) :
  forRes (λ (e : string * TrafficSetting) results,
            let* o := trafficSettingObject meta e.2 in Val (results ++ [o])) l acc
    = Val r →
  ∃ new, r = acc ++ new ∧ Forall (λ o, Kind o = TrafficSettingKind) new
         ∧ length new = length l.
Proof.
  revert acc. induction l as [|[k s] l IH]; intros acc H; simpl in H.
  - injection H as <-. exists []. by rewrite app_nil_r.
  - apply res_bind_Val in H as (acc1 & H1 & H2).
    apply res_bind_Val in H1 as (o & Ho & [= <-]).
    apply IH in H2 as (new & -> & Hnew & Hlen).
    exists (o :: new). rewrite <- app_assoc. split; [done|]. split; [|simpl; lia].
    constructor; [|done].
    unfold trafficSettingObject in Ho.
    apply res_bind_Val in Ho as (any & _ & [= <-]). done.
Qed.

Lemma emit_shape (g : GenState) (results : list (Object Any)) :
  emit g = Val results →
  ∃ scs tss, results = scs ++ tss
    ∧ Forall (λ o, Kind o = IstioSidecarKind) scs
    ∧ Forall (λ o, Kind o = TrafficSettingKind) tss
    ∧ length scs = length (rangeMap _ (sidecars g))
    ∧ length tss = length (rangeMap _ (trafficSettings g)).
Proof.
  unfold emit, sidecarObjects, trafficSettingObjects. intros H.
  apply res_bind_Val in H as (r1 & H1 & H2).
  apply sidecarObjects_kinds in H1 as (scs & -> & Hscs & Hl1).
  apply trafficSettingObjects_kinds in H2 as (tss & -> & Htss & Hl2).
  by exists scs, tss.
Qed.

(** One object per accumulated Sidecar and per accumulated TrafficSetting,
    whatever the order of the map walks. *)
Lemma emit_length (g : GenState) (results : list (Object Any)) :
  emit g = Val results →
  length results = size (sidecars g) + size (trafficSettings g).
Proof.
  intros H. apply emit_shape in H as (scs & tss & -> & _ & _ & Hl1 & Hl2).
  rewrite length_app, Hl1, Hl2.
  by rewrite (rangeMap_perm _ (sidecars g)), (rangeMap_perm _ (trafficSettings g)),
    !length_map_to_list.
Qed.

Lemma generateSettings_Val (graph : option Graph) (w w' : World)
    (results : list (Object Any)) :
  generateSettings graph w = (Val results, w') →
  ∃ gr g, graph = Some gr
    ∧ processCalls (graph_Calls gr) initState w = (Val g, w')
    ∧ emit g = Val results.
Proof.
  unfold generateSettings. intros H.
  apply bind_Val in H as (gr & w1 & H1 & H).
  apply lift_Val in H1 as [H1 ->].
  apply bind_Val in H as (g & w2 & H2 & H).
  apply lift_Val in H as [H ->].
  destruct graph as [gr'|]; [|discriminate]. injection H1 as ->.
  by exists gr, g.
Qed.

(** C9 (Sidecars first).  The list returned by [generateSettings] is the
    Sidecar objects followed by the TrafficSetting objects: an object of
    the Sidecar kind always stands at a smaller index than an object of
    the TrafficSetting kind, for every graph and thus for every order of
    its Calls. *)
Theorem C9_sidecars_before_traffic_settings (graph : option Graph) (w w' : World)
    (results : list (Object Any)) :
  generateSettings graph w = (Val results, w') →
  (∃ scs tss, results = scs ++ tss
     ∧ Forall (λ o, Kind o = IstioSidecarKind) scs
     ∧ Forall (λ o, Kind o = TrafficSettingKind) tss)
  ∧ ∀ i j oi oj,
      results !! i = Some oi → results !! j = Some oj →
      Kind oi = IstioSidecarKind → Kind oj = TrafficSettingKind → i < j.
Proof.
  intros H. apply generateSettings_Val in H as (gr & g & _ & _ & H).
  apply emit_shape in H as (scs & tss & -> & Hscs & Htss & _).
  split; [by exists scs, tss|].
  intros i j oi oj Hi Hj Hki Hkj.
  assert (i < length scs) as Hlt.
  { destruct (decide (i < length scs)) as [|Hge]; [done|].
    rewrite lookup_app_r in Hi by lia.
    apply list_elem_of_lookup_2 in Hi.
    rewrite Forall_forall in Htss. rewrite (Htss _ Hi) in Hki. discriminate. }
  assert (length scs ≤ j) as Hle.
  { destruct (decide (length scs ≤ j)) as [|Hlt']; [done|].
    rewrite lookup_app_l in Hj by lia.
    apply list_elem_of_lookup_2 in Hj.
    rewrite Forall_forall in Hscs. rewrite (Hscs _ Hj) in Hkj. discriminate. }
  lia.
Qed.

(** ** One call of the generation loop *)

(** C10 (no source namespace).  A Call with a traffic group and an empty
    list of source namespaces issues no request to the collaborator, in
    either mode and whatever the outcome; whenever its processing
    returns, the Sidecars, the TrafficSettings and the seen map are the
    ones it started from; and it does return when the group FQN
    decomposes. *)
Theorem C10_no_source_namespace (call : Call) (tg : TrafficGroup)
    (g : GenState) (w : World) :
  SourceTrafficGroup call = Some tg →
  SourceNamespaces call = [] →
  (processCall call g w).2 = w
  ∧ (∀ g' w', processCall call g w = (Val g', w') →
       sidecars g' = sidecars g ∧ trafficSettings g' = trafficSettings g
       ∧ seenNs g' = seenNs g)
  ∧ (∀ annotations meta,
       directModeAnnotations (tg_FQN tg) = Val annotations →
       bridgedModeMeta (tg_FQN tg) = Val meta →
       ∃ g', processCall call g w = (Val g', w)).
Proof.
  intros Htg Hsrc. unfold processCall. rewrite Htg.
  unfold generateDirectModeSidecars, generateBridgedModeTrafficSettings.
  rewrite Hsrc. simpl. unfold bind, lift, ret.
  destruct (String.eqb (ConfigMode tg) "DIRECT").
  - destruct (directModeAnnotations (tg_FQN tg)) as [a|e|p]; simpl.
    + split; [done|]. split; [|by eauto]. by intros g' w' [= <- <-].
    + split; [done|]. split; [done|]. intros ? ? [=].
    + split; [done|]. split; [done|]. intros ? ? [=].
  - destruct (bridgedModeMeta (tg_FQN tg)) as [m|e|p]; simpl.
    + split; [done|]. split; [|by eauto]. by intros g' w' [= <- <-].
    + split; [done|]. split; [done|]. intros ? ? ? [=].
    + split; [done|]. split; [done|]. intros ? ? ? [=].
Qed.

Lemma processCall_frame (call : Call) (tg : TrafficGroup)
    (g g' : GenState) (w w' : World) :
  SourceTrafficGroup call = Some tg →
  processCall call g w = (Val g', w') →
  if String.eqb (ConfigMode tg) "DIRECT" then
    trafficSettings g' = trafficSettings g ∧ trafficMeta g' = trafficMeta g
    ∧ w' = w
  else sidecars g' = sidecars g.
Proof.
  intros Htg H. unfold processCall in H. rewrite Htg in H.
  destruct (String.eqb (ConfigMode tg) "DIRECT").
  - apply bind_Val in H as (a & w1 & H1 & H). apply lift_Val in H1 as [_ ->].
    apply bind_Val in H as (st & w2 & H2 & H). apply lift_Val in H2 as [_ ->].
    apply ret_Val in H as [-> ->]. simpl. done.
  - apply bind_Val in H as (m & w1 & H1 & H).
    apply bind_Val in H as (st & w2 & H2 & H).
    apply ret_Val in H as [-> ->]. simpl. done.
Qed.

(** C5 (mode dispatch).  Processing a Call whose group is in "DIRECT"
    mode leaves the TrafficSettings and their metadata untouched and
    talks to no collaborator, so the TrafficSetting objects emitted
    afterwards are the ones that would have been emitted before;
    processing a Call in any other mode leaves the Sidecars untouched,
    and so the Sidecar objects emitted. *)
Theorem C5_mode_dispatch (call : Call) (tg : TrafficGroup)
    (g g' : GenState) (w w' : World) :
  SourceTrafficGroup call = Some tg →
  processCall call g w = (Val g', w') →
  if String.eqb (ConfigMode tg) "DIRECT" then
    trafficSettings g' = trafficSettings g ∧ trafficMeta g' = trafficMeta g
    ∧ w' = w
    ∧ ∀ acc, trafficSettingObjects (trafficSettings g') (trafficMeta g') acc
             = trafficSettingObjects (trafficSettings g) (trafficMeta g) acc
  else
    sidecars g' = sidecars g
    ∧ ∀ acc, sidecarObjects (sidecars g') acc = sidecarObjects (sidecars g) acc.
Proof.
  intros Htg H. pose proof (processCall_frame _ _ _ _ _ _ Htg H) as Hf.
  destruct (String.eqb (ConfigMode tg) "DIRECT").
  - destruct Hf as (-> & -> & ->). done.
  - rewrite Hf. done.
Qed.

Lemma rangeMap_empty {A} : rangeMap A ∅ = [].
Proof.
  apply Permutation_nil. symmetry.
  rewrite (rangeMap_perm A ∅). by rewrite map_to_list_empty.
Qed.

(** A graph governed in "DIRECT" mode only yields Sidecar objects only. *)
Lemma all_direct_only_sidecars (graph : Graph) (w w' : World)
    (results : list (Object Any)) :
  (∀ call tg, call ∈ graph_Calls graph → SourceTrafficGroup call = Some tg →
              ConfigMode tg = "DIRECT") →
  generateSettings (Some graph) w = (Val results, w') →
  Forall (λ o, Kind o = IstioSidecarKind) results.
Proof.
  intros Hall H. apply generateSettings_Val in H as (gr & g & [= <-] & Hg & H).
  assert (trafficSettings g = ∅) as Hts.
  { apply (forM_inv (λ g, trafficSettings g = ∅) processCall (graph_Calls graph))
      with (s := initState) (w := w) (w' := w'); [|reflexivity|exact Hg].
    intros c s u s' u' Hc Hs Hstep.
    destruct (SourceTrafficGroup c) as [tg|] eqn:Htg.
    - pose proof (processCall_frame c tg s s' u u' Htg Hstep) as Hd.
      rewrite (Hall c tg Hc Htg) in Hd. simpl in Hd.
      destruct Hd as (-> & _). exact Hs.
    - unfold processCall in Hstep. rewrite Htg in Hstep.
      apply ret_Val in Hstep as [-> _]. exact Hs. }
  unfold emit in H. apply res_bind_Val in H as (r1 & H1 & H2).
  apply sidecarObjects_kinds in H1 as (scs & -> & Hscs & _).
  unfold trafficSettingObjects in H2. rewrite Hts, rangeMap_empty in H2.
  injection H2 as <-. exact Hscs.
Qed.

(** A graph with no "DIRECT" group yields TrafficSetting objects only. *)
Lemma all_bridged_only_traffic_settings (graph : Graph) (w w' : World)
    (results : list (Object Any)) :
  (∀ call tg, call ∈ graph_Calls graph → SourceTrafficGroup call = Some tg →
              ConfigMode tg ≠ "DIRECT") →
  generateSettings (Some graph) w = (Val results, w') →
  Forall (λ o, Kind o = TrafficSettingKind) results.
Proof.
  intros Hall H. apply generateSettings_Val in H as (gr & g & [= <-] & Hg & H).
  assert (sidecars g = ∅) as Hsc.
  { apply (forM_inv (λ g, sidecars g = ∅) processCall (graph_Calls graph))
      with (s := initState) (w := w) (w' := w'); [|reflexivity|exact Hg].
    intros c s u s' u' Hc Hs Hstep.
    destruct (SourceTrafficGroup c) as [tg|] eqn:Htg.
    - pose proof (processCall_frame c tg s s' u u' Htg Hstep) as Hd.
      pose proof (Hall c tg Hc Htg) as Hne. apply String.eqb_neq in Hne.
      rewrite Hne in Hd. by rewrite Hd.
    - unfold processCall in Hstep. rewrite Htg in Hstep.
      apply ret_Val in Hstep as [-> _]. exact Hs. }
  unfold emit in H. apply res_bind_Val in H as (r1 & H1 & H2).
  unfold sidecarObjects in H1. rewrite Hsc, rangeMap_empty in H1.
  injection H1 as <-.
  apply trafficSettingObjects_kinds in H2 as (tss & -> & Htss & _). exact Htss.
Qed.

(** ** Creation of policy objects *)

(** C6 (base hosts).  A Sidecar created for a namespace that has none,
    and a TrafficSetting synthesised because the collaborator has none
    for the group, carry exactly the two base hosts when the loop that
    merges destination namespaces starts. *)
Theorem C6_base_hosts (call : Call) (annotations : gmap string string)
    (ns fqn : string) (meta : ObjectMeta) (seen : gmap string (list string))
    (scs : gmap string Sidecar) (ts : gmap string TrafficSetting)
    (w : World) (st' : St) :
  (scs !! ns = None →
     egressHosts (ensureSidecar ns annotations scs) ns
       = ["istio-system/*"; "xcp-multicluster/*"]
     ∧ directNs call annotations ns (seen, scs)
       = forRes (directDest ns) (TargetNamespaces call)
           (ensureSeen ns seen, ensureSidecar ns annotations scs))
  ∧ (ts !! fqn = None →
     GetTrafficSettings fqn (client w) = (inr None, st') →
     ∃ ts' w', ensureTrafficSetting fqn meta ts w = (Val ts', w')
       ∧ reachabilityHosts ts' fqn = ["istio-system/*"; "xcp-multicluster/*"]).
Proof.
  split.
  - intros Hnone. split; [|reflexivity].
    unfold egressHosts, ensureSidecar. rewrite Hnone, lookup_insert_eq. reflexivity.
  - intros Hnone Hget. unfold ensureTrafficSetting. rewrite Hnone.
    unfold bind, callGetTrafficSettings, ret. rewrite Hget. simpl.
    eexists _, _. split; [reflexivity|].
    unfold reachabilityHosts. rewrite lookup_insert_eq. reflexivity.
Qed.

(** ** The seen map and the host lists under the elementary updates *)

Lemma seenOf_insert (seen : gmap string (list string)) (ns s : string)
    (l : list string) :
  seenOf (<[ns := l]> seen) s = if decide (ns = s) then l else seenOf seen s.
Proof.
  unfold seenOf. case_decide as H.
  - subst. by rewrite lookup_insert_eq.
  - by rewrite lookup_insert_ne.
Qed.

Lemma seenOf_ensureSeen (seen : gmap string (list string)) (ns s : string) :
  seenOf (ensureSeen ns seen) s = seenOf seen s.
Proof.
  unfold ensureSeen. destruct (seen !! ns) eqn:H; [done|].
  rewrite seenOf_insert. case_decide; [|done]. subst. unfold seenOf. by rewrite H.
Qed.

Lemma egressHosts_insert (scs : gmap string Sidecar) (ns s : string) (sc : Sidecar) :
  egressHosts (<[ns := sc]> scs) s
  = if decide (ns = s) then sidecarHosts sc else egressHosts scs s.
Proof.
  unfold egressHosts. case_decide as H.
  - subst. by rewrite lookup_insert_eq.
  - by rewrite lookup_insert_ne.
Qed.

Lemma reachabilityHosts_insert (ts : gmap string TrafficSetting) (fqn f : string)
    (t : TrafficSetting) :
  reachabilityHosts (<[fqn := t]> ts) f
  = if decide (fqn = f) then GetHosts (Reachability t) else reachabilityHosts ts f.
Proof.
  unfold reachabilityHosts. case_decide as H.
  - subst. by rewrite lookup_insert_eq.
  - by rewrite lookup_insert_ne.
Qed.

Lemma directDest_inv (ns d : string) (seen seen' : gmap string (list string))
    (scs scs' : gmap string Sidecar) :
  directDest ns d (seen, scs) = Val (seen', scs') →
  (d ∈ seenOf seen ns ∧ seen' = seen ∧ scs' = scs)
  ∨ ((d ∉ seenOf seen ns)
     ∧ seen' = <[ns := seenOf seen ns ++ [d]]> seen
     ∧ ∃ sc sc', scs !! ns = Some sc ∧ scs' = <[ns := sc']> scs
         ∧ sidecarHosts sc' = sidecarHosts sc ++ [hostOf d]).
Proof.
  unfold directDest, Contains. case_bool_decide as Hin.
  - intros [= <- <-]. by left.
  - intros H. apply res_bind_Val in H as (sc' & Happ & [= <- <-]).
    right. split; [done|]. split; [done|].
    unfold appendEgressHost in Happ.
    destruct (scs !! ns) as [sc|]; [|discriminate].
    destruct (Egress (sc_Spec sc)) as [|l ls] eqn:He; [discriminate|].
    injection Happ as <-. exists sc. eexists. split; [done|]. split; [done|].
    unfold sidecarHosts. simpl. by rewrite He.
Qed.

Lemma bridgedDest_inv (fqn ns d : string) (seen seen' : gmap string (list string))
    (ts ts' : gmap string TrafficSetting) :
  bridgedDest fqn ns d (seen, ts) = Val (seen', ts') →
  (d ∈ seenOf seen ns ∧ seen' = seen ∧ ts' = ts)
  ∨ ((d ∉ seenOf seen ns)
     ∧ seen' = <[ns := seenOf seen ns ++ [d]]> seen
     ∧ ((hostOf d ∈ reachabilityHosts ts fqn ∧ ts' = ts)
        ∨ ((hostOf d ∉ reachabilityHosts ts fqn)
           ∧ ∃ t t', ts !! fqn = Some t ∧ ts' = <[fqn := t']> ts
               ∧ GetHosts (Reachability t')
                 = reachabilityHosts ts fqn ++ [hostOf d]))).
Proof.
  unfold bridgedDest, Contains. case_bool_decide as Hin.
  - intros [= <- <-]. by left.
  - fold (reachabilityHosts ts fqn). case_bool_decide as Hh; simpl.
    + intros [= <- <-]. right. split; [done|]. split; [done|]. by left.
    + intros H. apply res_bind_Val in H as (t' & Hass & [= <- <-]).
      right. split; [done|]. split; [done|]. right. split; [done|].
      unfold assignHosts in Hass.
      destruct (ts !! fqn) as [t|] eqn:Ht; [|discriminate].
      destruct (Reachability t) as [r|]; [|discriminate].
      injection Hass as <-. exists t. eexists. done.
Qed.

(** ** Every loop of the generator is a sequence of elementary updates *)

Lemma step_allowed_mono (mode : Branch) (allowed allowed' : string → string → Prop)
    (a a' : Acc) :
  (∀ ns d, allowed ns d → allowed' ns d) →
  step mode allowed a a' → step mode allowed' a a'.
Proof. intros Hsub H. destruct H; econstructor; eauto. Qed.

Lemma steps_directDest (allowed : string → string → Prop) (ns : string)
    (ts : gmap string TrafficSetting) (targets : list string) :
  (∀ d, d ∈ targets → allowed ns d) →
  ∀ seen scs seen' scs',
    forRes (directDest ns) targets (seen, scs) = Val (seen', scs') →
    rtc (step Direct allowed) (seen, scs, ts) (seen', scs', ts).
Proof.
  induction targets as [|d targets IH]; intros Hal seen scs seen' scs' H; simpl in H.
  - injection H as <- <-. apply rtc_refl.
  - apply res_bind_Val in H as ([seen1 scs1] & H1 & H2).
    eapply rtc_l.
    + eapply step_directDest; [done| |exact H1]. apply Hal. by left.
    + apply IH; [|done]. intros d' Hd'. apply Hal. by right.
Qed.

Lemma steps_directNs (allowed : string → string → Prop) (call : Call)
    (annotations : gmap string string) (ns : string) (ts : gmap string TrafficSetting)
    (seen seen' : gmap string (list string)) (scs scs' : gmap string Sidecar) :
  (∀ d, d ∈ TargetNamespaces call → allowed ns d) →
  directNs call annotations ns (seen, scs) = Val (seen', scs') →
  rtc (step Direct allowed) (seen, scs, ts) (seen', scs', ts).
Proof.
  intros Hal H. unfold directNs in H.
  eapply rtc_l; [apply (step_ensureSeen _ _ ns)|].
  eapply rtc_l; [by apply (step_ensureSidecar _ _ ns annotations)|].
  by eapply steps_directDest.
Qed.

Lemma steps_direct (allowed : string → string → Prop) (call : Call)
    (annotations : gmap string string) (ts : gmap string TrafficSetting)
    (sources : list string) :
  (∀ s d, s ∈ sources → d ∈ TargetNamespaces call → allowed s d) →
  ∀ seen scs seen' scs',
    forRes (directNs call annotations) sources (seen, scs) = Val (seen', scs') →
    rtc (step Direct allowed) (seen, scs, ts) (seen', scs', ts).
Proof.
  induction sources as [|s sources IH]; intros Hal seen scs seen' scs' H; simpl in H.
  - injection H as <- <-. apply rtc_refl.
  - apply res_bind_Val in H as ([seen1 scs1] & H1 & H2).
    eapply rtc_trans.
    + eapply steps_directNs; [|exact H1]. intros d Hd. apply Hal; [by left|done].
    + apply IH; [|done]. intros s' d Hs' Hd. apply Hal; [by right|done].
Qed.

Lemma steps_ensureTrafficSetting (allowed : string → string → Prop) (fqn : string)
    (meta : ObjectMeta) (seen : gmap string (list string)) (scs : gmap string Sidecar)
    (ts ts' : gmap string TrafficSetting) (w w' : World) :
  ensureTrafficSetting fqn meta ts w = (Val ts', w') →
  rtc (step (Bridged fqn) allowed) (seen, scs, ts) (seen, scs, ts').
Proof.
  unfold ensureTrafficSetting. destruct (ts !! fqn) as [t|] eqn:Ht.
  - intros H. apply ret_Val in H as [-> _]. apply rtc_refl.
  - intros H. apply bind_Val in H as (r & w1 & H1 & H).
    apply ret_Val in H as [-> _]. apply rtc_once.
    eapply step_newSetting; [done|done|].
    unfold callGetTrafficSettings in H1.
    destruct (GetTrafficSettings fqn (client w)) as [[err|settings] st1] eqn:Hget;
      [discriminate|].
    injection H1 as -> _. destruct r as [t|].
    + right. eauto.
    + left. eauto.
Qed.

Lemma steps_bridgedDest (allowed : string → string → Prop) (fqn ns : string)
    (scs : gmap string Sidecar) (targets : list string) :
  (∀ d, d ∈ targets → allowed ns d) →
  ∀ seen ts seen' ts',
    forRes (bridgedDest fqn ns) targets (seen, ts) = Val (seen', ts') →
    rtc (step (Bridged fqn) allowed) (seen, scs, ts) (seen', scs, ts').
Proof.
  induction targets as [|d targets IH]; intros Hal seen ts seen' ts' H; simpl in H.
  - injection H as <- <-. apply rtc_refl.
  - apply res_bind_Val in H as ([seen1 ts1] & H1 & H2).
    eapply rtc_l.
    + eapply step_bridgedDest; [done| |exact H1]. apply Hal. by left.
    + apply IH; [|done]. intros d' Hd'. apply Hal. by right.
Qed.

Lemma bridgedNs_Val (call : Call) (meta : ObjectMeta) (ns : string)
    (seen seen' : gmap string (list string)) (ts ts' : gmap string TrafficSetting)
    (w w' : World) :
  bridgedNs call meta ns (seen, ts) w = (Val (seen', ts'), w') →
  ∃ tg ts1, SourceTrafficGroup call = Some tg
    ∧ ensureTrafficSetting (tg_FQN tg) meta ts w = (Val ts1, w')
    ∧ forRes (bridgedDest (tg_FQN tg) ns) (TargetNamespaces call)
        (ensureSeen ns seen, ts1) = Val (seen', ts').
Proof.
  unfold bridgedNs. intros H.
  apply bind_Val in H as (tg & w1 & H1 & H). apply lift_Val in H1 as [H1 ->].
  apply bind_Val in H as (ts1 & w2 & H2 & H). apply lift_Val in H as [H ->].
  destruct (SourceTrafficGroup call) as [tg'|]; [|discriminate].
  injection H1 as ->. by exists tg, ts1.
Qed.

Lemma steps_bridged (allowed : string → string → Prop) (call : Call)
    (tg : TrafficGroup) (meta : ObjectMeta) (scs : gmap string Sidecar)
    (sources : list string) :
  SourceTrafficGroup call = Some tg →
  (∀ s d, s ∈ sources → d ∈ TargetNamespaces call → allowed s d) →
  ∀ seen ts w seen' ts' w',
    forM (bridgedNs call meta) sources (seen, ts) w = (Val (seen', ts'), w') →
    rtc (step (Bridged (tg_FQN tg)) allowed) (seen, scs, ts) (seen', scs, ts').
Proof.
  intros Htg.
  induction sources as [|s sources IH]; intros Hal seen ts w seen' ts' w' H;
    simpl in H.
  - apply ret_Val in H as [[= -> ->] _]. apply rtc_refl.
  - apply bind_Val in H as ([seen1 ts1] & w1 & H1 & H2).
    apply bridgedNs_Val in H1 as (tg' & ts0 & Htg' & He & Hd).
    rewrite Htg in Htg'. injection Htg' as <-.
    eapply rtc_l; [apply (step_ensureSeen _ _ s)|].
    eapply rtc_trans; [by eapply steps_ensureTrafficSetting|].
    eapply rtc_trans.
    + eapply steps_bridgedDest; [|exact Hd]. intros d Hd'. apply Hal; [by left|done].
    + eapply IH; [|exact H2]. intros s' d Hs' Hd'. apply Hal; [by right|done].
Qed.

Lemma steps_processCall (allowed : string → string → Prop) (call : Call)
    (g g' : GenState) (w w' : World) :
  (∀ tg s d, SourceTrafficGroup call = Some tg → s ∈ SourceNamespaces call →
             d ∈ TargetNamespaces call → allowed s d) →
  processCall call g w = (Val g', w') →
  match SourceTrafficGroup call with
  | None => g' = g
  | Some tg =>
      rtc (step (if String.eqb (ConfigMode tg) "DIRECT" then Direct
                 else Bridged (tg_FQN tg)) allowed) (acc g) (acc g')
  end.
Proof.
  intros Hal H. unfold processCall in H.
  destruct (SourceTrafficGroup call) as [tg|] eqn:Htg.
  - destruct (String.eqb (ConfigMode tg) "DIRECT").
    + apply bind_Val in H as (a & w1 & H1 & H). apply lift_Val in H1 as [_ ->].
      apply bind_Val in H as ([seen1 scs1] & w2 & H2 & H).
      apply lift_Val in H2 as [H2 ->]. apply ret_Val in H as [-> ->].
      unfold acc; simpl. eapply steps_direct; [|exact H2]. eauto.
    + apply bind_Val in H as (m & w1 & H1 & H).
      apply bind_Val in H as ([seen1 ts1] & w2 & H2 & H).
      apply ret_Val in H as [-> ->].
      unfold acc; simpl. eapply steps_bridged; [exact Htg| |exact H2]. eauto.
  - by apply ret_Val in H as [-> _].
Qed.

Lemma steps_processCalls (calls : list Call) :
  ∀ g w g' w',
    processCalls calls g w = (Val g', w') →
    rtc (anystep (pairOf calls)) (acc g) (acc g').
Proof.
  unfold processCalls.
  induction calls as [|call calls IH]; intros g w g' w' H; simpl in H.
  - apply ret_Val in H as [-> _]. apply rtc_refl.
  - apply bind_Val in H as (g1 & w1 & H1 & H2).
    eapply rtc_trans.
    + apply (steps_processCall (pairOf (call :: calls))) in H1.
      * destruct (SourceTrafficGroup call) as [tg|]; [|subst; apply rtc_refl].
        eapply rtc_subrel; [|exact H1]. intros a a' Hs. by eexists.
      * intros tg s d Htg Hs Hd. exists call, tg. split; [by left|done].
    + eapply rtc_subrel; [|exact (IH _ _ _ _ H2)].
      intros a a' [mode Hs]. exists mode.
      eapply step_allowed_mono; [|exact Hs].
      intros ns d (c & tg & Hc & ?). exists c, tg. split; [by right|done].
Qed.

(** ** Counting hosts *)





(** ** Invariants of the elementary updates *)

Ltac step_cases H :=
  destruct H as [ns seen scs ts
                |ns ann seen scs ts Hm
                |ns d0 seen scs ts seen' scs' Hm Hal Hd
                |fqn0 t seen scs ts Hm Hnone Hprov
                |fqn0 ns d0 seen scs ts seen' ts' Hm Hal Hd];
  simpl.

Lemma marked_seenOf (seen : gmap string (list string)) (ns d0 s d : string) :
  d ∈ seenOf (<[ns := seenOf seen ns ++ [d0]]> seen) s
  ↔ d ∈ seenOf seen s ∨ (ns = s ∧ d = d0).
Proof.
  rewrite seenOf_insert. case_decide as Hns.
  - subst. rewrite elem_of_app, list_elem_of_singleton.
    split; [intros [?|?]; [by left|by right]|intros [?|[_ ?]]; [by left|by right]].
  - split; [by left|intros [?|[? _]]; done].
Qed.

(** What is seen stays seen. *)
Lemma step_seen_mono (mode : Branch) (allowed : string → string → Prop)
    (a a' : Acc) (s d : string) :
  step mode allowed a a' → seenIn a s d → seenIn a' s d.
Proof.
  unfold seenIn. intros H. step_cases H; intros Hin.
  - by rewrite seenOf_ensureSeen.
  - done.
  - apply directDest_inv in Hd as [(_ & -> & _)|(_ & -> & _)]; [done|].
    apply marked_seenOf. by left.
  - done.
  - apply bridgedDest_inv in Hd as [(_ & -> & _)|(_ & -> & _)]; [done|].
    apply marked_seenOf. by left.
Qed.







Lemma step_DirectMerged (allowed : string → string → Prop) (a a' : Acc)
    (s d : string) :
  step Direct allowed a a' → DirectMerged s d a → DirectMerged s d a'.
Proof.
  unfold DirectMerged. intros H. step_cases H; intros Hinv; try discriminate.
  - by rewrite seenOf_ensureSeen.
  - unfold ensureSidecar. destruct (scs !! ns) eqn:Hns; [done|].
    destruct (decide (ns = s)) as [->|Hne].
    + rewrite lookup_insert_eq. rewrite Hns in Hinv. by intros Hin.
    + by rewrite lookup_insert_ne.
  - apply directDest_inv in Hd
      as [(_ & -> & ->)|(Hnin & -> & sc & sc' & Hsc & -> & Hh)]; [done|].
    destruct (decide (ns = s)) as [->|Hne].
    + rewrite lookup_insert_eq. rewrite Hsc in Hinv.
      rewrite marked_seenOf, Hh, elem_of_app, list_elem_of_singleton.
      intros [Hin|[_ ->]]; [left; auto|by right].
    + rewrite lookup_insert_ne by done.
      destruct (scs !! s); rewrite marked_seenOf; intros [?|[? _]]; auto; done.
Qed.


(** ** The invariants over whole runs *)

Lemma rtc_preserved {A} (R : relation A) (P : A → Prop) :
  (∀ a a', R a a' → P a → P a') → ∀ a a', rtc R a a' → P a → P a'.
Proof. intros Hstep a a' H. induction H; eauto. Qed.

Lemma steps_seen_mono (mode : Branch) (allowed : string → string → Prop)
    (a a' : Acc) (s d : string) :
  rtc (step mode allowed) a a' → seenIn a s d → seenIn a' s d.
Proof.
  apply (rtc_preserved _ (λ a, seenIn a s d)).
  intros b b'. apply step_seen_mono.
Qed.

Lemma anysteps_seen_mono (allowed : string → string → Prop)
    (a a' : Acc) (s d : string) :
  rtc (anystep allowed) a a' → seenIn a s d → seenIn a' s d.
Proof.
  apply (rtc_preserved _ (λ a, seenIn a s d)).
  intros b b' [mode H]. by eapply step_seen_mono.
Qed.

(** ** Every pair of a governed call is recorded in the seen map *)

Lemma forRes_each {A S} (Post : A → S → Prop) (body : A → S → Res S) (l : list A) :
  (∀ x s s', x ∈ l → body x s = Val s' → Post x s') →
  (∀ x y s s', x ∈ l → body x s = Val s' → Post y s → Post y s') →
  ∀ s s', forRes body l s = Val s' → ∀ x, x ∈ l → Post x s'.
Proof.
  induction l as [|y l IH]; intros Hest Hpres s s' H x Hx; simpl in H.
  - by apply elem_of_nil in Hx.
  - apply res_bind_Val in H as (s1 & H1 & H2).
    apply elem_of_cons in Hx as [->|Hx].
    + eapply (forRes_inv (Post y)); [| |exact H2].
      * intros z t t' Hz Ht Hb. eapply Hpres; [by right|exact Hb|exact Ht].
      * eapply Hest; [by left|exact H1].
    + eapply IH; [| |exact H2|exact Hx].
      * intros z t t' Hz. apply Hest. by right.
      * intros z z' t t' Hz. apply Hpres. by right.
Qed.

Lemma forM_each {A S} (Post : A → S → Prop) (body : A → S → M S) (l : list A) :
  (∀ x s w s' w', x ∈ l → body x s w = (Val s', w') → Post x s') →
  (∀ x y s w s' w', x ∈ l → body x s w = (Val s', w') → Post y s → Post y s') →
  ∀ s w s' w', forM body l s w = (Val s', w') → ∀ x, x ∈ l → Post x s'.
Proof.
  induction l as [|y l IH]; intros Hest Hpres s w s' w' H x Hx; simpl in H.
  - by apply elem_of_nil in Hx.
  - apply bind_Val in H as (s1 & w1 & H1 & H2).
    apply elem_of_cons in Hx as [->|Hx].
    + eapply (forM_inv (Post y)); [| |exact H2].
      * intros z t u t' u' Hz Ht Hb. eapply Hpres; [by right|exact Hb|exact Ht].
      * eapply Hest; [by left|exact H1].
    + eapply IH; [| |exact H2|exact Hx].
      * intros z t u t' u' Hz. apply Hest. by right.
      * intros z z' t u t' u' Hz. apply Hpres. by right.
Qed.

Lemma directDest_seen_mono (ns d0 s d : string) (st st' : DirectState) :
  directDest ns d0 st = Val st' → d ∈ seenOf st.1 s → d ∈ seenOf st'.1 s.
Proof.
  destruct st as [seen scs], st' as [seen' scs']. intros H.
  apply (step_seen_mono Direct (λ _ _, True) (seen, scs, ∅) (seen', scs', ∅)).
  by eapply step_directDest.
Qed.

Lemma bridgedDest_seen_mono (fqn ns d0 s d : string) (st st' : BridgedState) :
  bridgedDest fqn ns d0 st = Val st' → d ∈ seenOf st.1 s → d ∈ seenOf st'.1 s.
Proof.
  destruct st as [seen ts], st' as [seen' ts']. intros H.
  apply (step_seen_mono (Bridged fqn) (λ _ _, True) (seen, ∅, ts) (seen', ∅, ts')).
  by eapply step_bridgedDest.
Qed.

Lemma directDest_records (ns d : string) (st st' : DirectState) :
  directDest ns d st = Val st' → d ∈ seenOf st'.1 ns.
Proof.
  destruct st as [seen scs], st' as [seen' scs']. intros H.
  apply directDest_inv in H as [(Hin & -> & _)|(_ & -> & _)]; simpl; [done|].
  apply marked_seenOf. by right.
Qed.

Lemma bridgedDest_records (fqn ns d : string) (st st' : BridgedState) :
  bridgedDest fqn ns d st = Val st' → d ∈ seenOf st'.1 ns.
Proof.
  destruct st as [seen ts], st' as [seen' ts']. intros H.
  apply bridgedDest_inv in H as [(Hin & -> & _)|(_ & -> & _)]; simpl; [done|].
  apply marked_seenOf. by right.
Qed.

Lemma directNs_records (call : Call) (annotations : gmap string string)
    (ns : string) (st st' : DirectState) :
  directNs call annotations ns st = Val st' →
  ∀ d, d ∈ TargetNamespaces call → d ∈ seenOf st'.1 ns.
Proof.
  destruct st as [seen scs]. unfold directNs.
  apply (forRes_each (λ d st, d ∈ seenOf st.1 ns)).
  - intros d s s' _. apply directDest_records.
  - intros d0 d s s' _. apply directDest_seen_mono.
Qed.

Lemma directNs_seen_mono (call : Call) (annotations : gmap string string)
    (ns s d : string) (st st' : DirectState) :
  directNs call annotations ns st = Val st' →
  d ∈ seenOf st.1 s → d ∈ seenOf st'.1 s.
Proof.
  destruct st as [seen scs], st' as [seen' scs']. intros H.
  apply (steps_seen_mono Direct (λ _ _, True) (seen, scs, ∅) (seen', scs', ∅)).
  by eapply steps_directNs.
Qed.

Lemma direct_records (call : Call) (annotations : gmap string string)
    (seen : gmap string (list string)) (scs : gmap string Sidecar)
    (st' : DirectState) (s d : string) :
  generateDirectModeSidecars call seen scs annotations = Val st' →
  s ∈ SourceNamespaces call → d ∈ TargetNamespaces call →
  d ∈ seenOf st'.1 s.
Proof.
  unfold generateDirectModeSidecars. intros H Hs. revert d.
  apply (forRes_each (λ s st, ∀ d, d ∈ TargetNamespaces call → d ∈ seenOf st.1 s)
           (directNs call annotations) (SourceNamespaces call))
    with (s := (seen, scs)); [| |exact H|exact Hs].
  - intros ns t t' _. apply directNs_records.
  - intros ns ns' t t' _ Hns Hpost d' Hd'.
    eapply directNs_seen_mono; [exact Hns|]. by apply Hpost.
Qed.

Lemma bridgedNs_records (call : Call) (meta : ObjectMeta) (ns : string)
    (st st' : BridgedState) (w w' : World) :
  bridgedNs call meta ns st w = (Val st', w') →
  ∀ d, d ∈ TargetNamespaces call → d ∈ seenOf st'.1 ns.
Proof.
  destruct st as [seen ts], st' as [seen' ts']. intros H.
  apply bridgedNs_Val in H as (tg & ts1 & _ & _ & H). revert H.
  apply (forRes_each (λ d st, d ∈ seenOf st.1 ns)).
  - intros d s s' _. apply bridgedDest_records.
  - intros d0 d s s' _. apply bridgedDest_seen_mono.
Qed.

Lemma bridgedNs_seen_mono (call : Call) (meta : ObjectMeta) (ns s d : string)
    (st st' : BridgedState) (w w' : World) :
  bridgedNs call meta ns st w = (Val st', w') →
  d ∈ seenOf st.1 s → d ∈ seenOf st'.1 s.
Proof.
  destruct st as [seen ts], st' as [seen' ts']. intros H.
  apply bridgedNs_Val in H as (tg & ts1 & Htg & He & H). simpl. intros Hin.
  apply (steps_seen_mono (Bridged (tg_FQN tg)) (λ _ _, True)
           (ensureSeen ns seen, ∅, ts1) (seen', ∅, ts')).
  - by eapply steps_bridgedDest.
  - unfold seenIn. simpl. by rewrite seenOf_ensureSeen.
Qed.

Lemma bridged_records (call : Call) (meta : ObjectMeta)
    (seen : gmap string (list string)) (ts : gmap string TrafficSetting)
    (st' : BridgedState) (w w' : World) (s d : string) :
  generateBridgedModeTrafficSettings call seen ts meta w = (Val st', w') →
  s ∈ SourceNamespaces call → d ∈ TargetNamespaces call →
  d ∈ seenOf st'.1 s.
Proof.
  unfold generateBridgedModeTrafficSettings. intros H Hs. revert d.
  apply (forM_each (λ s st, ∀ d, d ∈ TargetNamespaces call → d ∈ seenOf st.1 s)
           (bridgedNs call meta) (SourceNamespaces call))
    with (s := (seen, ts)) (w := w) (w' := w'); [| |exact H|exact Hs].
  - intros ns t u t' u' _. apply bridgedNs_records.
  - intros ns ns' t u t' u' _ Hns Hpost d' Hd'.
    eapply bridgedNs_seen_mono; [exact Hns|]. by apply Hpost.
Qed.

Lemma processCall_records (call : Call) (tg : TrafficGroup) (g g' : GenState)
    (w w' : World) (s d : string) :
  SourceTrafficGroup call = Some tg →
  processCall call g w = (Val g', w') →
  s ∈ SourceNamespaces call → d ∈ TargetNamespaces call →
  d ∈ seenOf (seenNs g') s.
Proof.
  intros Htg H Hs Hd. unfold processCall in H. rewrite Htg in H.
  destruct (String.eqb (ConfigMode tg) "DIRECT").
  - apply bind_Val in H as (a & w1 & H1 & H). apply lift_Val in H1 as [_ ->].
    apply bind_Val in H as (st & w2 & H2 & H). apply lift_Val in H2 as [H2 ->].
    apply ret_Val in H as [-> ->]. simpl. by eapply direct_records.
  - apply bind_Val in H as (m & w1 & H1 & H).
    apply bind_Val in H as (st & w2 & H2 & H).
    apply ret_Val in H as [-> ->]. simpl. by eapply bridged_records.
Qed.

(** ** The shared seen map *)



Lemma processCalls_seen_mono (calls : list Call) (g g' : GenState) (w w' : World)
    (s d : string) :
  processCalls calls g w = (Val g', w') →
  d ∈ seenOf (seenNs g) s → d ∈ seenOf (seenNs g') s.
Proof.
  intros H. apply steps_processCalls in H.
  apply (anysteps_seen_mono _ _ _ s d H).
Qed.


(** ** Deduplication of hosts *)

Lemma steps_any (calls : list Call) (g g' : GenState) (w w' : World) :
  processCalls calls g w = (Val g', w') →
  rtc (anystep (λ _ _, True)) (acc g) (acc g').
Proof.
  intros H. apply steps_processCalls in H.
  eapply rtc_subrel; [|exact H].
  intros a a' [mode Hs]. exists mode. by eapply step_allowed_mono.
Qed.








(** ** The FQN decomposer on arbitrary input *)

Lemma forRes_total {A S} (body : A → S → Res S) (l : list A) :
  (∀ x s, x ∈ l → ∃ s', body x s = Val s') →
  ∀ s, ∃ s', forRes body l s = Val s'.
Proof.
  induction l as [|x l IH]; intros Hbody s; simpl.
  - by exists s.
  - destruct (Hbody x s) as [s1 ->]; [by left|]. simpl.
    apply IH. intros y t Hy. apply Hbody. by right.
Qed.

Lemma stride2_bound (n i : nat) :
  i ∈ stride2 n → i < n ∧ (i + 1 < n ∨ i = n - 1).
Proof.
  unfold stride2. rewrite list_elem_of_fmap. intros (k & -> & Hk).
  apply elem_of_seq in Hk as [_ Hk]. rewrite Nat.div2_div in Hk.
  pose proof (Nat.Div0.mul_div_le (n + 1) 2). lia.
Qed.

Lemma stride2_even (n i : nat) : Nat.even n = true → i ∈ stride2 n → i + 1 < n.
Proof.
  intros He. apply Nat.even_spec in He as [m ->].
  unfold stride2. rewrite list_elem_of_fmap. intros (k & -> & Hk).
  apply elem_of_seq in Hk as [_ Hk]. rewrite Nat.div2_div in Hk.
  assert ((2 * m + 1) / 2 = m) as Hdiv.
  { rewrite Nat.add_comm, Nat.mul_comm. rewrite Nat.div_add by lia. done. }
  lia.
Qed.

Lemma index_lt {A} (l : list A) (i : nat) : i < length l → ∃ x, index l i = Val x.
Proof.
  intros H. unfold index. destruct (lookup_lt_is_Some_2 l i H) as [x ->]. eauto.
Qed.

Ltac not_a_key key Hkeys k :=
  destruct (String.eqb_spec key k) as [->|_];
  [exfalso; apply Hkeys;
   repeat first [apply list_elem_of_here|apply list_elem_of_further]|].

(** The decomposition returns whenever every recognised key is followed by
    a value: on an even number of segments, and on an odd number when the
    last segment is not a recognised key. *)
Lemma bridgedModeMeta_total (fqn : string) :
  Nat.even (length (Split fqn)) = true
  ∨ (∀ k, last (Split fqn) = Some k →
          k ∉ ["organizations"; "tenants"; "workspaces"; "trafficgroups"]) →
  ∃ meta, bridgedModeMeta fqn = Val meta.
Proof using.
  intros Hwf. unfold bridgedModeMeta. apply forRes_total.
  intros i meta Hi. unfold bridgedModeMeta_body.
  destruct (stride2_bound _ _ Hi) as [Hlt Hnext].
  destruct (index_lt _ _ Hlt) as [key Hkey]. rewrite Hkey. simpl.
  assert (i + 1 < length (Split fqn)
          ∨ key ∉ ["organizations"; "tenants"; "workspaces"; "trafficgroups"])
    as [Hok|Hkeys].
  { destruct Hwf as [He|Hlast]; [left; by eapply stride2_even|].
    destruct Hnext as [?| ->]; [by left|]. right. apply Hlast.
    rewrite last_lookup, <- Nat.sub_1_r. unfold index in Hkey.
    destruct (Split fqn !! (length (Split fqn) - 1)) as [k|];
      [by injection Hkey as ->|discriminate Hkey]. }
  - destruct (index_lt _ _ Hok) as [v ->]. simpl.
    repeat (destruct (String.eqb key _); [eauto|]). eauto.
  - not_a_key key Hkeys "organizations". not_a_key key Hkeys "tenants".
    not_a_key key Hkeys "workspaces". not_a_key key Hkeys "trafficgroups".
    eauto.
Qed.

Lemma directModeAnnotations_total (fqn : string) :
  Nat.even (length (Split fqn)) = true
  ∨ (∀ k, last (Split fqn) = Some k →
          k ∉ ["organizations"; "tenants"; "workspaces"; "trafficgroups"]) →
  ∃ annotations, directModeAnnotations fqn = Val annotations.
Proof using.
  intros Hwf. unfold directModeAnnotations. apply forRes_total.
  intros i ann Hi. unfold directModeAnnotations_body.
  destruct (stride2_bound _ _ Hi) as [Hlt Hnext].
  destruct (index_lt _ _ Hlt) as [key Hkey]. rewrite Hkey. simpl.
  assert (i + 1 < length (Split fqn)
          ∨ key ∉ ["organizations"; "tenants"; "workspaces"; "trafficgroups"])
    as [Hok|Hkeys].
  { destruct Hwf as [He|Hlast]; [left; by eapply stride2_even|].
    destruct Hnext as [?| ->]; [by left|]. right. apply Hlast.
    rewrite last_lookup, <- Nat.sub_1_r. unfold index in Hkey.
    destruct (Split fqn !! (length (Split fqn) - 1)) as [k|];
      [by injection Hkey as ->|discriminate Hkey]. }
  - destruct (index_lt _ _ Hok) as [v ->]. simpl.
    repeat (destruct (String.eqb key _); [eauto|]). eauto.
  - not_a_key key Hkeys "organizations". not_a_key key Hkeys "tenants".
    not_a_key key Hkeys "workspaces". not_a_key key Hkeys "trafficgroups".
    eauto.
Qed.

Lemma parseNamespace_total (service : Service) :
  Forall (λ dep, Nat.even (length (Split (dep_FQN dep))) = true
                 ∨ last (Split (dep_FQN dep)) ≠ Some "namespaces")
         (ServiceDeployments service) →
  ∃ results, parseNamespace service = Val results.
Proof using.
  intros Hwf. unfold parseNamespace. apply forRes_total.
  intros dep results Hdep. rewrite Forall_forall in Hwf.
  specialize (Hwf dep Hdep). unfold parseNamespace_dep. apply forRes_total.
  intros i acc0 Hi. unfold parseNamespace_body.
  destruct (stride2_bound _ _ Hi) as [Hlt Hnext].
  destruct (index_lt _ _ Hlt) as [key Hkey]. rewrite Hkey. simpl.
  destruct (String.eqb_spec key "namespaces") as [->|_]; [|eauto].
  assert (i + 1 < length (Split (dep_FQN dep))) as Hok.
  { destruct Hwf as [He|Hlast]; [by eapply stride2_even|].
    destruct Hnext as [?| ->]; [done|]. exfalso. apply Hlast.
    rewrite last_lookup, <- Nat.sub_1_r. unfold index in Hkey.
    destruct (Split (dep_FQN dep) !! (length (Split (dep_FQN dep)) - 1)) as [k|];
      [by injection Hkey as ->|discriminate Hkey]. }
  destruct (index_lt _ _ Hok) as [v ->]. simpl. eauto.
Qed.

(** C2 (totality of the FQN walks) fails on the code: a recognised key
    in the last position of an odd number of segments makes each of the
    three walks read one element past the end of the slice. *)
Theorem C2_trailing_key_panics :
  bridgedModeMeta "organizations" = Panic IndexOutOfRange
  ∧ directModeAnnotations "organizations" = Panic IndexOutOfRange
  ∧ bridgedModeMeta "organizations/o/tenants" = Panic IndexOutOfRange
  ∧ parseNamespace demo_svcOdd = Panic IndexOutOfRange.
Proof. repeat split; reflexivity. Qed.

(** C7 (FQN round trip), for values that hold no slash.  The FQN
    "organizations/O/tenants/T/workspaces/W/trafficgroups/G" decomposes
    into the metadata with organization O, tenant T, workspace W and
    group G, and into the annotation map that has exactly the four
    "tsb.tetrate.io/" keys, bound to the same values. *)
Theorem C7_fqn_round_trip (O T W G : string) :
  no_slash O = true → no_slash T = true → no_slash W = true → no_slash G = true →
  bridgedModeMeta (groupFQN O T W G) =
    Val {| Name := ""; Namespace := ""; Organization := O; Tenant := T;
           Workspace := W; Group := G; Labels := ∅; Annotations := ∅ |}
  ∧ ∃ annotations,
      directModeAnnotations (groupFQN O T W G) = Val annotations
      ∧ dom annotations =
          ({["tsb.tetrate.io/organization"; "tsb.tetrate.io/tenant";
             "tsb.tetrate.io/workspace"; "tsb.tetrate.io/trafficGroup"]}
           : gset string)
      ∧ annotations !! "tsb.tetrate.io/organization" = Some O
      ∧ annotations !! "tsb.tetrate.io/tenant" = Some T
      ∧ annotations !! "tsb.tetrate.io/workspace" = Some W
      ∧ annotations !! "tsb.tetrate.io/trafficGroup" = Some G.
Proof.
  intros HO HT HW HG. split; [by apply bridgedModeMeta_groupFQN|].
  eexists. split; [by apply directModeAnnotations_groupFQN|].
  split; [|by repeat split].
  rewrite !dom_insert_L, dom_empty_L. set_solver.
Qed.

(** * Further properties of the pipeline *)

(** ** The service index, read off the input lists *)

Lemma metrics_fold_lookup (svc : Service) (metrics : list Metric)
    (m : gmap string Service) (key : string) :
  foldl (λ m metric, <[AggregationKey metric := svc]> m) m metrics !! key
  = if decide (key ∈ AggregationKey <$> metrics) then Some svc else m !! key.
Proof.
  revert m. induction metrics as [|x metrics IH]; intros m.
  - case_decide as Hin; [|done]. by apply elem_of_nil in Hin.
  - cbn [foldl]. rewrite IH, fmap_cons.
    destruct (decide (key ∈ AggregationKey <$> metrics)) as [Hin|Hnin].
    + rewrite decide_True; [done|]. by right.
    + destruct (decide (AggregationKey x = key)) as [<-|Hne].
      * rewrite lookup_insert_eq, decide_True; [done|]. by left.
      * rewrite lookup_insert_ne by done. rewrite decide_False; [done|].
        intros Hin. apply elem_of_cons in Hin as [Heq|Hin]; [by subst|done].
Qed.

Lemma servicesByTopKey_last (services : list Service) (key : string) :
  servicesByTopKey services !! key = last (exposing key services).
Proof.
  unfold exposing.
  induction services as [|svc services IH] using rev_ind.
  - apply lookup_empty.
  - unfold servicesByTopKey. rewrite foldl_app. cbn [foldl].
    rewrite metrics_fold_lookup. fold (servicesByTopKey services). rewrite IH.
    rewrite filter_app, filter_cons, filter_nil.
    destruct (decide (key ∈ AggregationKey <$> Metrics svc)).
    + by rewrite last_snoc.
    + by rewrite app_nil_r.
Qed.

Lemma idToTopKey_last (nodes : list Node) (id : string) :
  idToTopKey nodes !! id = node_AggregationKey <$> last (nodesWithID id nodes).
Proof.
  unfold nodesWithID.
  induction nodes as [|node nodes IH] using rev_ind.
  - apply lookup_empty.
  - unfold idToTopKey. rewrite foldl_app. cbn [foldl]. fold (idToTopKey nodes).
    rewrite filter_app, filter_cons, filter_nil.
    destruct (decide (node_ID node = id)) as [<-|Hne].
    + by rewrite lookup_insert_eq, last_snoc.
    + by rewrite lookup_insert_ne, app_nil_r.
Qed.

(** X1 (the service index, last write wins).  The key index sends an
    aggregation key to the last service of the list that exposes it among
    its metrics.  Whatever the order in which the intermediate map is
    walked, the composed index sends a node identifier to the last service
    exposing the aggregation key of the last node that carries the
    identifier; an identifier no node carries, or whose key no service
    exposes, is not in the index. *)
Theorem X1_service_index_last_wins (services : list Service) (nodes : list Node)
    (key id : string) :
  servicesByTopKey services !! key = last (exposing key services)
  ∧ servicesByID (servicesByTopKey services) (idToTopKey nodes) !! id
    = match last (nodesWithID id nodes) with
      | Some node => last (exposing (node_AggregationKey node) services)
      | None => None
      end.
Proof.
  split; [apply servicesByTopKey_last|].
  rewrite servicesByID_lookup, idToTopKey_last.
  destruct (last (nodesWithID id nodes)) as [node|]; simpl; [|done].
  apply servicesByTopKey_last.
Qed.

(** ** The call graph, read off the edges *)

(** X2 (Calls follow the edges).  When [buildGraph] returns a graph, its
    Calls are, in edge order, exactly the edges whose two ends resolve; the
    namespace lists of each Call are those parsed from its two services;
    and the collaborator was asked for the traffic group of the source
    service of each Call, once per Call and in that order. *)
Theorem X2_buildGraph_calls_follow_edges (top : TopologyResponse)
    (services : list Service) (w w' : World) (g : Graph) :
  buildGraph top services w = (Val (Some g), w') →
  (λ c, (SourceService c, TargetService c)) <$> graph_Calls g
  = omap (resolveEdge (servicesByID (servicesByTopKey services) (idToTopKey (Nodes top))))
         (Calls top)
  ∧ trace w' = trace w ++ ((λ c, EvLookupTrafficGroup (SourceService c)) <$> graph_Calls g)
  ∧ Forall (λ c, parseNamespace (SourceService c) = Val (SourceNamespaces c)
                 ∧ parseNamespace (TargetService c) = Val (TargetNamespaces c))
           (graph_Calls g).
Proof.
  unfold buildGraph. intros H.
  apply buildGraph_loop_shape in H as (new & Hg & Hends & Htr & Hns).
  simpl in Hg. by rewrite Hg.
Qed.

(** X3 (one more edge, one more Call).  When the edges so far were built
    into a graph and the next edge resolves at both ends, with namespaces
    that parse and a lookup that returns without error, the graph gains
    exactly one Call at its end, holding the two services, their
    namespaces and the group the lookup returned; a lookup that found no
    group gives a Call with a nil group and does not stop the build. *)
Theorem X3_buildGraph_appends_call (nodes : list Node) (pre : list TopCall)
    (e : TopCall) (services : list Service) (w w1 : World) (g1 : Graph)
    (source target : Service) (srcNamespaces targetNamespaces : list string)
    (tg : option TrafficGroup) (st' : St) :
  buildGraph {| Nodes := nodes; Calls := pre |} services w = (Val (Some g1), w1) →
  servicesByID (servicesByTopKey services) (idToTopKey nodes) !! call_Source e
    = Some source →
  servicesByID (servicesByTopKey services) (idToTopKey nodes) !! call_Target e
    = Some target →
  parseNamespace source = Val srcNamespaces →
  parseNamespace target = Val targetNamespaces →
  LookupTrafficGroup source (client w1) = (inr tg, st') →
  buildGraph {| Nodes := nodes; Calls := pre ++ [e] |} services w
  = (Val (Some {| graph_Calls :=
                    graph_Calls g1 ++
                    [ {| SourceService := source; SourceNamespaces := srcNamespaces;
                         SourceTrafficGroup := tg; TargetService := target;
                         TargetNamespaces := targetNamespaces |} ] |}),
     {| client := st'; trace := trace w1 ++ [EvLookupTrafficGroup source] |}).
Proof.
  unfold buildGraph; simpl Nodes; simpl Calls.
  intros Hpre Hs Ht Hsn Htn Hlk.
  rewrite (buildGraph_loop_app _ _ _ _ _ _ _ Hpre). simpl.
  rewrite Hs, Ht. unfold bind, lift. rewrite Hsn, Htn.
  unfold callLookupTrafficGroup. rewrite Hlk. reflexivity.
Qed.

(** X4 (a failed lookup ends the run in a panic).  Under the conditions
    in which [buildGraph] gives up on a lookup error, the run does not
    return that error: [generateSettings] receives the nil graph and
    dereferences it, after the failed lookup and before any traffic
    setting is fetched. *)
Theorem X4_lookup_error_panics_run (nodes : list Node) (pre post : list TopCall)
    (e : TopCall) (services : list Service) (w w1 : World) (g1 : Graph)
    (source target : Service) (srcNamespaces targetNamespaces : list string)
    (err : error) (st' : St) :
  buildGraph {| Nodes := nodes; Calls := pre |} services w = (Val (Some g1), w1) →
  servicesByID (servicesByTopKey services) (idToTopKey nodes) !! call_Source e
    = Some source →
  servicesByID (servicesByTopKey services) (idToTopKey nodes) !! call_Target e
    = Some target →
  parseNamespace source = Val srcNamespaces →
  parseNamespace target = Val targetNamespaces →
  LookupTrafficGroup source (client w1) = (inl err, st') →
  runPipeline {| Nodes := nodes; Calls := pre ++ e :: post |} services w
  = (Panic NilDereference,
     {| client := st'; trace := trace w1 ++ [EvLookupTrafficGroup source] |}).
Proof.
  unfold runPipeline, buildGraph; simpl Nodes; simpl Calls.
  intros Hpre Hs Ht Hsn Htn Hlk. unfold bind at 1.
  rewrite (buildGraph_loop_app _ _ _ _ _ _ _ Hpre). simpl.
  rewrite Hs, Ht. unfold bind, lift. rewrite Hsn, Htn.
  unfold callLookupTrafficGroup. rewrite Hlk. reflexivity.
Qed.

(** ** Calls without a traffic group, and collaborator failures *)

Lemma processCall_ungoverned (call : Call) (g : GenState) (w : World) :
  SourceTrafficGroup call = None → processCall call g w = (Val g, w).
Proof. intros H. unfold processCall. by rewrite H. Qed.

(** X5 (Calls without a traffic group are ignored).  Dropping every Call
    whose traffic group is nil changes neither the maps the pass
    accumulates, nor the requests it issues, nor the objects, error or
    panic [generateSettings] ends with. *)
Theorem X5_ungoverned_calls_ignored (calls : list Call) (g : GenState) (w : World) :
  processCalls calls g w
  = processCalls (filter (λ c, is_Some (SourceTrafficGroup c)) calls) g w
  ∧ generateSettings (Some {| graph_Calls := calls |}) w
    = generateSettings
        (Some {| graph_Calls := filter (λ c, is_Some (SourceTrafficGroup c)) calls |}) w.
Proof.
  assert (∀ g w, processCalls calls g w
                 = processCalls (filter (λ c, is_Some (SourceTrafficGroup c)) calls) g w)
    as Heq.
  { clear g w. unfold processCalls.
    induction calls as [|c calls IH]; intros g w; [done|].
    rewrite filter_cons. destruct (decide (is_Some (SourceTrafficGroup c))) as [Hs|Hn].
    - simpl. unfold bind. destruct (processCall c g w) as [[g1|?|?] w1]; [apply IH|done..].
    - simpl. unfold bind. rewrite processCall_ungoverned; [apply IH|].
      destruct (SourceTrafficGroup c); [|done]. exfalso. apply Hn. by eexists. }
  split; [apply Heq|].
  unfold generateSettings, bind, lift. simpl. by rewrite Heq.
Qed.

(** X6 (a failed fetch fails the pass).  When the pass reaches a bridged
    Call that has a source namespace and whose group has no TrafficSetting
    yet, and the collaborator answers the fetch for that group with an
    error, [generateSettings] returns that very error and no object; the
    failed fetch is the last request it issues. *)
Theorem X6_fetch_error_fails_pass (pre post : list Call) (call : Call)
    (tg : TrafficGroup) (meta : ObjectMeta) (ns : string) (rest : list string)
    (g1 : GenState) (w w1 : World) (err : error) (st' : St) :
  processCalls pre initState w = (Val g1, w1) →
  SourceTrafficGroup call = Some tg →
  ConfigMode tg ≠ "DIRECT" →
  bridgedModeMeta (tg_FQN tg) = Val meta →
  SourceNamespaces call = ns :: rest →
  trafficSettings g1 !! tg_FQN tg = None →
  GetTrafficSettings (tg_FQN tg) (client w1) = (inl err, st') →
  generateSettings (Some {| graph_Calls := pre ++ call :: post |}) w
  = (Fail err,
     {| client := st'; trace := trace w1 ++ [EvGetTrafficSettings (tg_FQN tg)] |}).
Proof.
  intros Hpre Htg Hmode Hmeta Hsrc Hnone Hget.
  unfold generateSettings, bind at 1, lift at 1. simpl.
  unfold bind at 1, processCalls. rewrite forM_app. unfold bind at 1.
  unfold processCalls in Hpre. rewrite Hpre. simpl. unfold bind at 1.
  unfold processCall. rewrite Htg.
  apply String.eqb_neq in Hmode. rewrite Hmode.
  unfold bind at 1, lift at 1. rewrite Hmeta. unfold bind at 1.
  unfold generateBridgedModeTrafficSettings. rewrite Hsrc. simpl.
  unfold bind at 1, bridgedNs. rewrite Htg. unfold bind at 1, lift at 1. simpl.
  unfold bind at 1, ensureTrafficSetting. rewrite Hnone.
  unfold bind at 1, callGetTrafficSettings. rewrite Hget. reflexivity.
Qed.

Lemma bridgedDest_nil_reachability (fqn ns d : string)
    (seen : gmap string (list string)) (ts : gmap string TrafficSetting)
    (t : TrafficSetting) :
  ts !! fqn = Some t → Reachability t = None → d ∉ seenOf seen ns →
  bridgedDest fqn ns d (seen, ts) = Panic NilDereference.
Proof.
  intros Ht Hr Hd. unfold bridgedDest, Contains.
  rewrite bool_decide_eq_false_2 by done.
  rewrite Ht. cbn [GetReachability]. rewrite Hr. cbn [GetHosts].
  rewrite bool_decide_eq_false_2 by apply not_elem_of_nil.
  cbn [negb]. unfold assignHosts. by rewrite Hr.
Qed.

(** X7 (a stored setting without reachability cannot be merged into).
    When the collaborator returns, for the group of a bridged Call, a
    TrafficSetting that has no reachability block, the first destination
    that is not yet seen for the Call's first source namespace makes the
    pass panic on a nil dereference, right after the fetch. *)
Theorem X7_missing_reachability_panics (call : Call) (tg : TrafficGroup)
    (meta : ObjectMeta) (ns d : string) (rest rest' : list string)
    (t : TrafficSetting) (g : GenState) (w : World) (st' : St) :
  SourceTrafficGroup call = Some tg →
  ConfigMode tg ≠ "DIRECT" →
  bridgedModeMeta (tg_FQN tg) = Val meta →
  SourceNamespaces call = ns :: rest →
  TargetNamespaces call = d :: rest' →
  d ∉ seenOf (seenNs g) ns →
  trafficSettings g !! tg_FQN tg = None →
  GetTrafficSettings (tg_FQN tg) (client w) = (inr (Some t), st') →
  Reachability t = None →
  processCall call g w
  = (Panic NilDereference,
     {| client := st'; trace := trace w ++ [EvGetTrafficSettings (tg_FQN tg)] |}).
Proof.
  intros Htg Hmode Hmeta Hsrc Htgt Hnot Hnone Hget Hreach.
  unfold processCall. rewrite Htg.
  apply String.eqb_neq in Hmode. rewrite Hmode.
  unfold bind at 1, lift at 1. rewrite Hmeta. unfold bind at 1.
  unfold generateBridgedModeTrafficSettings. rewrite Hsrc. simpl.
  unfold bind at 1, bridgedNs. rewrite Htg. unfold bind at 1, lift at 1. simpl.
  unfold bind at 1, ensureTrafficSetting. rewrite Hnone.
  unfold bind at 1, callGetTrafficSettings. rewrite Hget. unfold ret, lift.
  rewrite Htgt. cbn [forRes].
  rewrite (bridgedDest_nil_reachability _ _ _ _ _ t); [done| |done|].
  - apply lookup_insert_eq.
  - by rewrite seenOf_ensureSeen.
Qed.

(** ** One fetch per group *)

Lemma forM_inv_w {A S} (I : S → World → Prop) (body : A → S → M S) (l : list A) :
  (∀ x s w s' w', x ∈ l → I s w → body x s w = (Val s', w') → I s' w') →
  ∀ s w s' w', I s w → forM body l s w = (Val s', w') → I s' w'.
Proof.
  induction l as [|x l IH]; intros Hbody s w s' w' Hs H; simpl in H.
  - apply ret_Val in H as [-> ->]. exact Hs.
  - apply bind_Val in H as (s1 & w1 & H1 & H2).
    eapply IH; [| |exact H2].
    + intros y t u t' u' Hy. apply Hbody. by right.
    + eapply Hbody; [by left|exact Hs|exact H1].
Qed.

Lemma bridgedDest_dom (fqn ns d : string) (st st' : BridgedState) (f : string) :
  bridgedDest fqn ns d st = Val st' → is_Some (st'.2 !! f) ↔ is_Some (st.2 !! f).
Proof.
  destruct st as [seen ts], st' as [seen' ts']. intros H.
  apply bridgedDest_inv in H
    as [(_ & _ & ->)|(_ & _ & [(_ & ->)|(_ & t & t' & Ht & -> & _)])]; [done..|].
  simpl. destruct (decide (fqn = f)) as [<-|Hne].
  - rewrite lookup_insert_eq, Ht. split; by eexists.
  - by rewrite lookup_insert_ne.
Qed.

Lemma ensureTrafficSetting_fetched (w0 : World) (fqn : string) (meta : ObjectMeta)
    (ts ts' : gmap string TrafficSetting) (w w' : World) :
  FetchedOnce w0 ts w →
  ensureTrafficSetting fqn meta ts w = (Val ts', w') →
  FetchedOnce w0 ts' w'.
Proof.
  intros (fqns & Htr & Hnd & Hdom). unfold ensureTrafficSetting.
  destruct (ts !! fqn) as [t|] eqn:Ht.
  - intros H. apply ret_Val in H as [-> ->]. by exists fqns.
  - intros H. apply bind_Val in H as (r & w1 & H1 & H).
    apply ret_Val in H as [-> ->]. unfold callGetTrafficSettings in H1.
    destruct (GetTrafficSettings fqn (client w)) as [[err|settings] st1];
      [discriminate|].
    injection H1 as _ <-. exists (fqns ++ [fqn]). simpl. split; [|split].
    + by rewrite Htr, fmap_app, app_assoc.
    + apply NoDup_app. split; [done|]. split; [|apply NoDup_singleton].
      intros f Hf Hf'. apply list_elem_of_singleton in Hf' as ->.
      apply Hdom in Hf. rewrite Ht in Hf. by destruct Hf.
    + intros f. rewrite elem_of_app, list_elem_of_singleton, Hdom.
      destruct (decide (fqn = f)) as [<-|Hne].
      * rewrite lookup_insert_eq. split; [by eexists|by right].
      * rewrite lookup_insert_ne by done. split; [intros [?|?]; [done|by subst]|by left].
Qed.

Lemma bridged_fetched (w0 : World) (call : Call) (meta : ObjectMeta)
    (sources : list string) :
  ∀ st w st' w',
    FetchedOnce w0 st.2 w →
    forM (bridgedNs call meta) sources st w = (Val st', w') →
    FetchedOnce w0 st'.2 w'.
Proof.
  apply (forM_inv_w (λ st w, FetchedOnce w0 st.2 w)).
  intros ns [seen ts] w [seen' ts'] w' _ Hinv H.
  apply bridgedNs_Val in H as (tg & ts1 & _ & He & Hd).
  pose proof (ensureTrafficSetting_fetched _ _ _ _ _ _ _ Hinv He)
    as (fqns & Htr & Hnd & Hdom).
  exists fqns. split; [done|]. split; [done|]. intros f. rewrite Hdom. simpl.
  symmetry. revert Hd.
  apply (forRes_inv (λ st : BridgedState, is_Some (st.2 !! f) ↔ is_Some (ts1 !! f)));
    [|done].
  intros d s s' _ Hs Hb. by rewrite (bridgedDest_dom _ _ _ _ _ f Hb).
Qed.

Lemma processCalls_fetched (calls : list Call) (g : GenState) (w w' : World) :
  processCalls calls initState w = (Val g, w') →
  FetchedOnce w (trafficSettings g) w'.
Proof.
  apply (forM_inv_w (λ g w', FetchedOnce w (trafficSettings g) w')).
  - intros c s u s' u' _ Hinv H.
    destruct (SourceTrafficGroup c) as [tg|] eqn:Htg.
    + pose proof (processCall_frame _ _ _ _ _ _ Htg H) as Hf.
      unfold processCall in H. rewrite Htg in H.
      destruct (String.eqb (ConfigMode tg) "DIRECT").
      * destruct Hf as (-> & _ & ->). exact Hinv.
      * apply bind_Val in H as (m & w1 & H1 & H). apply lift_Val in H1 as [_ ->].
        apply bind_Val in H as (st & w2 & H2 & H).
        apply ret_Val in H as [-> ->]. simpl.
        by apply (bridged_fetched w c m (SourceNamespaces c)
                    (seenNs s, trafficSettings s) u st w2 Hinv H2).
    + rewrite processCall_ungoverned in H by done. by injection H as <- <-.
  - exists []. simpl. rewrite app_nil_r. split; [done|]. split; [apply NoDup_nil_2|].
    intros f. rewrite elem_of_nil, lookup_empty. split; [done|]. by intros [? ?].
Qed.

Lemma filter_all {A} (P : A → Prop) `{∀ x, Decision (P x)} (l : list A) :
  Forall P l → filter P l = l.
Proof.
  induction 1 as [|x l Hx _ IH]; [done|].
  rewrite filter_cons, decide_True by done. by rewrite IH.
Qed.

Lemma filter_none {A} (P : A → Prop) `{∀ x, Decision (P x)} (l : list A) :
  Forall (λ x, ¬ P x) l → filter P l = [].
Proof.
  induction 1 as [|x l Hx _ IH]; [done|].
  rewrite filter_cons, decide_False by done. by rewrite IH.
Qed.

Lemma keys_length {A} (m : gmap string A) (keys : list string) :
  NoDup keys → (∀ k, k ∈ keys ↔ is_Some (m !! k)) →
  length keys = length (rangeMap A m).
Proof.
  intros Hnd Hdom. rewrite (rangeMap_perm A m).
  rewrite <- (length_fmap fst (map_to_list m)). apply Permutation_length.
  apply list.NoDup_Permutation; [done|apply NoDup_fst_map_to_list|].
  intros k. rewrite Hdom, list_elem_of_fmap. split.
  - intros [x Hx]. exists (k, x). split; [done|]. by apply elem_of_map_to_list.
  - intros ([k' x] & -> & Hx). apply elem_of_map_to_list in Hx. by eexists.
Qed.

(** X8 (one fetch per TrafficSetting).  In a pass that returns, the only
    requests issued are fetches of traffic settings: exactly one for each
    group that ends up with a TrafficSetting, none twice and none for any
    other group; the output holds as many TrafficSetting objects as
    fetches were made. *)
Theorem X8_one_fetch_per_traffic_setting (graph : Graph) (w w' : World)
    (results : list (Object Any)) :
  generateSettings (Some graph) w = (Val results, w') →
  ∃ g fqns,
    processCalls (graph_Calls graph) initState w = (Val g, w')
    ∧ trace w' = trace w ++ (EvGetTrafficSettings <$> fqns)
    ∧ NoDup fqns
    ∧ (∀ f, f ∈ fqns ↔ is_Some (trafficSettings g !! f))
    ∧ length (filter (λ o, Kind o = TrafficSettingKind) results) = length fqns.
Proof.
  intros H. apply generateSettings_Val in H as (gr & g & [= <-] & Hg & He).
  destruct (processCalls_fetched _ _ _ _ Hg) as (fqns & Htr & Hnd & Hdom).
  exists g, fqns. split; [done|]. split; [done|]. split; [done|]. split; [done|].
  apply emit_shape in He as (scs & tss & -> & Hscs & Htss & _ & Hl).
  rewrite filter_app, length_app.
  rewrite (filter_none _ scs), (filter_all _ tss); [| done |].
  - simpl. rewrite Hl. symmetry. by apply keys_length.
  - eapply Forall_impl; [exact Hscs|]. intros o -> [=].
Qed.

(** ** Shape and growth of the accumulated objects *)

Lemma directDest_inv_full (ns d : string) (seen seen' : gmap string (list string))
    (scs scs' : gmap string Sidecar) :
  directDest ns d (seen, scs) = Val (seen', scs') →
  (d ∈ seenOf seen ns ∧ seen' = seen ∧ scs' = scs)
  ∨ ((d ∉ seenOf seen ns)
     ∧ seen' = <[ns := seenOf seen ns ++ [d]]> seen
     ∧ ∃ sc l ls, scs !! ns = Some sc ∧ Egress (sc_Spec sc) = l :: ls
         ∧ scs' = <[ns := {| sc_ObjectMeta := sc_ObjectMeta sc;
                            sc_Spec := {| Egress := {| Hosts := Hosts l ++ [hostOf d] |}
                                                    :: ls |} |}]> scs).
Proof.
  unfold directDest, Contains. case_bool_decide as Hin.
  - intros [= <- <-]. by left.
  - intros H. apply res_bind_Val in H as (sc' & Happ & [= <- <-]).
    right. split; [done|]. split; [done|].
    unfold appendEgressHost in Happ.
    destruct (scs !! ns) as [sc|]; [|discriminate].
    destruct (Egress (sc_Spec sc)) as [|l ls] eqn:He; [discriminate|].
    injection Happ as <-. by exists sc, l, ls.
Qed.

Lemma bridgedDest_inv_full (fqn ns d : string) (seen seen' : gmap string (list string))
    (ts ts' : gmap string TrafficSetting) :
  bridgedDest fqn ns d (seen, ts) = Val (seen', ts') →
  ts' = ts
  ∨ ∃ t r, ts !! fqn = Some t ∧ Reachability t = Some r
           ∧ ts' = <[fqn := setHosts (rs_Hosts r ++ [hostOf d]) t r]> ts.
Proof.
  unfold bridgedDest, Contains. case_bool_decide as Hin.
  - intros [= <- <-]. by left.
  - case_bool_decide as Hh; simpl.
    + intros [= <- <-]. by left.
    + intros H. apply res_bind_Val in H as (t' & Hass & [= <- <-]).
      right. unfold assignHosts in Hass.
      destruct (ts !! fqn) as [t|] eqn:Ht; [|discriminate].
      destruct (Reachability t) as [r|] eqn:Hr; [|discriminate].
      injection Hass as <-. exists t, r. simpl. by rewrite Hr.
Qed.

Lemma extendsSidecar_refl (sc : Sidecar) : extendsSidecar sc sc.
Proof. split; [done|]. split; [done|]. exists []. by rewrite app_nil_r. Qed.

Lemma extendsSidecar_trans (a b c : Sidecar) :
  extendsSidecar a b → extendsSidecar b c → extendsSidecar a c.
Proof.
  intros (Hm1 & Ht1 & m1 & Hh1) (Hm2 & Ht2 & m2 & Hh2).
  split; [congruence|]. split; [congruence|].
  exists (m1 ++ m2). by rewrite Hh2, Hh1, app_assoc.
Qed.

Lemma extendsSetting_refl (t : TrafficSetting) : extendsSetting t t.
Proof. split; [done|]. split; [done|]. exists []. by rewrite app_nil_r. Qed.

Lemma extendsSetting_trans (a b c : TrafficSetting) :
  extendsSetting a b → extendsSetting b c → extendsSetting a c.
Proof.
  intros (Hf1 & Hm1 & m1 & Hh1) (Hf2 & Hm2 & m2 & Hh2).
  split; [congruence|]. split; [congruence|].
  exists (m1 ++ m2). by rewrite Hh2, Hh1, app_assoc.
Qed.

Lemma Grows_refl (a : Acc) : Grows a a.
Proof.
  split.
  - intros ns sc H. exists sc. split; [done|apply extendsSidecar_refl].
  - intros fqn t H. exists t. split; [done|apply extendsSetting_refl].
Qed.

Lemma Grows_trans (a b c : Acc) : Grows a b → Grows b c → Grows a c.
Proof.
  intros [Hs1 Ht1] [Hs2 Ht2]. split.
  - intros ns sc H. destruct (Hs1 _ _ H) as (sc1 & H1 & E1).
    destruct (Hs2 _ _ H1) as (sc2 & H2 & E2).
    exists sc2. split; [done|by eapply extendsSidecar_trans].
  - intros fqn t H. destruct (Ht1 _ _ H) as (t1 & H1 & E1).
    destruct (Ht2 _ _ H1) as (t2 & H2 & E2).
    exists t2. split; [done|by eapply extendsSetting_trans].
Qed.

Lemma Grows_insert_sidecar (seen seen' : gmap string (list string))
    (scs : gmap string Sidecar) (ts : gmap string TrafficSetting)
    (ns : string) (sc' : Sidecar) :
  (∀ sc, scs !! ns = Some sc → extendsSidecar sc sc') →
  Grows (seen, scs, ts) (seen', <[ns := sc']> scs, ts).
Proof.
  intros Hext. split; simpl.
  - intros k sc H. destruct (decide (ns = k)) as [<-|Hne].
    + rewrite lookup_insert_eq. exists sc'. split; [done|by apply Hext].
    + rewrite lookup_insert_ne by done. exists sc. split; [done|apply extendsSidecar_refl].
  - intros fqn t H. exists t. split; [done|apply extendsSetting_refl].
Qed.

Lemma Grows_insert_setting (seen seen' : gmap string (list string))
    (scs : gmap string Sidecar) (ts : gmap string TrafficSetting)
    (fqn : string) (t' : TrafficSetting) :
  (∀ t, ts !! fqn = Some t → extendsSetting t t') →
  Grows (seen, scs, ts) (seen', scs, <[fqn := t']> ts).
Proof.
  intros Hext. split; simpl.
  - intros k sc H. exists sc. split; [done|apply extendsSidecar_refl].
  - intros k t H. destruct (decide (fqn = k)) as [<-|Hne].
    + rewrite lookup_insert_eq. exists t'. split; [done|by apply Hext].
    + rewrite lookup_insert_ne by done. exists t. split; [done|apply extendsSetting_refl].
Qed.

Lemma Grows_seen (seen seen' : gmap string (list string))
    (scs : gmap string Sidecar) (ts : gmap string TrafficSetting) :
  Grows (seen, scs, ts) (seen', scs, ts).
Proof.
  split; simpl.
  - intros k sc H. exists sc. split; [done|apply extendsSidecar_refl].
  - intros k t H. exists t. split; [done|apply extendsSetting_refl].
Qed.

Lemma step_Grows (mode : Branch) (allowed : string → string → Prop) (a a' : Acc) :
  step mode allowed a a' → Grows a a'.
Proof.
  intros H. step_cases H.
  - apply Grows_seen.
  - unfold ensureSidecar. destruct (scs !! ns) eqn:Hns; [apply Grows_refl|].
    apply Grows_insert_sidecar. intros sc Hsc. congruence.
  - apply directDest_inv_full in Hd
      as [(_ & -> & ->)|(_ & -> & sc & l & ls & Hsc & He & ->)]; [apply Grows_refl|].
    apply Grows_insert_sidecar. intros sc0 Hsc0.
    rewrite Hsc in Hsc0. injection Hsc0 as <-.
    split; [done|]. split; [by rewrite He|].
    exists [hostOf d0]. unfold sidecarHosts. simpl. by rewrite He.
  - apply Grows_insert_setting. intros t0 Ht0. congruence.
  - apply bridgedDest_inv_full in Hd as [->|(t & r & Ht & Hr & ->)].
    + apply Grows_seen.
    + apply Grows_insert_setting. intros t0 Ht0.
      rewrite Ht in Ht0. injection Ht0 as <-.
      split; [done|]. split; [by rewrite Hr|].
      exists [hostOf d0]. simpl. by rewrite Hr.
Qed.

Lemma steps_Grows (R : relation Acc) (a a' : Acc) :
  (∀ b b', R b b' → Grows b b') → rtc R a a' → Grows a a'.
Proof.
  intros HR H. induction H as [|a b c Hab _ IH]; [apply Grows_refl|].
  eapply Grows_trans; [by apply HR|exact IH].
Qed.

Lemma step_Shaped (mode : Branch) (allowed : string → string → Prop) (a a' : Acc) :
  step mode allowed a a' → Shaped a.1.2 → Shaped a'.1.2.
Proof.
  unfold Shaped. intros H. step_cases H; intros Hinv k sc0 Hk; try by eapply Hinv.
  - unfold ensureSidecar in Hk. destruct (scs !! ns) eqn:Hns; [by eapply Hinv|].
    destruct (decide (ns = k)) as [<-|Hne].
    + rewrite lookup_insert_eq in Hk. injection Hk as <-.
      repeat split. exists []. by rewrite app_nil_r.
    + rewrite lookup_insert_ne in Hk by done. by eapply Hinv.
  - apply directDest_inv_full in Hd
      as [(_ & -> & ->)|(_ & -> & sc & l & ls & Hsc & He & ->)]; [by eapply Hinv|].
    destruct (decide (ns = k)) as [<-|Hne].
    + rewrite lookup_insert_eq in Hk. injection Hk as <-.
      destruct (Hinv _ _ Hsc) as (Hn & Hnsp & Hl & merged & Heg).
      repeat split; try done. rewrite He in Heg. injection Heg as -> ->.
      exists (merged ++ [hostOf d0]). by rewrite (app_assoc baseHosts).
    + rewrite lookup_insert_ne in Hk by done. by eapply Hinv.
Qed.

Lemma processCalls_Shaped (calls : list Call) (g : GenState) (w w' : World) :
  processCalls calls initState w = (Val g, w') → Shaped (sidecars g).
Proof.
  intros H. apply steps_any in H.
  apply (rtc_preserved (anystep (λ _ _, True)) (λ a, Shaped a.1.2))
    with (a := acc initState) (a' := acc g); [|done|].
  - intros a a' [mode Hs]. by eapply step_Shaped.
  - intros ns sc Hns. simpl in Hns. by rewrite lookup_empty in Hns.
Qed.

Lemma processCalls_Grows (calls : list Call) (g g' : GenState) (w w' : World) :
  processCalls calls g w = (Val g', w') → Grows (acc g) (acc g').
Proof.
  intros H. apply steps_any in H.
  apply (steps_Grows (anystep (λ _ _, True))); [|done].
  intros b b' [mode Hs]. by eapply step_Grows.
Qed.

(** X9 (what a Sidecar looks like).  After a pass that returns, the
    Sidecar kept for a namespace is named "reachability-sidecar", lives in
    that namespace, has no label and has exactly one egress listener, whose
    host list starts with the two base hosts. *)
Theorem X9_sidecar_shape (calls : list Call) (g : GenState) (w w' : World)
    (ns : string) (sc : Sidecar) :
  processCalls calls initState w = (Val g, w') →
  sidecars g !! ns = Some sc →
  k8s_Name (sc_ObjectMeta sc) = "reachability-sidecar"
  ∧ k8s_Namespace (sc_ObjectMeta sc) = ns
  ∧ k8s_Labels (sc_ObjectMeta sc) = ∅
  ∧ ∃ merged,
      Egress (sc_Spec sc)
      = [ {| Hosts := ["istio-system/*"; "xcp-multicluster/*"] ++ merged |} ].
Proof.
  intros H Hsc. exact (processCalls_Shaped _ _ _ _ H ns sc Hsc).
Qed.

(** X10 (objects are kept and only extended).  Processing further Calls
    never removes a Sidecar or a TrafficSetting and never rewrites one: a
    Sidecar keeps its metadata, so its annotations stay those of the group
    of the Call that created it, and its other listeners; a TrafficSetting
    keeps its FQN and reachability mode; in both, hosts are only appended
    at the end of the list. *)
Theorem X10_objects_only_extended (calls : list Call) (g g' : GenState)
    (w w' : World) :
  processCalls calls g w = (Val g', w') →
  (∀ ns sc, sidecars g !! ns = Some sc →
     ∃ sc', sidecars g' !! ns = Some sc'
       ∧ sc_ObjectMeta sc' = sc_ObjectMeta sc
       ∧ tail (Egress (sc_Spec sc')) = tail (Egress (sc_Spec sc))
       ∧ ∃ more, sidecarHosts sc' = sidecarHosts sc ++ more)
  ∧ (∀ fqn t, trafficSettings g !! fqn = Some t →
       ∃ t', trafficSettings g' !! fqn = Some t'
         ∧ Fqn t' = Fqn t
         ∧ Mode <$> Reachability t' = Mode <$> Reachability t
         ∧ ∃ more, GetHosts (Reachability t') = GetHosts (Reachability t) ++ more).
Proof.
  intros H. exact (processCalls_Grows _ _ _ _ _ H).
Qed.

(** ** The direct branch does not fail *)

Lemma forRes_total_inv {A S} (I : S → Prop) (body : A → S → Res S) (l : list A) :
  (∀ x s, x ∈ l → I s → ∃ s', body x s = Val s' ∧ I s') →
  ∀ s, I s → ∃ s', forRes body l s = Val s' ∧ I s'.
Proof.
  induction l as [|x l IH]; intros Hbody s Hs; simpl.
  - by exists s.
  - destruct (Hbody x s) as (s1 & -> & Hs1); [by left|done|]. simpl.
    apply IH; [|done]. intros y t Hy. apply Hbody. by right.
Qed.

Lemma directDest_total (ns d : string) (seen : gmap string (list string))
    (scs : gmap string Sidecar) :
  Shaped scs → is_Some (scs !! ns) →
  ∃ st', directDest ns d (seen, scs) = Val st'
         ∧ Shaped st'.2 ∧ is_Some (st'.2 !! ns).
Proof.
  intros Hsh [sc Hsc].
  assert (∃ st', directDest ns d (seen, scs) = Val st') as [[seen' scs'] Heq].
  { unfold directDest. destruct (Contains (seenOf seen ns) d); [by eexists|].
    rewrite Hsc. unfold appendEgressHost.
    destruct (Hsh _ _ Hsc) as (_ & _ & _ & merged & ->). by eexists. }
  exists (seen', scs'). split; [done|]. split.
  - apply (step_Shaped Direct (λ _ _, True) (seen, scs, ∅) (seen', scs', ∅)); [|done].
    by eapply step_directDest.
  - apply directDest_inv in Heq
      as [(_ & _ & ->)|(_ & _ & sc0 & sc' & _ & -> & _)]; simpl.
    + by eexists.
    + rewrite lookup_insert_eq. by eexists.
Qed.

Lemma directNs_total (call : Call) (annotations : gmap string string) (ns : string)
    (seen : gmap string (list string)) (scs : gmap string Sidecar) :
  Shaped scs →
  ∃ st', directNs call annotations ns (seen, scs) = Val st' ∧ Shaped st'.2.
Proof.
  intros Hsh. unfold directNs.
  destruct (forRes_total_inv (λ st : DirectState, Shaped st.2 ∧ is_Some (st.2 !! ns))
              (directDest ns) (TargetNamespaces call))
    with (s := (ensureSeen ns seen, ensureSidecar ns annotations scs))
    as (st' & Heq & Hsh' & _).
  - intros d [seen1 scs1] _ [Hs1 Hns1]. by apply directDest_total.
  - split.
    + apply (step_Shaped Direct (λ _ _, True) (seen, scs, ∅)
               (seen, ensureSidecar ns annotations scs, ∅)); [|done].
      by apply step_ensureSidecar.
    + simpl. unfold ensureSidecar. destruct (scs !! ns) eqn:Hns.
      * rewrite Hns. by eexists.
      * rewrite lookup_insert_eq. by eexists.
  - by exists st'.
Qed.

Lemma direct_total (call : Call) (annotations : gmap string string)
    (seen : gmap string (list string)) (scs : gmap string Sidecar) :
  Shaped scs →
  ∃ st', generateDirectModeSidecars call seen scs annotations = Val st'.
Proof.
  intros Hsh. unfold generateDirectModeSidecars.
  destruct (forRes_total_inv (λ st : DirectState, Shaped st.2)
              (directNs call annotations) (SourceNamespaces call))
    with (s := (seen, scs)) as (st' & Heq & _); [|done|by exists st'].
  intros ns [seen1 scs1] _ Hs1. by apply directNs_total.
Qed.

(** X11 (a "DIRECT" Call cannot make the pass fail).  At any point of a
    pass, processing a Call whose group is in "DIRECT" mode and whose group
    FQN decomposes into annotations returns: it finds the Sidecar and the
    egress listener it appends to, returns no error and issues no request. *)
Theorem X11_direct_call_returns (pre : list Call) (call : Call) (tg : TrafficGroup)
    (annotations : gmap string string) (g : GenState) (w0 w : World) :
  processCalls pre initState w0 = (Val g, w) →
  SourceTrafficGroup call = Some tg →
  ConfigMode tg = "DIRECT" →
  directModeAnnotations (tg_FQN tg) = Val annotations →
  ∃ g', processCall call g w = (Val g', w).
Proof.
  intros Hpre Htg Hmode Hann.
  apply processCalls_Shaped in Hpre.
  destruct (direct_total call annotations (seenNs g) (sidecars g) Hpre) as [st' Hst].
  unfold processCall. rewrite Htg, Hmode. simpl.
  unfold bind, lift, ret. rewrite Hann, Hst. by eexists.
Qed.

(** ** Where the hosts come from *)

Lemma Justified_mono (allowed allowed' : string → string → Prop) (a : Acc) :
  (∀ s d, allowed s d → allowed' s d) → Justified allowed a → Justified allowed' a.
Proof.
  intros Hsub [Hsc Hts]. split.
  - intros s h Hin. destruct (Hsc s h Hin) as [?|(d & -> & Hd)]; [by left|].
    right. exists d. auto.
  - intros f h Hin.
    destruct (Hts f h Hin) as [?|[?|(s & d & -> & Hd)]]; [by left|by right; left|].
    right; right. exists s, d. auto.
Qed.

Lemma step_Justified (mode : Branch) (allowed : string → string → Prop) (a a' : Acc) :
  step mode allowed a a' → Justified allowed a → Justified allowed a'.
Proof.
  intros H. step_cases H; intros [Hsc Hts]; try done.
  - split; [|done]. intros s h. simpl. unfold ensureSidecar.
    destruct (scs !! ns) eqn:Hns; [apply Hsc|].
    rewrite egressHosts_insert. case_decide; [|apply Hsc]. by left.
  - apply directDest_inv in Hd
      as [(_ & -> & ->)|(_ & -> & sc & sc' & Hscns & -> & Hh)]; [done|].
    split; [|done]. intros s h. simpl. rewrite egressHosts_insert.
    case_decide as Hns; [subst s|apply Hsc].
    rewrite Hh, elem_of_app, list_elem_of_singleton. intros [Hin| ->].
    + apply (Hsc ns). simpl. unfold egressHosts. by rewrite Hscns.
    + right. by exists d0.
  - split; [done|]. intros f h. simpl. rewrite reachabilityHosts_insert.
    case_decide as Hf; [subst f|apply Hts].
    destruct Hprov as [[meta ->]|(st & st' & Hget)]; [by left|].
    intros Hin. right; left. by exists st, st', t.
  - apply bridgedDest_inv in Hd
      as [(_ & _ & ->)|(_ & _ & [(_ & ->)|(_ & t & t' & Ht & -> & Hh)])]; [done..|].
    split; [done|]. intros f h. simpl. rewrite reachabilityHosts_insert.
    case_decide as Hf; [subst f|apply Hts].
    rewrite Hh, elem_of_app, list_elem_of_singleton. intros [Hin| ->].
    + by apply Hts.
    + right; right. by exists ns, d0.
Qed.

Lemma processCalls_Justified (calls : list Call) (g : GenState) (w w' : World) :
  processCalls calls initState w = (Val g, w') → Justified (pairOf calls) (acc g).
Proof.
  intros H. apply steps_processCalls in H.
  apply (rtc_preserved (anystep (pairOf calls)) (Justified (pairOf calls)))
    with (a := acc initState); [|done|].
  - intros a a' [mode Hs]. by eapply step_Justified.
  - split; simpl.
    + intros s h. unfold egressHosts. rewrite lookup_empty. by intros ?%elem_of_nil.
    + intros f h. unfold reachabilityHosts. rewrite lookup_empty.
      by intros ?%elem_of_nil.
Qed.

(** X12 (no host without a reason).  After a pass that returns, every
    host of a Sidecar for namespace [s] is one of the two base hosts or
    "d/*" for a destination [d] that some governed Call reaches from [s];
    every host of a TrafficSetting is a base host, a host of a setting the
    collaborator returned for that group, or "d/*" for a destination of
    some governed Call. *)
Theorem X12_hosts_are_justified (calls : list Call) (g : GenState) (w w' : World) :
  processCalls calls initState w = (Val g, w') →
  (∀ s h, h ∈ egressHosts (sidecars g) s →
     h ∈ ["istio-system/*"; "xcp-multicluster/*"]
     ∨ ∃ d call tg, h = hostOf d ∧ call ∈ calls ∧ SourceTrafficGroup call = Some tg
                    ∧ s ∈ SourceNamespaces call ∧ d ∈ TargetNamespaces call)
  ∧ (∀ fqn h, h ∈ reachabilityHosts (trafficSettings g) fqn →
       h ∈ ["istio-system/*"; "xcp-multicluster/*"]
       ∨ (∃ st st' t, GetTrafficSettings fqn st = (inr (Some t), st')
                      ∧ h ∈ GetHosts (Reachability t))
       ∨ ∃ s d call tg, h = hostOf d ∧ call ∈ calls
                        ∧ SourceTrafficGroup call = Some tg
                        ∧ s ∈ SourceNamespaces call ∧ d ∈ TargetNamespaces call).
Proof.
  intros H. destruct (processCalls_Justified _ _ _ _ H) as [Hsc Hts]. split.
  - intros s h Hin. destruct (Hsc s h Hin) as [?|(d & -> & c & tg & ?)]; [by left|].
    right. by exists d, c, tg.
  - intros f h Hin.
    destruct (Hts f h Hin) as [?|[?|(s & d & -> & c & tg & ?)]];
      [by left|by right; left|].
    right; right. by exists s, d, c, tg.
Qed.

(** ** Passes in "DIRECT" mode only *)

Lemma steps_processCalls_direct (calls : list Call) :
  (∀ c tg, c ∈ calls → SourceTrafficGroup c = Some tg → ConfigMode tg = "DIRECT") →
  ∀ g w g' w',
    processCalls calls g w = (Val g', w') →
    rtc (step Direct (λ _ _, True)) (acc g) (acc g').
Proof.
  unfold processCalls.
  induction calls as [|c calls IH]; intros Hall g w g' w' H; simpl in H.
  - apply ret_Val in H as [-> _]. apply rtc_refl.
  - apply bind_Val in H as (g1 & w1 & H1 & H2).
    eapply rtc_trans; [|eapply IH; [|exact H2]].
    + apply (steps_processCall (λ _ _, True)) in H1; [|done].
      destruct (SourceTrafficGroup c) as [tg|] eqn:Htg; [|subst; apply rtc_refl].
      rewrite (Hall c tg) in H1; [exact H1|by left|done].
    + intros c' tg Hc'. apply Hall. by right.
Qed.

Lemma processCalls_records (calls : list Call) (s d : string) :
  ∀ g w g' w',
    processCalls calls g w = (Val g', w') →
    pairOf calls s d → d ∈ seenOf (seenNs g') s.
Proof.
  induction calls as [|c calls IH]; intros g w g' w' H (c0 & tg & Hc0 & Htg & Hs & Hd).
  - by apply elem_of_nil in Hc0.
  - unfold processCalls in H. simpl in H.
    apply bind_Val in H as (g1 & w1 & H1 & H2).
    apply elem_of_cons in Hc0 as [->|Hc0].
    + eapply processCalls_seen_mono; [exact H2|]. by eapply processCall_records.
    + eapply IH; [exact H2|]. by exists c0, tg.
Qed.

(** X13 (a "DIRECT"-only pass lists exactly what is called).  When every
    governed Call is in "DIRECT" mode and the pass returns, the Sidecar of
    a namespace [s] holds a host if and only if it is one of the two base
    hosts or "d/*" for a destination [d] that some governed Call reaches
    from [s]. *)
Theorem X13_direct_pass_exact_hosts (calls : list Call) (g : GenState)
    (w w' : World) (s : string) (sc : Sidecar) :
  (∀ c tg, c ∈ calls → SourceTrafficGroup c = Some tg → ConfigMode tg = "DIRECT") →
  processCalls calls initState w = (Val g, w') →
  sidecars g !! s = Some sc →
  ∀ h, h ∈ sidecarHosts sc
       ↔ h ∈ ["istio-system/*"; "xcp-multicluster/*"]
         ∨ ∃ d call tg, h = hostOf d ∧ call ∈ calls
                        ∧ SourceTrafficGroup call = Some tg
                        ∧ s ∈ SourceNamespaces call ∧ d ∈ TargetNamespaces call.
Proof.
  intros Hall H Hsc h. split.
  - intros Hin. destruct (processCalls_Justified _ _ _ _ H) as [Hj _].
    destruct (Hj s h) as [?|(d & -> & c & tg & ?)]; [|by left|].
    + simpl. unfold egressHosts. by rewrite Hsc.
    + right. by exists d, c, tg.
  - intros [Hbase|(d & c & tg & -> & Hc & Htg & Hs & Hd)].
    + destruct (processCalls_Shaped _ _ _ _ H s sc Hsc) as (_ & _ & _ & merged & He).
      unfold sidecarHosts. rewrite He.
      change (h ∈ baseHosts ++ merged). apply elem_of_app. by left.
    + assert (d ∈ seenOf (seenNs g) s) as Hseen.
      { eapply processCalls_records; [exact H|]. by exists c, tg. }
      assert (DirectMerged s d (acc g)) as Hm.
      { apply (rtc_preserved (step Direct (λ _ _, True)) (DirectMerged s d))
          with (a := acc initState).
        - intros a a'. apply step_DirectMerged.
        - by apply (steps_processCalls_direct calls Hall _ _ _ _ H).
        - unfold DirectMerged. simpl. rewrite lookup_empty.
          unfold seenOf. rewrite lookup_empty. apply not_elem_of_nil. }
      unfold DirectMerged in Hm. simpl in Hm. rewrite Hsc in Hm. auto.
Qed.


(** ** Which objects exist *)

Lemma forM_exists {A S} (P : S → Prop) (Q : A → Prop) (body : A → S → M S)
    (l : list A) :
  (∀ x s w s' w', body x s w = (Val s', w') → (P s' ↔ P s ∨ Q x)) →
  ∀ s w s' w', forM body l s w = (Val s', w') → (P s' ↔ P s ∨ ∃ x, x ∈ l ∧ Q x).
Proof.
  intros Hbody. induction l as [|x l IH]; intros s w s' w' H; simpl in H.
  - apply ret_Val in H as [-> _]. split; [by left|].
    by intros [?|(x & ?%elem_of_nil & _)].
  - apply bind_Val in H as (s1 & w1 & H1 & H2).
    rewrite (IH _ _ _ _ H2), (Hbody _ _ _ _ _ H1). split.
    + intros [[?|?]|(y & Hy & ?)]; [by left|right; exists x|right; exists y].
      * split; [by left|done].
      * split; [by right|done].
    + intros [?|(y & [->|Hy]%elem_of_cons & ?)];
        [by left; left|by left; right|right; by exists y].
Qed.

Lemma forRes_exists {A S} (P : S → Prop) (Q : A → Prop) (body : A → S → Res S)
    (l : list A) :
  (∀ x s s', body x s = Val s' → (P s' ↔ P s ∨ Q x)) →
  ∀ s s', forRes body l s = Val s' → (P s' ↔ P s ∨ ∃ x, x ∈ l ∧ Q x).
Proof using.
  intros Hbody. induction l as [|x l IH]; intros s s' H; simpl in H.
  - injection H as <-. split; [by left|].
    by intros [?|(x & ?%elem_of_nil & _)].
  - apply res_bind_Val in H as (s1 & H1 & H2).
    rewrite (IH _ _ H2), (Hbody _ _ _ H1). split.
    + intros [[?|?]|(y & Hy & ?)]; [by left|right; exists x|right; exists y].
      * split; [by left|done].
      * split; [by right|done].
    + intros [?|(y & [->|Hy]%elem_of_cons & ?)];
        [by left; left|by left; right|right; by exists y].
Qed.

Lemma directDest_dom (ns d : string) (st st' : DirectState) (k : string) :
  directDest ns d st = Val st' → is_Some (st'.2 !! k) ↔ is_Some (st.2 !! k).
Proof using.
  destruct st as [seen scs], st' as [seen' scs']. intros H.
  apply directDest_inv in H as [(_ & _ & ->)|(_ & _ & sc & sc' & Hsc & -> & _)];
    [done|].
  simpl. destruct (decide (ns = k)) as [<-|Hne].
  - rewrite lookup_insert_eq, Hsc. split; by eexists.
  - by rewrite lookup_insert_ne.
Qed.

Lemma ensureSidecar_dom (ns : string) (annotations : gmap string string)
    (scs : gmap string Sidecar) (k : string) :
  is_Some (ensureSidecar ns annotations scs !! k) ↔ is_Some (scs !! k) ∨ k = ns.
Proof using.
  unfold ensureSidecar. destruct (scs !! ns) eqn:Hns.
  - split; [by left|]. intros [?| ->]; [done|]. rewrite Hns. by eexists.
  - destruct (decide (ns = k)) as [<-|Hne].
    + rewrite lookup_insert_eq. split; [by right|by eexists].
    + rewrite lookup_insert_ne by done. split; [by left|]. by intros [?| ->].
Qed.

Lemma directNs_dom (call : Call) (annotations : gmap string string) (k ns : string)
    (st st' : DirectState) :
  directNs call annotations ns st = Val st' →
  is_Some (st'.2 !! k) ↔ is_Some (st.2 !! k) ∨ k = ns.
Proof using.
  destruct st as [seen scs]. unfold directNs. intros H. simpl.
  rewrite <- (ensureSidecar_dom ns annotations). revert H.
  apply (forRes_inv (λ st : DirectState,
           is_Some (st.2 !! k) ↔ is_Some (ensureSidecar ns annotations scs !! k)));
    [|done].
  intros d s s' _ Hs Hb. by rewrite (directDest_dom _ _ _ _ k Hb).
Qed.

Lemma ensureTrafficSetting_dom (fqn : string) (meta : ObjectMeta)
    (ts ts' : gmap string TrafficSetting) (w w' : World) (f : string) :
  ensureTrafficSetting fqn meta ts w = (Val ts', w') →
  is_Some (ts' !! f) ↔ is_Some (ts !! f) ∨ f = fqn.
Proof.
  unfold ensureTrafficSetting. destruct (ts !! fqn) as [t|] eqn:Ht.
  - intros H. apply ret_Val in H as [-> _]. split; [by left|].
    intros [?| ->]; [done|]. rewrite Ht. by eexists.
  - intros H. apply bind_Val in H as (r & w1 & _ & H). apply ret_Val in H as [-> _].
    destruct (decide (fqn = f)) as [<-|Hne].
    + rewrite lookup_insert_eq. split; [by right|by eexists].
    + rewrite lookup_insert_ne by done. split; [by left|]. by intros [?| ->].
Qed.

Lemma bridgedNs_dom (call : Call) (meta : ObjectMeta) (f ns : string)
    (st : BridgedState) (w : World) (st' : BridgedState) (w' : World) :
  bridgedNs call meta ns st w = (Val st', w') →
  is_Some (st'.2 !! f)
  ↔ is_Some (st.2 !! f) ∨ ∃ tg, SourceTrafficGroup call = Some tg ∧ tg_FQN tg = f.
Proof.
  destruct st as [seen ts], st' as [seen' ts']. intros H.
  apply bridgedNs_Val in H as (tg & ts1 & Htg & He & Hd). simpl.
  assert (is_Some (ts' !! f) ↔ is_Some (ts1 !! f)) as ->.
  { revert Hd.
    apply (forRes_inv (λ st : BridgedState, is_Some (st.2 !! f) ↔ is_Some (ts1 !! f)));
      [|done].
    intros d s s' _ Hs Hb. by rewrite (bridgedDest_dom _ _ _ _ _ f Hb). }
  rewrite (ensureTrafficSetting_dom _ _ _ _ _ _ f He). split.
  - intros [?| ->]; [by left|right]. by exists tg.
  - intros [?|(tg' & Htg' & <-)]; [by left|right].
    rewrite Htg in Htg'. by injection Htg' as ->.
Qed.

Lemma processCall_dom (call : Call) (g g' : GenState) (w w' : World) (ns fqn : string) :
  processCall call g w = (Val g', w') →
  (is_Some (sidecars g' !! ns) ↔ is_Some (sidecars g !! ns) ∨ makesSidecar ns call)
  ∧ (is_Some (trafficSettings g' !! fqn)
     ↔ is_Some (trafficSettings g !! fqn) ∨ makesSetting fqn call).
Proof.
  unfold processCall, makesSidecar, makesSetting, bridgedBy.
  destruct (SourceTrafficGroup call) as [tg|] eqn:Htg.
  - destruct (String.eqb_spec (ConfigMode tg) "DIRECT") as [Hmode|Hmode]; intros H.
    + apply bind_Val in H as (a & w1 & H1 & H). apply lift_Val in H1 as [_ ->].
      apply bind_Val in H as (st & w2 & H2 & H). apply lift_Val in H2 as [H2 ->].
      apply ret_Val in H as [-> _]. simpl. split.
      * unfold generateDirectModeSidecars in H2.
        rewrite (forRes_exists (λ st : DirectState, is_Some (st.2 !! ns)) (λ s, ns = s)
                   _ _ (λ s st0 st0', directNs_dom call a ns s st0 st0') _ _ H2).
        simpl. split.
        -- intros [?|(s & Hs & ->)]; [by left|right]. by exists tg.
        -- intros [?|(tg' & _ & _ & Hs)]; [by left|right]. by exists ns.
      * split; [by left|]. intros [?|[(tg' & [= <-] & Hne & _) _]]; done.
    + apply bind_Val in H as (m & w1 & H1 & H). apply lift_Val in H1 as [_ ->].
      apply bind_Val in H as (st & w2 & H2 & H).
      apply ret_Val in H as [-> _]. simpl. split.
      * split; [by left|]. intros [?|(tg' & [= <-] & He & _)]; done.
      * unfold generateBridgedModeTrafficSettings in H2.
        rewrite (forM_exists (λ st : BridgedState, is_Some (st.2 !! fqn))
                   (λ _, ∃ tg, SourceTrafficGroup call = Some tg ∧ tg_FQN tg = fqn)
                   _ _ (λ s st0 w0 st0' w0', bridgedNs_dom call m fqn s st0 w0 st0' w0')
                   _ _ _ _ H2).
        simpl. split.
        -- intros [?|(s & Hs & tg' & Htg' & <-)]; [by left|right].
           rewrite Htg in Htg'. injection Htg' as <-. split; [by exists tg|].
           intros Hnil. rewrite Hnil in Hs. by apply elem_of_nil in Hs.
        -- intros [?|[(tg' & Htg' & _ & <-) Hne]]; [by left|right].
           destruct (SourceNamespaces call) as [|s l]; [done|].
           exists s. split; [by left|]. exists tg'. by rewrite Htg.
  - intros H. apply ret_Val in H as [-> _].
    split; (split; [by left|]); [intros [?|(tg & ? & _)]|intros [?|[(tg & ? & _) _]]];
      done.
Qed.

Lemma processCalls_sidecar_dom (calls : list Call) (g : GenState) (w w' : World)
    (ns : string) :
  processCalls calls initState w = (Val g, w') →
  is_Some (sidecars g !! ns) ↔ ∃ call, call ∈ calls ∧ makesSidecar ns call.
Proof.
  intros H.
  rewrite (forM_exists (λ g, is_Some (sidecars g !! ns)) (makesSidecar ns) _ _
             (λ c g0 w0 g1 w1 Hc, proj1 (processCall_dom c g0 g1 w0 w1 ns "" Hc))
             _ _ _ _ H).
  simpl. rewrite lookup_empty. split; [|by right]. by intros [[? [=]]|?].
Qed.

Lemma processCalls_setting_dom (calls : list Call) (g : GenState) (w w' : World)
    (fqn : string) :
  processCalls calls initState w = (Val g, w') →
  is_Some (trafficSettings g !! fqn) ↔ ∃ call, call ∈ calls ∧ makesSetting fqn call.
Proof.
  intros H.
  rewrite (forM_exists (λ g, is_Some (trafficSettings g !! fqn)) (makesSetting fqn)
             _ _
             (λ c g0 w0 g1 w1 Hc, proj2 (processCall_dom c g0 g1 w0 w1 "" fqn Hc))
             _ _ _ _ H).
  simpl. rewrite lookup_empty. split; [|by right]. by intros [[? [=]]|?].
Qed.

(** X14 (which objects exist).  After a pass that returns, there is a
    Sidecar for a namespace exactly when some Call governed by a group in
    "DIRECT" mode has it as a source namespace, and a TrafficSetting for a
    group exactly when some Call governed by that group in another mode
    has at least one source namespace. *)
Theorem X14_objects_exist_iff_called (calls : list Call) (g : GenState)
    (w w' : World) :
  processCalls calls initState w = (Val g, w') →
  (∀ ns, is_Some (sidecars g !! ns)
         ↔ ∃ call tg, call ∈ calls ∧ SourceTrafficGroup call = Some tg
                      ∧ ConfigMode tg = "DIRECT" ∧ ns ∈ SourceNamespaces call)
  ∧ (∀ fqn, is_Some (trafficSettings g !! fqn)
            ↔ ∃ call tg, call ∈ calls ∧ SourceTrafficGroup call = Some tg
                         ∧ ConfigMode tg ≠ "DIRECT" ∧ tg_FQN tg = fqn
                         ∧ SourceNamespaces call ≠ []).
Proof.
  intros H. split.
  - intros ns. rewrite (processCalls_sidecar_dom _ _ _ _ ns H). split.
    + intros (c & Hc & tg & ?). by exists c, tg.
    + intros (c & tg & Hc & ?). exists c. split; [done|]. by exists tg.
  - intros fqn. rewrite (processCalls_setting_dom _ _ _ _ fqn H). split.
    + intros (c & Hc & (tg & ? & ? & ?) & ?). by exists c, tg.
    + intros (c & tg & Hc & ? & ? & ? & ?). exists c. split; [done|].
      split; [by exists tg|done].
Qed.


(** ** The Sidecar objects of the result *)

Lemma sidecarObjects_content (l : list (string * Sidecar)) (acc r : list (Object Any)) :
  forRes (λ (e : string * Sidecar) results,
            let* o := sidecarObject e.2 in Val (results ++ [o])) l acc = Val r →
  ∃ new, r = acc ++ new
         ∧ Forall2 (λ (e : string * Sidecar) o, sidecarObject e.2 = Val o) l new.
Proof.
  revert acc. induction l as [|[k s] l IH]; intros acc H; simpl in H.
  - injection H as <-. exists []. by rewrite app_nil_r.
  - apply res_bind_Val in H as (acc1 & H1 & H2).
    apply res_bind_Val in H1 as (o & Ho & [= <-]).
    apply IH in H2 as (new & -> & Hnew).
    exists (o :: new). rewrite <- app_assoc. split; [done|]. by constructor.
Qed.

Lemma sidecarNamespaces_objects (l : list (string * Sidecar)) (new : list (Object Any)) :
  Forall (λ e : string * Sidecar, SidecarShape e.1 e.2) l →
  Forall2 (λ (e : string * Sidecar) o, sidecarObject e.2 = Val o) l new →
  sidecarNamespaces new = l.*1.
Proof.
  intros Hsh H. induction H as [|[k sc] o l new Ho _ IH]; [done|].
  apply Forall_cons in Hsh as [(_ & Hns & _) Hsh].
  unfold sidecarObject in Ho. apply res_bind_Val in Ho as (any & _ & [= <-]).
  unfold sidecarNamespaces. cbn [omap list_omap Kind Metadata Namespace fmap option_fmap
                                 option_map].
  rewrite decide_True by done. simpl. f_equal; [done|]. by apply IH.
Qed.

Lemma sidecarNamespaces_other (tss : list (Object Any)) :
  Forall (λ o, Kind o = TrafficSettingKind) tss → sidecarNamespaces tss = [].
Proof.
  induction 1 as [|o tss Ho _ IH]; [done|].
  unfold sidecarNamespaces. cbn [omap list_omap]. rewrite Ho.
  rewrite decide_False by done. exact IH.
Qed.

(** X15 (one Sidecar object per namespace).  In the result of a pass that
    returns, every object of the Sidecar kind carries a namespace, no two
    of them the same one, and these namespaces are exactly the source
    namespaces of the Calls governed by a group in "DIRECT" mode. *)
Theorem X15_one_sidecar_object_per_namespace (graph : Graph) (w w' : World)
    (results : list (Object Any)) :
  generateSettings (Some graph) w = (Val results, w') →
  NoDup (sidecarNamespaces results)
  ∧ length (sidecarNamespaces results)
    = length (filter (λ o, Kind o = IstioSidecarKind) results)
  ∧ ∀ ns, ns ∈ sidecarNamespaces results
          ↔ ∃ call tg, call ∈ graph_Calls graph ∧ SourceTrafficGroup call = Some tg
                       ∧ ConfigMode tg = "DIRECT" ∧ ns ∈ SourceNamespaces call.
Proof.
  intros H. apply generateSettings_Val in H as (gr & g & [= <-] & Hg & He).
  unfold emit, sidecarObjects, trafficSettingObjects in He.
  apply res_bind_Val in He as (r1 & H1 & H2).
  pose proof (sidecarObjects_kinds _ _ _ H1) as (scs0 & Hscs0 & Hkinds & _).
  apply sidecarObjects_content in H1 as (scs & -> & Hscs).
  apply app_inv_head in Hscs0 as <-.
  apply trafficSettingObjects_kinds in H2 as (tss & -> & Htss & _).
  assert (sidecarNamespaces (scs ++ tss) = (rangeMap _ (sidecars g)).*1) as Hnss.
  { unfold sidecarNamespaces. rewrite omap_app.
    fold (sidecarNamespaces scs). fold (sidecarNamespaces tss).
    rewrite (sidecarNamespaces_other tss Htss), app_nil_r.
    apply sidecarNamespaces_objects; [|done].
    apply Forall_forall. intros [k sc] Hin. rewrite rangeMap_perm in Hin.
    apply elem_of_map_to_list in Hin. by apply (processCalls_Shaped _ _ _ _ Hg). }
  simpl. rewrite Hnss. split; [|split].
  - rewrite (rangeMap_perm _ (sidecars g)). apply NoDup_fst_map_to_list.
  - rewrite filter_app, (filter_all _ scs), (filter_none _ tss).
    + rewrite app_nil_r, length_fmap. by eapply Forall2_length.
    + eapply Forall_impl; [exact Htss|]. intros o -> [=].
    + exact Hkinds.
  - intros ns.
    assert (ns ∈ (rangeMap _ (sidecars g)).*1 ↔ is_Some (sidecars g !! ns)) as ->.
    { rewrite (rangeMap_perm _ (sidecars g)), list_elem_of_fmap. split.
      - intros ([k sc] & -> & Hin). apply elem_of_map_to_list in Hin. by eexists.
      - intros [sc Hsc]. exists (ns, sc). split; [done|].
        by apply elem_of_map_to_list. }
    rewrite (processCalls_sidecar_dom _ _ _ _ ns Hg). split.
    + intros (c & Hc & tg & ?). by exists c, tg.
    + intros (c & tg & Hc & ?). exists c. split; [done|]. by exists tg.
Qed.


(** ** The metadata cache *)

Lemma processCall_meta (call : Call) (g g' : GenState) (w w' : World) :
  processCall call g w = (Val g', w') →
  trafficMeta g' = trafficMeta g
  ∧ (∀ fqn, ¬ bridgedBy fqn call)
  ∨ ∃ tg meta, SourceTrafficGroup call = Some tg ∧ ConfigMode tg ≠ "DIRECT"
               ∧ bridgedModeMeta (tg_FQN tg) = Val meta
               ∧ trafficMeta g' = <[tg_FQN tg := meta]> (trafficMeta g).
Proof.
  unfold processCall, bridgedBy.
  destruct (SourceTrafficGroup call) as [tg|] eqn:Htg.
  - destruct (String.eqb_spec (ConfigMode tg) "DIRECT") as [Hmode|Hmode]; intros H.
    + apply bind_Val in H as (a & w1 & H1 & H). apply lift_Val in H1 as [_ ->].
      apply bind_Val in H as (st & w2 & H2 & H). apply lift_Val in H2 as [_ ->].
      apply ret_Val in H as [-> _]. left. split; [done|].
      by intros fqn (tg' & [= <-] & Hne & _).
    + apply bind_Val in H as (m & w1 & H1 & H). apply lift_Val in H1 as [H1 ->].
      apply bind_Val in H as (st & w2 & H2 & H).
      apply ret_Val in H as [-> _]. right. by exists tg, m.
  - intros H. apply ret_Val in H as [-> _]. left. split; [done|].
    by intros fqn (tg' & [=] & _).
Qed.

Lemma processCalls_meta_dom (calls : list Call) (g : GenState) (w w' : World)
    (f : string) :
  processCalls calls initState w = (Val g, w') →
  is_Some (trafficMeta g !! f) ↔ ∃ call, call ∈ calls ∧ bridgedBy f call.
Proof.
  intros H.
  assert (∀ c s u s' u', processCall c s u = (Val s', u') →
            is_Some (trafficMeta s' !! f) ↔ is_Some (trafficMeta s !! f) ∨ bridgedBy f c)
    as Hbody.
  { intros c s u s' u' Hc.
    apply processCall_meta in Hc
      as [[-> Hno]|(tg & meta & Htg & Hmode & Hmeta & ->)].
    - split; [by left|]. intros [?|Hb]; [done|]. by destruct (Hno f).
    - destruct (decide (tg_FQN tg = f)) as [<-|Hne].
      + rewrite lookup_insert_eq. split; [|by eexists].
        intros _. right. by exists tg.
      + rewrite lookup_insert_ne by done. split; [by left|].
        intros [?|(tg' & Htg' & _ & Hf)]; [done|].
        rewrite Htg in Htg'. by injection Htg' as <-. }
  rewrite (forM_exists (λ g, is_Some (trafficMeta g !! f)) (bridgedBy f) processCall
             calls Hbody _ _ _ _ H).
  simpl. rewrite lookup_empty. split; [|by right]. by intros [[? [=]]|?].
Qed.

Lemma processCalls_meta_sound (calls : list Call) (g : GenState) (w w' : World) :
  processCalls calls initState w = (Val g, w') →
  ∀ f m, trafficMeta g !! f = Some m → bridgedModeMeta f = Val m.
Proof.
  apply (forM_inv_w
           (λ g _, ∀ f m, trafficMeta g !! f = Some m → bridgedModeMeta f = Val m)).
  - intros c s u s' u' _ Hinv Hc f m.
    apply processCall_meta in Hc
      as [[-> _]|(tg & meta & _ & _ & Hmeta & ->)]; [apply Hinv|].
    destruct (decide (tg_FQN tg = f)) as [<-|Hne].
    + rewrite lookup_insert_eq. by intros [= <-].
    + rewrite lookup_insert_ne by done. apply Hinv.
  - intros f m. simpl. by rewrite lookup_empty.
Qed.

(** X16 (the metadata cache).  After a pass that returns, the cache of
    TrafficSetting metadata has an entry exactly for the groups that
    govern some Call in a mode other than "DIRECT", with or without source
    namespaces; the entry of a group is the decomposition of its own FQN;
    and every group that has a TrafficSetting has an entry. *)
Theorem X16_metadata_cache (calls : list Call) (g : GenState) (w w' : World) :
  processCalls calls initState w = (Val g, w') →
  (∀ fqn, is_Some (trafficMeta g !! fqn)
          ↔ ∃ call tg, call ∈ calls ∧ SourceTrafficGroup call = Some tg
                       ∧ ConfigMode tg ≠ "DIRECT" ∧ tg_FQN tg = fqn)
  ∧ (∀ fqn meta, trafficMeta g !! fqn = Some meta → bridgedModeMeta fqn = Val meta)
  ∧ (∀ fqn, is_Some (trafficSettings g !! fqn) → is_Some (trafficMeta g !! fqn)).
Proof.
  intros H. split; [|split].
  - intros fqn. rewrite (processCalls_meta_dom _ _ _ _ fqn H). split.
    + intros (c & Hc & tg & ?). by exists c, tg.
    + intros (c & tg & Hc & ?). exists c. split; [done|]. by exists tg.
  - by apply (processCalls_meta_sound _ _ _ _ H).
  - intros fqn Hts. apply (processCalls_meta_dom _ _ _ _ fqn H).
    apply (processCalls_setting_dom _ _ _ _ fqn H) in Hts as (c & Hc & Hb & _).
    by exists c.
Qed.


(** ** The namespace resolver on arbitrary FQNs *)

Lemma stride2_elem (n i : nat) : i ∈ stride2 n ↔ Nat.Even i ∧ i < n.
Proof using.
  unfold stride2. rewrite list_elem_of_fmap. split.
  - intros (k & -> & Hk). apply elem_of_seq in Hk as [_ Hk].
    rewrite Nat.div2_div in Hk. split; [by exists k|].
    pose proof (Nat.Div0.mul_div_le (n + 1) 2). lia.
  - intros [[k ->] Hlt]. exists k. split; [done|]. apply elem_of_seq.
    rewrite Nat.div2_div. split; [lia|].
    change (S k ≤ Nat.div (n + 1) 2). apply Nat.div_le_lower_bound; lia.
Qed.

Lemma parseNamespace_body_elem (fqnParts : list string) (ns : string) (i : nat)
    (results results' : list string) :
  parseNamespace_body fqnParts i results = Val results' →
  ns ∈ results'
  ↔ ns ∈ results
    ∨ (fqnParts !! i = Some "namespaces" ∧ fqnParts !! (i + 1) = Some ns).
Proof using.
  unfold parseNamespace_body, index.
  destruct (fqnParts !! i) as [key|]; [simpl|discriminate].
  destruct (String.eqb_spec key "namespaces") as [->|Hne].
  - destruct (fqnParts !! (i + 1)) as [v|]; [simpl|discriminate].
    intros [= <-]. rewrite elem_of_app, list_elem_of_singleton. split.
    + intros [?| ->]; [by left|by right].
    + intros [?|[_ [= ->]]]; [by left|by right].
  - intros [= <-]. split; [by left|]. intros [?|[[= ?] _]]; done.
Qed.

(** X17 (what the namespace resolver collects).  When it returns, the
    list holds exactly the segments that follow a "namespaces" segment
    standing at an even position of the FQN of one of the deployments of
    the service. *)
Theorem X17_parseNamespace_collects (service : Service) (results : list string) :
  parseNamespace service = Val results →
  ∀ ns, ns ∈ results
        ↔ ∃ dep i, dep ∈ ServiceDeployments service ∧ Nat.Even i
                   ∧ Split (dep_FQN dep) !! i = Some "namespaces"
                   ∧ Split (dep_FQN dep) !! (i + 1) = Some ns.
Proof using.
  intros H ns. unfold parseNamespace in H.
  assert (∀ dep s s', parseNamespace_dep dep s = Val s' →
            ns ∈ s'
            ↔ ns ∈ s
              ∨ ∃ i, Nat.Even i ∧ Split (dep_FQN dep) !! i = Some "namespaces"
                     ∧ Split (dep_FQN dep) !! (i + 1) = Some ns) as Hbody.
  { intros dep s s' Hdep. unfold parseNamespace_dep in Hdep.
    rewrite (forRes_exists (λ results, ns ∈ results)
               (λ i, Split (dep_FQN dep) !! i = Some "namespaces"
                     ∧ Split (dep_FQN dep) !! (i + 1) = Some ns)
               _ _ (parseNamespace_body_elem (Split (dep_FQN dep)) ns) _ _ Hdep).
    split; (intros [?|(i & Hi & Hkey & Hv)]; [by left|right]).
    - apply stride2_elem in Hi as [He _]. by exists i.
    - exists i. split; [|done]. apply stride2_elem. split; [done|].
      by apply lookup_lt_Some in Hkey. }
  rewrite (forRes_exists (λ results, ns ∈ results) _ _ _ Hbody _ _ H). split.
  - intros [?%elem_of_nil|(dep & Hdep & i & ?)]; [done|]. by exists dep, i.
  - intros (dep & i & Hdep & ?). right. exists dep. split; [done|]. by exists i.
Qed.


(** ** The two decompositions of one FQN agree *)

Lemma forRes_rel {X A B} (R : A → B → Prop) (body1 : X → A → Res A)
    (body2 : X → B → Res B) (l : list X) :
  (∀ x a b, R a b → resRel R (body1 x a) (body2 x b)) →
  ∀ a b, R a b → resRel R (forRes body1 l a) (forRes body2 l b).
Proof using.
  intros Hbody. induction l as [|x l IH]; intros a b Hab; simpl; [done|].
  specialize (Hbody x a b Hab).
  destruct (body1 x a) as [a'|e1|p1], (body2 x b) as [b'|e2|p2]; simpl in *;
    try done.
  by apply IH.
Qed.

Lemma decomposition_bodies_agree (fqnParts : list string) (i : nat)
    (meta : ObjectMeta) (annotations : gmap string string) :
  sameDecomposition meta annotations →
  resRel sameDecomposition (bridgedModeMeta_body fqnParts i meta)
    (directModeAnnotations_body fqnParts i annotations).
Proof using.
  intros (Ho & Ht & Hw & Hg & Hrest).
  unfold bridgedModeMeta_body, directModeAnnotations_body.
  unfold index. destruct (fqnParts !! i) as [key|]; simpl; [|done].
  repeat (destruct (String.eqb key _);
          [destruct (fqnParts !! (i + 1)) as [v|]; simpl; [|done];
           unfold sameDecomposition; simpl;
           rewrite ?lookup_insert_eq, ?lookup_insert_ne by done; done|]).
  done.
Qed.

(** X18 (the two decompositions agree).  On every FQN the decomposition
    into metadata and the decomposition into annotations end the same
    way: either both panic, or both return and the four annotations hold
    the organization, tenant, workspace and group of the metadata, a field
    that was never set being the empty string on one side and a missing
    annotation on the other. *)
Theorem X18_decompositions_agree (fqn : string) :
  match bridgedModeMeta fqn, directModeAnnotations fqn with
  | Val meta, Val annotations =>
      Organization meta = default "" (annotations !! "tsb.tetrate.io/organization")
      ∧ Tenant meta = default "" (annotations !! "tsb.tetrate.io/tenant")
      ∧ Workspace meta = default "" (annotations !! "tsb.tetrate.io/workspace")
      ∧ Group meta = default "" (annotations !! "tsb.tetrate.io/trafficGroup")
      ∧ Name meta = "" ∧ Namespace meta = ""
      ∧ Labels meta = ∅ ∧ Annotations meta = ∅
  | Panic p, Panic q => p = q
  | _, _ => False
  end.
Proof using.
  pose proof (forRes_rel sameDecomposition (bridgedModeMeta_body (Split fqn))
                (directModeAnnotations_body (Split fqn))
                (stride2 (length (Split fqn)))
                (decomposition_bodies_agree (Split fqn)) emptyMeta ∅) as H.
  unfold bridgedModeMeta, directModeAnnotations.
  destruct (forRes (bridgedModeMeta_body _) _ _) as [meta|e1|p1],
           (forRes (directModeAnnotations_body _) _ _) as [ann|e2|p2];
    simpl in H; by apply H.
Qed.


(** ** The server address *)

Lemma substring_all (s : string) : String.substring 0 (String.length s) s = s.
Proof using. induction s as [|c s IH]; [done|]. simpl. by rewrite IH. Qed.

Lemma HasPrefix_app (p h : string) : HasPrefix (String.app p h) p = true.
Proof using.
  unfold HasPrefix. induction p as [|c p IH]; simpl; [by destruct h|].
  by destruct (Ascii.ascii_dec c c).
Qed.

Lemma HasPrefix_split (s p : string) :
  HasPrefix s p = true →
  s = String.app p
        (String.substring (String.length p) (String.length s - String.length p) s).
Proof using.
  unfold HasPrefix. revert s. induction p as [|c p IH]; intros s H.
  - simpl. by rewrite Nat.sub_0_r, substring_all.
  - destruct s as [|c' s]; [done|]. simpl in H.
    destruct (Ascii.ascii_dec c c') as [<-|]; [|done].
    simpl. rewrite (IH s H) at 1. reflexivity.
Qed.

Lemma TrimPrefix_app (p h : string) : TrimPrefix (String.app p h) p = h.
Proof using.
  unfold TrimPrefix. rewrite HasPrefix_app.
  induction p as [|c p IH]; simpl.
  - by rewrite Nat.sub_0_r, substring_all.
  - exact IH.
Qed.

Lemma TrimPrefix_none (s p : string) : HasPrefix s p = false → TrimPrefix s p = s.
Proof using. unfold TrimPrefix. by intros ->. Qed.

Lemma TrimPrefix_split (s p : string) :
  HasPrefix s p = true → s = String.app p (TrimPrefix s p).
Proof using.
  intros H. unfold TrimPrefix. rewrite H. by apply HasPrefix_split.
Qed.

(** X19 (the protocol is optional).  An address that does not itself
    begin with a protocol is what the client is built with, whether it is
    given bare, after "https://" or after "http://". *)
Theorem X19_server_protocol_optional (host : string) :
  host ≠ "" →
  HasPrefix host "https://" = false →
  HasPrefix host "http://" = false →
  PreRunE_server host = Val host
  ∧ PreRunE_server (String.app "https://" host) = Val host
  ∧ PreRunE_server (String.app "http://" host) = Val host.
Proof using.
  intros Hne Hs Hp. unfold PreRunE_server. split; [|split].
  - destruct (String.eqb_spec host "") as [|_]; [done|].
    by rewrite (TrimPrefix_none host "https://"), TrimPrefix_none.
  - change (Val (TrimPrefix (TrimPrefix (String.app "https://" host) "https://")
                   "http://") = Val host).
    by rewrite TrimPrefix_app, TrimPrefix_none.
  - change (Val (TrimPrefix (TrimPrefix (String.app "http://" host) "https://")
                   "http://") = Val host).
    rewrite (TrimPrefix_none (String.app "http://" host) "https://") by done.
    by rewrite TrimPrefix_app.
Qed.

(** X20 (the address can still end up empty).  The check for an empty
    address comes before the protocol is stripped: the client is built
    with the empty address exactly for the inputs "https://", "http://"
    and "https://http://". *)
Theorem X20_server_empty_after_strip (server : string) :
  PreRunE_server server = Val ""
  ↔ server = "https://" ∨ server = "http://" ∨ server = "https://http://".
Proof using.
  split; [|by intros [->|[->| ->]]].
  unfold PreRunE_server. destruct (String.eqb_spec server "") as [|Hne]; [done|].
  intros [= H].
  destruct (HasPrefix server "https://") eqn:Hs.
  - apply TrimPrefix_split in Hs. revert H Hs.
    generalize (TrimPrefix server "https://"). intros h H Hs.
    destruct (HasPrefix h "http://") eqn:Hp.
    + apply TrimPrefix_split in Hp. rewrite H in Hp. subst h. by right; right.
    + rewrite TrimPrefix_none in H by done. subst h. by left.
  - rewrite (TrimPrefix_none server "https://") in H by done.
    destruct (HasPrefix server "http://") eqn:Hp.
    + apply TrimPrefix_split in Hp. rewrite H in Hp. by right; left.
    + by rewrite TrimPrefix_none in H.
Qed.

End Pipeline.

(** * The pipeline at work on the small topology *)

Lemma demo_rangeMap_perm (A : Type) (m : gmap string A) :
  demo_rangeMap A m ≡ₚ map_to_list m.
Proof. reflexivity. Defined.

Lemma C8_unresolved_edge_skipped_witness :
  buildGraph demo_lookup_direct demo_rangeMap
    {| Nodes := demo_nodes; Calls := [demo_edge] ++ demo_edge_unknown :: [demo_edge] |}
    demo_services {| client := tt; trace := [] |}
  = buildGraph demo_lookup_direct demo_rangeMap
      {| Nodes := demo_nodes; Calls := [demo_edge] ++ [demo_edge] |}
      demo_services {| client := tt; trace := [] |}
  ∧ buildGraph demo_lookup_direct demo_rangeMap
      {| Nodes := demo_nodes; Calls := [demo_edge] ++ demo_edge_unknown :: [demo_edge] |}
      demo_services {| client := tt; trace := [] |}
    = (Val (Some {| graph_Calls :=
                      [demo_call "DIRECT" demo_g1 ["ns-a"] ["ns-b"]] ++
                      [demo_call "DIRECT" demo_g1 ["ns-a"] ["ns-b"]] |}),
       {| client := tt;
          trace := [EvLookupTrafficGroup demo_svcA] ++ [EvLookupTrafficGroup demo_svcA] |}).
Proof.
  destruct (C8_unresolved_edge_skipped demo_lookup_direct demo_rangeMap demo_nodes
              [demo_edge] [demo_edge] demo_edge_unknown demo_services
              {| client := tt; trace := [] |}) as (Heq & _ & _ & Hnext).
  { left. vm_compute. reflexivity. }
  split; [exact Heq|].
  apply (Hnext {| graph_Calls := [demo_call "DIRECT" demo_g1 ["ns-a"] ["ns-b"]] |}
           {| client := tt; trace := [EvLookupTrafficGroup demo_svcA] |}
           demo_edge demo_svcA demo_svcB ["ns-a"] ["ns-b"]
           (Some (demo_group "DIRECT" demo_g1)) tt);
    vm_compute; reflexivity.
Defined.

Lemma C1_lookup_error_returns_nil_witness :
  buildGraph demo_lookup_second_fails demo_rangeMap
    {| Nodes := demo_nodes; Calls := [demo_edge] ++ demo_edge :: [demo_edge] |}
    demo_services {| client := 0; trace := [] |}
  = (Val None,
     {| client := 2;
        trace := [EvLookupTrafficGroup demo_svcA; EvLookupTrafficGroup demo_svcA] |}).
Proof.
  apply (C1_lookup_error_returns_nil demo_lookup_second_fails demo_rangeMap demo_nodes
           [demo_edge] [demo_edge] demo_edge demo_services
           {| client := 0; trace := [] |}
           {| client := 1; trace := [EvLookupTrafficGroup demo_svcA] |}
           {| graph_Calls :=
                [ {| SourceService := demo_svcA; SourceNamespaces := ["ns-a"];
                     SourceTrafficGroup := Some (demo_group "DIRECT" demo_g1);
                     TargetService := demo_svcB; TargetNamespaces := ["ns-b"] |} ] |}
           demo_svcA demo_svcB ["ns-a"] ["ns-b"] "lookup failed" 2);
    vm_compute; reflexivity.
Defined.

(** C1 as stated fails: with a lookup that returns an error, [buildGraph]
    returns the nil graph and not an error, and the run that follows
    dereferences it. *)
Lemma C1_counterexample_nil_not_error :
  buildGraph demo_lookup_fails demo_rangeMap
    {| Nodes := demo_nodes; Calls := [demo_edge] |} demo_services
    {| client := tt; trace := [] |}
  = (Val None, {| client := tt; trace := [EvLookupTrafficGroup demo_svcA] |})
  ∧ ¬ (∃ err,
         (buildGraph demo_lookup_fails demo_rangeMap
            {| Nodes := demo_nodes; Calls := [demo_edge] |} demo_services
            {| client := tt; trace := [] |}).1 = Fail err)
  ∧ (runPipeline demo_lookup_fails demo_settings_none demo_FromMeta demo_anypbNew
       demo_rangeMap {| Nodes := demo_nodes; Calls := [demo_edge] |} demo_services
       {| client := tt; trace := [] |}).1 = Panic NilDereference.
Proof.
  split; [vm_compute; reflexivity|]. split; [|vm_compute; reflexivity].
  intros [err H]. vm_compute in H. discriminate H.
Defined.

Lemma C9_sidecars_before_traffic_settings_witness :
  ∃ results w',
    generateSettings demo_settings_none demo_FromMeta demo_anypbNew demo_rangeMap
      (Some {| graph_Calls := [ demo_call "BRIDGED" demo_g2 ["ns-c"] ["ns-b"];
                                demo_call "DIRECT" demo_g1 ["ns-a"] ["ns-b"] ] |})
      {| client := tt; trace := [] |} = (Val results, w')
    ∧ ∀ i j oi oj,
        results !! i = Some oi → results !! j = Some oj →
        Kind oi = IstioSidecarKind → Kind oj = TrafficSettingKind → i < j.
Proof.
  destruct (succeeds_Val
              (generateSettings demo_settings_none demo_FromMeta demo_anypbNew
                 demo_rangeMap
                 (Some {| graph_Calls := [ demo_call "BRIDGED" demo_g2 ["ns-c"] ["ns-b"];
                                           demo_call "DIRECT" demo_g1 ["ns-a"] ["ns-b"] ] |})
                 {| client := tt; trace := [] |}))
    as (results & w' & H); [vm_compute; reflexivity|].
  exists results, w'. split; [exact H|].
  exact (proj2 (C9_sidecars_before_traffic_settings demo_settings_none demo_FromMeta
                  demo_anypbNew demo_rangeMap _ _ _ _ H)).
Defined.

Lemma C10_no_source_namespace_witness :
  (processCall demo_settings_none demo_FromMeta
     (demo_call "BRIDGED" demo_g1 [] ["ns-b"]) initState
     {| client := tt; trace := [] |}).2 = {| client := tt; trace := [] |}
  ∧ ∃ g', processCall demo_settings_none demo_FromMeta
            (demo_call "BRIDGED" demo_g1 [] ["ns-b"]) initState
            {| client := tt; trace := [] |}
          = (Val g', {| client := tt; trace := [] |}).
Proof.
  destruct (C10_no_source_namespace demo_settings_none demo_FromMeta
              (demo_call "BRIDGED" demo_g1 [] ["ns-b"]) (demo_group "BRIDGED" demo_g1)
              initState {| client := tt; trace := [] |} eq_refl eq_refl)
    as (Hw & _ & Hret).
  split; [exact Hw|].
  eapply Hret.
  - apply directModeAnnotations_groupFQN; reflexivity.
  - apply bridgedModeMeta_groupFQN; reflexivity.
Defined.

Lemma C5_mode_dispatch_witness :
  (∃ g' w',
     processCall demo_settings_none demo_FromMeta
       (demo_call "DIRECT" demo_g1 ["ns-a"] ["ns-b"]) initState
       {| client := tt; trace := [] |} = (Val g', w')
     ∧ trafficSettings g' = ∅ ∧ w' = {| client := tt; trace := [] |})
  ∧ (∃ g' w',
       processCall demo_settings_none demo_FromMeta
         (demo_call "BRIDGED" demo_g2 ["ns-a"] ["ns-b"]) initState
         {| client := tt; trace := [] |} = (Val g', w')
       ∧ sidecars g' = ∅).
Proof.
  split.
  - destruct (succeeds_Val
                (processCall demo_settings_none demo_FromMeta
                   (demo_call "DIRECT" demo_g1 ["ns-a"] ["ns-b"]) initState
                   {| client := tt; trace := [] |}))
      as (g' & w' & H); [vm_compute; reflexivity|].
    exists g', w'. split; [exact H|].
    destruct (C5_mode_dispatch demo_settings_none demo_FromMeta demo_anypbNew
                demo_rangeMap (demo_call "DIRECT" demo_g1 ["ns-a"] ["ns-b"])
                (demo_group "DIRECT" demo_g1) _ _ _ _ eq_refl H)
      as (Hts & _ & Hw & _).
    split; [exact Hts|exact Hw].
  - destruct (succeeds_Val
                (processCall demo_settings_none demo_FromMeta
                   (demo_call "BRIDGED" demo_g2 ["ns-a"] ["ns-b"]) initState
                   {| client := tt; trace := [] |}))
      as (g' & w' & H); [vm_compute; reflexivity|].
    exists g', w'. split; [exact H|].
    exact (proj1 (C5_mode_dispatch demo_settings_none demo_FromMeta demo_anypbNew
                    demo_rangeMap (demo_call "BRIDGED" demo_g2 ["ns-a"] ["ns-b"])
                    (demo_group "BRIDGED" demo_g2) _ _ _ _ eq_refl H)).
Defined.

Lemma C6_base_hosts_witness :
  egressHosts (ensureSidecar "ns-a" ∅ ∅) "ns-a" = ["istio-system/*"; "xcp-multicluster/*"]
  ∧ ∃ ts' w',
      ensureTrafficSetting demo_settings_none demo_FromMeta demo_g2 emptyMeta ∅
        {| client := tt; trace := [] |} = (Val ts', w')
      ∧ reachabilityHosts ts' demo_g2 = ["istio-system/*"; "xcp-multicluster/*"].
Proof.
  destruct (C6_base_hosts demo_settings_none demo_FromMeta
              (demo_call "DIRECT" demo_g1 ["ns-a"] ["ns-b"]) ∅ "ns-a" demo_g2
              emptyMeta ∅ ∅ ∅ {| client := tt; trace := [] |} tt) as [Hsc Hts].
  split.
  - apply Hsc. reflexivity.
  - apply Hts; reflexivity.
Defined.

Lemma C7_fqn_round_trip_witness :
  bridgedModeMeta "organizations/tetrate/tenants/t1/workspaces/w1/trafficgroups/g1" =
    Val {| Name := ""; Namespace := ""; Organization := "tetrate"; Tenant := "t1";
           Workspace := "w1"; Group := "g1"; Labels := ∅; Annotations := ∅ |}.
Proof.
  exact (proj1 (C7_fqn_round_trip "tetrate" "t1" "w1" "g1"
                  eq_refl eq_refl eq_refl eq_refl)).
Defined.

(** C7 as stated fails for a value that holds a slash: from
    "organizations/a/b/tenants/t/workspaces/w/trafficgroups/g" the
    organization read back is "a", not "a/b", and the keys that follow fall
    on odd positions and are not read at all. *)
Lemma C7_counterexample_slash_in_value :
  bridgedModeMeta (groupFQN "a/b" "t" "w" "g")
  = Val {| Name := ""; Namespace := ""; Organization := "a"; Tenant := "";
           Workspace := ""; Group := ""; Labels := ∅; Annotations := ∅ |}
  ∧ bridgedModeMeta (groupFQN "a/b" "t" "w" "g")
    ≠ Val {| Name := ""; Namespace := ""; Organization := "a/b"; Tenant := "t";
             Workspace := "w"; Group := "g"; Labels := ∅; Annotations := ∅ |}.
Proof.
  split; [vm_compute; reflexivity|]. vm_compute. intros H. discriminate H.
Defined.




(** The end-to-end scenario: one edge from [svcA] (in [ns-a]) to [svcB] (in
    [ns-b]) under a "DIRECT" group yields one Sidecar whose egress hosts are
    the two base hosts and [ns-b/*]; a second, equal edge leaves the output
    as it is. *)
Example scenario_one_sidecar :
  (λ results : list (Object Message), (λ o, (Kind o, Spec o)) <$> results)
    <$> valOf (runPipeline demo_lookup_direct demo_settings_none demo_FromMeta
                 demo_anypbNew demo_rangeMap
                 {| Nodes := demo_nodes; Calls := [demo_edge] |} demo_services
                 {| client := tt; trace := [] |}).1
  = Some [ ("Sidecar",
            MsgSidecar
              {| Egress :=
                   [ {| Hosts := ["istio-system/*"; "xcp-multicluster/*"; "ns-b/*"] |} ] |}) ]
  ∧ (runPipeline demo_lookup_direct demo_settings_none demo_FromMeta
       demo_anypbNew demo_rangeMap
       {| Nodes := demo_nodes; Calls := [demo_edge; demo_edge] |} demo_services
       {| client := tt; trace := [] |}).1
    = (runPipeline demo_lookup_direct demo_settings_none demo_FromMeta
         demo_anypbNew demo_rangeMap
         {| Nodes := demo_nodes; Calls := [demo_edge] |} demo_services
         {| client := tt; trace := [] |}).1.
Proof. split; vm_compute; reflexivity. Qed.

(** A bridged Call processed before a "DIRECT" one: the Sidecar still comes
    first in the output. *)
Example scenario_sidecar_first :
  (λ results : list (Object Message), Kind <$> results)
    <$> valOf (generateSettings demo_settings_none demo_FromMeta demo_anypbNew
                 demo_rangeMap
                 (Some {| graph_Calls :=
                            [ demo_call "BRIDGED" demo_g2 ["ns-c"] ["ns-b"];
                              demo_call "DIRECT" demo_g1 ["ns-a"] ["ns-b"] ] |})
                 {| client := tt; trace := [] |}).1
  = Some ["Sidecar"; "TrafficSetting"].
Proof. vm_compute. reflexivity. Qed.

(** * The further properties at work on the small topology *)

Lemma X1_service_index_last_wins_witness :
  servicesByTopKey demo_services !! "svcA" = last (exposing "svcA" demo_services)
  ∧ servicesByID demo_rangeMap (servicesByTopKey demo_services) (idToTopKey demo_nodes)
      !! "n1"
    = match last (nodesWithID "n1" demo_nodes) with
      | Some node => last (exposing (node_AggregationKey node) demo_services)
      | None => None
      end.
Proof.
  exact (X1_service_index_last_wins demo_rangeMap demo_rangeMap_perm
           demo_services demo_nodes "svcA" "n1").
Defined.

Lemma X2_buildGraph_calls_follow_edges_witness :
  (λ c, (SourceService c, TargetService c))
    <$> [demo_call "DIRECT" demo_g1 ["ns-a"] ["ns-b"]]
  = omap (resolveEdge (servicesByID demo_rangeMap (servicesByTopKey demo_services)
                         (idToTopKey demo_nodes)))
      [demo_edge_unknown; demo_edge].
Proof.
  refine (proj1 (X2_buildGraph_calls_follow_edges demo_lookup_direct demo_rangeMap
                   {| Nodes := demo_nodes; Calls := [demo_edge_unknown; demo_edge] |}
                   demo_services {| client := tt; trace := [] |}
                   {| client := tt; trace := [EvLookupTrafficGroup demo_svcA] |}
                   {| graph_Calls := [demo_call "DIRECT" demo_g1 ["ns-a"] ["ns-b"]] |}
                   _)).
  vm_compute. reflexivity.
Defined.

Lemma X3_buildGraph_appends_call_witness :
  buildGraph demo_lookup_direct demo_rangeMap
    {| Nodes := demo_nodes; Calls := [demo_edge] ++ [demo_edge] |} demo_services
    {| client := tt; trace := [] |}
  = (Val (Some {| graph_Calls :=
                    [demo_call "DIRECT" demo_g1 ["ns-a"] ["ns-b"]] ++
                    [demo_call "DIRECT" demo_g1 ["ns-a"] ["ns-b"]] |}),
     {| client := tt;
        trace := [EvLookupTrafficGroup demo_svcA] ++ [EvLookupTrafficGroup demo_svcA] |}).
Proof.
  apply (X3_buildGraph_appends_call demo_lookup_direct demo_rangeMap demo_nodes
           [demo_edge] demo_edge demo_services {| client := tt; trace := [] |}
           {| client := tt; trace := [EvLookupTrafficGroup demo_svcA] |}
           {| graph_Calls := [demo_call "DIRECT" demo_g1 ["ns-a"] ["ns-b"]] |}
           demo_svcA demo_svcB ["ns-a"] ["ns-b"]
           (Some (demo_group "DIRECT" demo_g1)) tt);
    vm_compute; reflexivity.
Defined.

Lemma X4_lookup_error_panics_run_witness :
  runPipeline demo_lookup_second_fails demo_settings_counting demo_FromMeta
    demo_anypbNew demo_rangeMap
    {| Nodes := demo_nodes; Calls := [demo_edge] ++ demo_edge :: [demo_edge] |}
    demo_services {| client := 0; trace := [] |}
  = (Panic NilDereference,
     {| client := 2;
        trace := [EvLookupTrafficGroup demo_svcA] ++ [EvLookupTrafficGroup demo_svcA] |}).
Proof.
  apply (X4_lookup_error_panics_run demo_lookup_second_fails demo_settings_counting
           demo_FromMeta demo_anypbNew demo_rangeMap demo_nodes
           [demo_edge] [demo_edge] demo_edge demo_services
           {| client := 0; trace := [] |}
           {| client := 1; trace := [EvLookupTrafficGroup demo_svcA] |}
           {| graph_Calls := [demo_call "DIRECT" demo_g1 ["ns-a"] ["ns-b"]] |}
           demo_svcA demo_svcB ["ns-a"] ["ns-b"] "lookup failed" 2);
    vm_compute; reflexivity.
Defined.

Lemma X6_fetch_error_fails_pass_witness :
  generateSettings demo_settings_fails demo_FromMeta demo_anypbNew demo_rangeMap
    (Some {| graph_Calls :=
               [] ++ demo_call "BRIDGED" demo_g2 ["ns-a"] ["ns-b"]
                  :: [demo_call "DIRECT" demo_g1 ["ns-a"] ["ns-c"]] |})
    {| client := tt; trace := [] |}
  = (Fail "fetch failed",
     {| client := tt; trace := [] ++ [EvGetTrafficSettings demo_g2] |}).
Proof.
  apply (X6_fetch_error_fails_pass demo_settings_fails demo_FromMeta demo_anypbNew
           demo_rangeMap [] [demo_call "DIRECT" demo_g1 ["ns-a"] ["ns-c"]]
           (demo_call "BRIDGED" demo_g2 ["ns-a"] ["ns-b"])
           (demo_group "BRIDGED" demo_g2)
           {| Name := ""; Namespace := ""; Organization := "tetrate"; Tenant := "t1";
              Workspace := "w1"; Group := "g2"; Labels := ∅; Annotations := ∅ |}
           "ns-a" [] initState {| client := tt; trace := [] |}
           {| client := tt; trace := [] |} "fetch failed" tt);
    try (vm_compute; reflexivity).
  intros H. discriminate H.
Defined.

Lemma X7_missing_reachability_panics_witness :
  processCall demo_settings_bare demo_FromMeta
    (demo_call "BRIDGED" demo_g2 ["ns-a"] ["ns-b"]) initState
    {| client := tt; trace := [] |}
  = (Panic NilDereference,
     {| client := tt; trace := [] ++ [EvGetTrafficSettings demo_g2] |}).
Proof.
  apply (X7_missing_reachability_panics demo_settings_bare demo_FromMeta
           (demo_call "BRIDGED" demo_g2 ["ns-a"] ["ns-b"])
           (demo_group "BRIDGED" demo_g2)
           {| Name := ""; Namespace := ""; Organization := "tetrate"; Tenant := "t1";
              Workspace := "w1"; Group := "g2"; Labels := ∅; Annotations := ∅ |}
           "ns-a" "ns-b" [] [] {| Reachability := None; Fqn := demo_g2 |}
           initState {| client := tt; trace := [] |} tt);
    try (vm_compute; reflexivity).
  - intros H. discriminate H.
  - intros H. apply list_elem_of_In in H. destruct H.
Defined.

Lemma X8_one_fetch_per_traffic_setting_witness :
  ∃ results w' g fqns,
    generateSettings demo_settings_none demo_FromMeta demo_anypbNew demo_rangeMap
      (Some {| graph_Calls := [ demo_call "BRIDGED" demo_g2 ["ns-c"] ["ns-b"];
                                demo_call "BRIDGED" demo_g2 ["ns-a"] ["ns-b"] ] |})
      {| client := tt; trace := [] |} = (Val results, w')
    ∧ trace w' = [] ++ (EvGetTrafficSettings <$> fqns)
    ∧ NoDup fqns
    ∧ (∀ f, f ∈ fqns ↔ is_Some (trafficSettings g !! f))
    ∧ length (filter (λ o, Kind o = TrafficSettingKind) results) = length fqns.
Proof.
  destruct (succeeds_Val
              (generateSettings demo_settings_none demo_FromMeta demo_anypbNew
                 demo_rangeMap
                 (Some {| graph_Calls := [ demo_call "BRIDGED" demo_g2 ["ns-c"] ["ns-b"];
                                           demo_call "BRIDGED" demo_g2 ["ns-a"] ["ns-b"] ] |})
                 {| client := tt; trace := [] |}))
    as (results & w' & H); [vm_compute; reflexivity|].
  destruct (X8_one_fetch_per_traffic_setting demo_settings_none demo_FromMeta
              demo_anypbNew demo_rangeMap demo_rangeMap_perm _ _ _ _ H)
    as (g & fqns & _ & Htr & Hnd & Hdom & Hlen).
  exists results, w', g, fqns. split; [exact H|]. split; [exact Htr|].
  split; [exact Hnd|]. split; [exact Hdom|exact Hlen].
Defined.

Lemma X9_sidecar_shape_witness :
  ∃ g w' sc,
    processCalls demo_settings_none demo_FromMeta
      [ demo_call "DIRECT" demo_g1 ["ns-a"] ["ns-b"];
        demo_call "DIRECT" demo_g1 ["ns-a"] ["ns-c"] ] initState
      {| client := tt; trace := [] |} = (Val g, w')
    ∧ sidecars g !! "ns-a" = Some sc
    ∧ k8s_Name (sc_ObjectMeta sc) = "reachability-sidecar"
    ∧ k8s_Namespace (sc_ObjectMeta sc) = "ns-a".
Proof.
  destruct (succeeds_Val
              (processCalls demo_settings_none demo_FromMeta
                 [ demo_call "DIRECT" demo_g1 ["ns-a"] ["ns-b"];
                   demo_call "DIRECT" demo_g1 ["ns-a"] ["ns-c"] ] initState
                 {| client := tt; trace := [] |}))
    as (g & w' & H); [vm_compute; reflexivity|].
  destruct (proj2 (processCalls_sidecar_dom demo_settings_none demo_FromMeta
                     _ _ _ _ "ns-a" H)) as [sc Hsc].
  { exists (demo_call "DIRECT" demo_g1 ["ns-a"] ["ns-b"]).
    split; [apply list_elem_of_here|].
    exists (demo_group "DIRECT" demo_g1).
    split; [reflexivity|]. split; [reflexivity|apply list_elem_of_here]. }
  destruct (X9_sidecar_shape demo_settings_none demo_FromMeta _ _ _ _ _ _ H Hsc)
    as (Hname & Hns & _).
  exists g, w', sc. split; [exact H|]. split; [exact Hsc|]. split; [exact Hname|exact Hns].
Defined.

Lemma X10_objects_only_extended_witness :
  ∃ g1 w1 g2 w2,
    processCall demo_settings_none demo_FromMeta
      (demo_call "DIRECT" demo_g1 ["ns-a"] ["ns-b"]) initState
      {| client := tt; trace := [] |} = (Val g1, w1)
    ∧ processCalls demo_settings_none demo_FromMeta
        [demo_call "DIRECT" demo_g1 ["ns-a"] ["ns-c"]] g1 w1 = (Val g2, w2)
    ∧ ∀ ns sc, sidecars g1 !! ns = Some sc →
        ∃ sc', sidecars g2 !! ns = Some sc'
               ∧ sc_ObjectMeta sc' = sc_ObjectMeta sc
               ∧ tail (Egress (sc_Spec sc')) = tail (Egress (sc_Spec sc))
               ∧ ∃ more, sidecarHosts sc' = sidecarHosts sc ++ more.
Proof.
  destruct (succeeds_Val
              (processCalls demo_settings_none demo_FromMeta
                 [ demo_call "DIRECT" demo_g1 ["ns-a"] ["ns-b"];
                   demo_call "DIRECT" demo_g1 ["ns-a"] ["ns-c"] ] initState
                 {| client := tt; trace := [] |}))
    as (g2 & w2 & H); [vm_compute; reflexivity|].
  change (bind (processCall demo_settings_none demo_FromMeta
                  (demo_call "DIRECT" demo_g1 ["ns-a"] ["ns-b"]) initState)
               (processCalls demo_settings_none demo_FromMeta
                  [demo_call "DIRECT" demo_g1 ["ns-a"] ["ns-c"]])
               {| client := tt; trace := [] |} = (Val g2, w2)) in H.
  apply bind_Val in H as (g1 & w1 & H1 & H2).
  exists g1, w1, g2, w2. split; [exact H1|]. split; [exact H2|].
  exact (proj1 (X10_objects_only_extended demo_settings_none demo_FromMeta
                  _ _ _ _ _ H2)).
Defined.

Lemma X11_direct_call_returns_witness :
  ∃ g w,
    processCalls demo_settings_none demo_FromMeta
      [demo_call "BRIDGED" demo_g2 ["ns-a"] ["ns-b"]] initState
      {| client := tt; trace := [] |} = (Val g, w)
    ∧ ∃ g', processCall demo_settings_none demo_FromMeta
              (demo_call "DIRECT" demo_g1 ["ns-a"] ["ns-c"]) g w = (Val g', w).
Proof.
  destruct (succeeds_Val
              (processCalls demo_settings_none demo_FromMeta
                 [demo_call "BRIDGED" demo_g2 ["ns-a"] ["ns-b"]] initState
                 {| client := tt; trace := [] |}))
    as (g & w & H); [vm_compute; reflexivity|].
  exists g, w. split; [exact H|].
  eapply (X11_direct_call_returns demo_settings_none demo_FromMeta
            [demo_call "BRIDGED" demo_g2 ["ns-a"] ["ns-b"]]
            (demo_call "DIRECT" demo_g1 ["ns-a"] ["ns-c"])
            (demo_group "DIRECT" demo_g1) _ g _ w H eq_refl eq_refl).
  apply directModeAnnotations_groupFQN; reflexivity.
Defined.

Lemma X12_hosts_are_justified_witness :
  ∃ g w',
    processCalls demo_settings_twice demo_FromMeta
      [ demo_call "DIRECT" demo_g1 ["ns-a"] ["ns-b"];
        demo_call "BRIDGED" demo_g2 ["ns-c"] ["ns-d"] ] initState
      {| client := tt; trace := [] |} = (Val g, w')
    ∧ ∀ s h, h ∈ egressHosts (sidecars g) s →
        h ∈ ["istio-system/*"; "xcp-multicluster/*"]
        ∨ ∃ d call tg, h = hostOf d
            ∧ call ∈ [ demo_call "DIRECT" demo_g1 ["ns-a"] ["ns-b"];
                       demo_call "BRIDGED" demo_g2 ["ns-c"] ["ns-d"] ]
            ∧ SourceTrafficGroup call = Some tg
            ∧ s ∈ SourceNamespaces call ∧ d ∈ TargetNamespaces call.
Proof.
  destruct (succeeds_Val
              (processCalls demo_settings_twice demo_FromMeta
                 [ demo_call "DIRECT" demo_g1 ["ns-a"] ["ns-b"];
                   demo_call "BRIDGED" demo_g2 ["ns-c"] ["ns-d"] ] initState
                 {| client := tt; trace := [] |}))
    as (g & w' & H); [vm_compute; reflexivity|].
  exists g, w'. split; [exact H|].
  exact (proj1 (X12_hosts_are_justified demo_settings_twice demo_FromMeta _ _ _ _ H)).
Defined.

Lemma X13_direct_pass_exact_hosts_witness :
  ∃ g w' sc,
    processCalls demo_settings_none demo_FromMeta
      [demo_call "DIRECT" demo_g1 ["ns-a"] ["ns-b"]] initState
      {| client := tt; trace := [] |} = (Val g, w')
    ∧ sidecars g !! "ns-a" = Some sc
    ∧ ∀ h, h ∈ sidecarHosts sc
           ↔ h ∈ ["istio-system/*"; "xcp-multicluster/*"]
             ∨ ∃ d call tg, h = hostOf d
                 ∧ call ∈ [demo_call "DIRECT" demo_g1 ["ns-a"] ["ns-b"]]
                 ∧ SourceTrafficGroup call = Some tg
                 ∧ "ns-a" ∈ SourceNamespaces call ∧ d ∈ TargetNamespaces call.
Proof.
  destruct (succeeds_Val
              (processCalls demo_settings_none demo_FromMeta
                 [demo_call "DIRECT" demo_g1 ["ns-a"] ["ns-b"]] initState
                 {| client := tt; trace := [] |}))
    as (g & w' & H); [vm_compute; reflexivity|].
  destruct (proj2 (processCalls_sidecar_dom demo_settings_none demo_FromMeta
                     _ _ _ _ "ns-a" H)) as [sc Hsc].
  { exists (demo_call "DIRECT" demo_g1 ["ns-a"] ["ns-b"]).
    split; [apply list_elem_of_here|].
    exists (demo_group "DIRECT" demo_g1).
    split; [reflexivity|]. split; [reflexivity|apply list_elem_of_here]. }
  exists g, w', sc. split; [exact H|]. split; [exact Hsc|].
  apply (X13_direct_pass_exact_hosts demo_settings_none demo_FromMeta
           [demo_call "DIRECT" demo_g1 ["ns-a"] ["ns-b"]] g
           {| client := tt; trace := [] |} w' "ns-a" sc);
    [|exact H|exact Hsc].
  intros c tg Hc Htg. apply list_elem_of_singleton in Hc. subst c.
  injection Htg as <-. reflexivity.
Defined.

Lemma X14_objects_exist_iff_called_witness :
  ∃ g w',
    processCalls demo_settings_none demo_FromMeta
      [ demo_call "DIRECT" demo_g1 ["ns-a"] ["ns-b"];
        demo_call "BRIDGED" demo_g2 [] ["ns-d"] ] initState
      {| client := tt; trace := [] |} = (Val g, w')
    ∧ ∀ fqn, is_Some (trafficSettings g !! fqn)
             ↔ ∃ call tg,
                 call ∈ [ demo_call "DIRECT" demo_g1 ["ns-a"] ["ns-b"];
                          demo_call "BRIDGED" demo_g2 [] ["ns-d"] ]
                 ∧ SourceTrafficGroup call = Some tg
                 ∧ ConfigMode tg ≠ "DIRECT" ∧ tg_FQN tg = fqn
                 ∧ SourceNamespaces call ≠ [].
Proof.
  destruct (succeeds_Val
              (processCalls demo_settings_none demo_FromMeta
                 [ demo_call "DIRECT" demo_g1 ["ns-a"] ["ns-b"];
                   demo_call "BRIDGED" demo_g2 [] ["ns-d"] ] initState
                 {| client := tt; trace := [] |}))
    as (g & w' & H); [vm_compute; reflexivity|].
  exists g, w'. split; [exact H|].
  exact (proj2 (X14_objects_exist_iff_called demo_settings_none demo_FromMeta
                  _ _ _ _ H)).
Defined.

Lemma X15_one_sidecar_object_per_namespace_witness :
  ∃ results w',
    generateSettings demo_settings_none demo_FromMeta demo_anypbNew demo_rangeMap
      (Some {| graph_Calls := [ demo_call "BRIDGED" demo_g2 ["ns-c"] ["ns-b"];
                                demo_call "DIRECT" demo_g1 ["ns-a"; "ns-e"] ["ns-b"];
                                demo_call "DIRECT" demo_g1 ["ns-a"] ["ns-d"] ] |})
      {| client := tt; trace := [] |} = (Val results, w')
    ∧ NoDup (sidecarNamespaces results)
    ∧ length (sidecarNamespaces results)
      = length (filter (λ o, Kind o = IstioSidecarKind) results).
Proof.
  destruct (succeeds_Val
              (generateSettings demo_settings_none demo_FromMeta demo_anypbNew
                 demo_rangeMap
                 (Some {| graph_Calls :=
                            [ demo_call "BRIDGED" demo_g2 ["ns-c"] ["ns-b"];
                              demo_call "DIRECT" demo_g1 ["ns-a"; "ns-e"] ["ns-b"];
                              demo_call "DIRECT" demo_g1 ["ns-a"] ["ns-d"] ] |})
                 {| client := tt; trace := [] |}))
    as (results & w' & H); [vm_compute; reflexivity|].
  destruct (X15_one_sidecar_object_per_namespace demo_settings_none demo_FromMeta
              demo_anypbNew demo_rangeMap demo_rangeMap_perm _ _ _ _ H)
    as (Hnd & Hlen & _).
  exists results, w'. split; [exact H|]. split; [exact Hnd|exact Hlen].
Defined.

Lemma X16_metadata_cache_witness :
  ∃ g w',
    processCalls demo_settings_none demo_FromMeta
      [ demo_call "DIRECT" demo_g1 ["ns-a"] ["ns-b"];
        demo_call "BRIDGED" demo_g2 [] ["ns-d"] ] initState
      {| client := tt; trace := [] |} = (Val g, w')
    ∧ ∀ fqn meta, trafficMeta g !! fqn = Some meta → bridgedModeMeta fqn = Val meta.
Proof.
  destruct (succeeds_Val
              (processCalls demo_settings_none demo_FromMeta
                 [ demo_call "DIRECT" demo_g1 ["ns-a"] ["ns-b"];
                   demo_call "BRIDGED" demo_g2 [] ["ns-d"] ] initState
                 {| client := tt; trace := [] |}))
    as (g & w' & H); [vm_compute; reflexivity|].
  exists g, w'. split; [exact H|].
  exact (proj1 (proj2 (X16_metadata_cache demo_settings_none demo_FromMeta
                         _ _ _ _ H))).
Defined.

Lemma X17_parseNamespace_collects_witness :
  "ns-a" ∈ ["ns-a"]
  ↔ ∃ dep i, dep ∈ ServiceDeployments demo_svcA ∧ Nat.Even i
             ∧ Split (dep_FQN dep) !! i = Some "namespaces"
             ∧ Split (dep_FQN dep) !! (i + 1) = Some "ns-a".
Proof.
  refine (X17_parseNamespace_collects demo_svcA ["ns-a"] _ "ns-a").
  vm_compute. reflexivity.
Defined.

Lemma X19_server_protocol_optional_witness :
  PreRunE_server "tsb.yourcorp.com" = Val "tsb.yourcorp.com"
  ∧ PreRunE_server "https://tsb.yourcorp.com" = Val "tsb.yourcorp.com"
  ∧ PreRunE_server "http://tsb.yourcorp.com" = Val "tsb.yourcorp.com".
Proof.
  apply (X19_server_protocol_optional "tsb.yourcorp.com");
    [intros H; discriminate H|reflexivity|reflexivity].
Defined.
